(** * Lin-Kernighan heuristic: a shallow embedding of LinKernighanHeuristic.cpp

    The development follows the source file top to bottom: the
    [AlternatingWalk] helpers, the [CandidateEdges] constructors, the random
    tour generator, [improveTour] and the trial driver [findBestTour].
    (LinKerninghanHeuristic.cpp is an earlier version of the same search as
    a free function; its two constants, its [containsEdge] and the head of
    its inner loop are taken from it.)

    Vectors are lists read with [!!] and updated with [<[i:=x]>]; every
    access the C++ code makes without a bounds check is written out as a
    fallible operation, so that memory safety is a theorem and not an
    assumption of the model.  Loops that the code leaves through [break] or
    [return] take a budget of iterations; the theorems show that a large
    enough budget always suffices.  The classes [Tour] and [TsplibProblem]
    and the alpha-distance routines are declared outside the two source
    files and enter as parameters. *)

From Stdlib Require Import ZArith QArith Lia Permutation.
From Stdlib Require String DecimalString.
From stdpp Require Import base tactics option list sets sorting.
Import String.StringSyntax.
Delimit Scope string_scope with string.

Set Warnings "-clear-no-such-hyp".

Local Open Scope Z_scope.
Local Open Scope nat_scope.

(** ** Outcomes of running a piece of the program *)

(** Where an unchecked access left its vector. *)
Inductive access : Type :=
| WalkAccess      (* [operator[]] inside [AlternatingWalk::containsEdge] *)
| VectorAccess.   (* any other unchecked access of the solver *)

Inductive error : Type :=
| OutOfRangeException                (* thrown by [std::vector::at] *)
| RuntimeError                       (* [throw std::runtime_error(...)] *)
| UndefinedBehaviour (a : access)    (* unchecked access outside a vector *)
| OutOfFuel.             (* a loop of the model ran longer than its budget *)

Inductive result (A : Type) : Type :=
| Ok (a : A)
| Fail (e : error).
Arguments Ok {A} a.
Arguments Fail {A} e.

#[global] Instance result_ret : MRet result := fun A a => Ok a.
#[global] Instance result_bind : MBind result := fun A B k r =>
  match r with
  | Ok a => k a
  | Fail e => Fail e
  end.

(** [v[i]] on a [std::vector]: no bounds check. *)
Definition idxAt {A : Type} (site : access) (l : list A) (i : nat) : result A :=
  match l !! i with
  | Some a => Ok a
  | None => Fail (UndefinedBehaviour site)
  end.

Abbreviation idx := (idxAt VectorAccess).

(** [v.at(i)]: throws [std::out_of_range]. *)
Definition at_ {A : Type} (l : list A) (i : nat) : result A :=
  match l !! i with
  | Some a => Ok a
  | None => Fail OutOfRangeException
  end.

(** A [for (x : xs)] loop threading a state through a fallible body. *)
Fixpoint forEach {A S : Type} (xs : list A) (body : A -> S -> result S) (s : S)
  : result S :=
  match xs with
  | [] => Ok s
  | x :: rest => s' ← body x s; forEach rest body s'
  end.

(** ** Basic types *)

Abbreviation vertex_t := nat.
Abbreviation dimension_t := nat.

(** [size_t] arithmetic wraps modulo 2^64. *)
Definition size_wrap (z : Z) : Z := (z mod 2 ^ 64)%Z.

(** ** AlternatingWalk *)

Abbreviation AlternatingWalk := (list vertex_t).

Module Walk.

(** [AlternatingWalk::close] *)
Definition close (w : AlternatingWalk) : result AlternatingWalk :=
  x0 ← at_ w 0;
  Ok (w ++ [x0]).

(** [AlternatingWalk::appendAndClose] *)
Definition appendAndClose (w : AlternatingWalk) (vertex : vertex_t)
  : result AlternatingWalk :=
  x0 ← at_ w 0;
  Ok ((w ++ [vertex]) ++ [x0]).

(** The loop of [AlternatingWalk::containsEdge], started at index [i].  The
    bound [size() - 1] is computed on [size_t]; the two conjunctions
    short-circuit, so [w[i + 1]] is read only after [w[i]] matched. *)
Fixpoint containsEdgeFrom (fuel : nat) (w : AlternatingWalk)
    (vertex1 vertex2 : vertex_t) (i : nat) : result bool :=
  match fuel with
  | O => Fail OutOfFuel
  | S fuel' =>
      if (Z.of_nat i <? size_wrap (Z.of_nat (length w) - 1))%Z then
        a ← idxAt WalkAccess w i;
        c1 ← (if Nat.eqb a vertex1
               then b ← idxAt WalkAccess w (i + 1); Ok (Nat.eqb b vertex2)
               else Ok false);
        c ← (if c1 : bool then Ok true
              else if Nat.eqb a vertex2
                   then b ← idxAt WalkAccess w (i + 1); Ok (Nat.eqb b vertex1)
                   else Ok false);
        if c : bool then Ok true
        else containsEdgeFrom fuel' w vertex1 vertex2 (i + 1)
      else Ok false
  end.

(** [AlternatingWalk::containsEdge].  The loop stops at the first access
    outside the vector, so [size() + 1] iterations are a sufficient
    budget for every walk. *)
Definition containsEdge (w : AlternatingWalk) (vertex1 vertex2 : vertex_t)
  : result bool :=
  containsEdgeFrom (S (length w)) w vertex1 vertex2 0.

(** The consecutive pairs of a walk. *)
Fixpoint edges (w : AlternatingWalk) : list (vertex_t * vertex_t) :=
  match w with
  | a :: ((b :: _) as rest) => (a, b) :: edges rest
  | _ => []
  end.

Definition sameEdge (u v : vertex_t) (e : vertex_t * vertex_t) : bool :=
  (Nat.eqb (fst e) u && Nat.eqb (snd e) v)
  || (Nat.eqb (fst e) v && Nat.eqb (snd e) u).

(** What [containsEdge] is meant to compute. *)
Definition hasEdge (w : AlternatingWalk) (u v : vertex_t) : bool :=
  existsb (sameEdge u v) (edges w).

End Walk.

(** ** Printing a walk *)

Module WalkOutput.

(** [std::to_string] on an unsigned value: its decimal digits. *)
Definition to_string (vertex : vertex_t) : String.string :=
  DecimalString.NilEmpty.string_of_uint (Nat.to_uint vertex).

(** [std::string::substr(pos, count)]: throws [std::out_of_range] when
    [pos] lies behind the end, and stops at the end of the string. *)
Definition substr (s : String.string) (pos count : Z) : result String.string :=
  if (Z.of_nat (String.length s) <? pos)%Z then Fail OutOfRangeException
  else Ok (String.substring (Z.to_nat pos)
             (Z.to_nat (Z.min count (Z.of_nat (String.length s) - pos))) s).

(** [operator<<] on an [AlternatingWalk]: the text written to the
    stream.  [output.length() - 2] is computed on [size_t]. *)
Definition print (walk : AlternatingWalk) : result String.string :=
  let output :=
    foldl (fun output vertex =>
             String.append output
               (String.append (to_string vertex) ", "%string))
      ""%string walk in
  substr output 0 (size_wrap (Z.of_nat (String.length output) - 2)).

End WalkOutput.

(** ** The external collaborators

    [Tour.h] and [TsplibUtils.h] are not part of the two source files; the
    solver uses them through the operations below.  The comments give the
    C++ member each field stands for. *)

Class TourOps (Tour : Type) : Type := {
  emptyTour : Tour;                                   (* Tour() *)
  mkTour : list vertex_t -> Tour;                     (* Tour(tourOrder) *)
  tourDimension : Tour -> dimension_t;                (* getDimension *)
  getNeighbors : Tour -> vertex_t -> list vertex_t;
  predecessor : Tour -> vertex_t -> vertex_t;
  successor : Tour -> vertex_t -> vertex_t;
  tourContainsEdge : Tour -> vertex_t -> vertex_t -> bool;   (* containsEdge *)
  isTourAfterExchange : Tour -> AlternatingWalk -> bool;
  exchange : Tour -> AlternatingWalk -> Tour
}.

Record TsplibProblem (Tour : Type) : Type := {
  getDimension : dimension_t;
  dist : vertex_t -> vertex_t -> Z;
  tourLength : Tour -> Z;                             (* length *)
  exchangeGain : AlternatingWalk -> Z
}.
Arguments getDimension {Tour} _.
Arguments dist {Tour} _ _ _.
Arguments tourLength {Tour} _ _.
Arguments exchangeGain {Tour} _ _.

(** [AlphaDistances.h]: both routines return an N x N table, read here as
    a function of the two vertices. *)
Record AlphaOracle : Type := {
  alphaDistances :
    dimension_t -> (vertex_t -> vertex_t -> Z) -> vertex_t -> vertex_t -> Z;
  optimizedAlphaDistances :
    dimension_t -> (vertex_t -> vertex_t -> Z) -> vertex_t -> vertex_t -> Z
}.

(** ** CandidateEdges *)

Abbreviation CandidateEdges := (list (list vertex_t)).

Module Candidates.

Inductive Type_ : Type :=
| ALL_NEIGHBORS
| NEAREST_NEIGHBORS
| ALPHA_NEAREST_NEIGHBORS
| OPTIMIZED_ALPHA_NEAREST_NEIGHBORS.

(** [CandidateEdges::allNeighbors] *)
Definition allNeighbors {Tour} (problem : TsplibProblem Tour)
  : result CandidateEdges :=
  let allVertices := seq 0 (getDimension problem) in
  let result0 := replicate (getDimension problem) allVertices in
  forEach allVertices
    (fun v res =>
       row ← idx res v;
       Ok (<[v := filter (fun w => w ≠ v) row]> res))
    result0.

(** Insertion of [x] into a list sorted by the strict order [lt]. *)
Fixpoint insertSorted (lt : vertex_t -> vertex_t -> bool) (x : vertex_t)
    (l : list vertex_t) : list vertex_t :=
  match l with
  | [] => [x]
  | y :: rest => if lt x y then x :: y :: rest
                 else y :: insertSorted lt x rest
  end.

Definition sortBy (lt : vertex_t -> vertex_t -> bool) (l : list vertex_t)
  : list vertex_t :=
  foldr (insertSorted lt) [] l.

(** [std::partial_sort_copy(src, dst, comp)]: the [min(|src|, |dst|)]
    smallest elements of [src], sorted, overwrite the front of [dst]; the
    rest of [dst] keeps its content.  The standard leaves the order of
    equivalent elements open; the model keeps them in source order. *)
Definition partial_sort_copy (lt : vertex_t -> vertex_t -> bool)
    (src dst : list vertex_t) : list vertex_t :=
  let n := Nat.min (length src) (length dst) in
  take n (sortBy lt src) ++ drop n dst.

(** The [std::unordered_set] of [rawNearestNeighbors] as a duplicate-free
    list; its iteration order is unspecified in C++ and is the list order
    here. *)
Definition setInsert (v : vertex_t) (s : list vertex_t) : list vertex_t :=
  if bool_decide (v ∈ s) then s else s ++ [v].
Definition setErase (v : vertex_t) (s : list vertex_t) : list vertex_t :=
  filter (fun w => w ≠ v) s.

(** [CandidateEdges::rawNearestNeighbors] *)
Definition rawNearestNeighbors (dimension : dimension_t) (k : nat)
    (distCompare : vertex_t -> vertex_t -> vertex_t -> bool)
  : result CandidateEdges :=
  let allVertices := foldl (fun s v => setInsert v s) [] (seq 0 dimension) in
  let result0 := replicate dimension (replicate k 0) in
  '(_, res) ← forEach (seq 0 dimension)
    (fun v '(allVertices, res) =>
       let others := setErase v allVertices in
       row ← idx res v;
       let res' := <[v := partial_sort_copy (distCompare v) others row]> res in
       Ok (setInsert v others, res'))
    (allVertices, result0);
  Ok res.

(** [CandidateEdges::nearestNeighbors] *)
Definition nearestNeighbors {Tour} (problem : TsplibProblem Tour) (k : nat)
  : result CandidateEdges :=
  let distCompare v w1 w2 := (dist problem v w1 <? dist problem v w2)%Z in
  rawNearestNeighbors (getDimension problem) k distCompare.

(** [std::make_tuple(a1, d1) < std::make_tuple(a2, d2)] *)
Definition tupleLt (a1 d1 a2 d2 : Z) : bool :=
  ((a1 <? a2) || ((a1 =? a2) && (d1 <? d2)))%Z.

(** [CandidateEdges::alphaNearestNeighbors] *)
Definition alphaNearestNeighbors {Tour} (oracle : AlphaOracle)
    (problem : TsplibProblem Tour) (k : nat) : result CandidateEdges :=
  let alpha := alphaDistances oracle (getDimension problem) (dist problem) in
  let distCompare v w1 w2 :=
    tupleLt (alpha v w1) (dist problem v w1) (alpha v w2) (dist problem v w2) in
  rawNearestNeighbors (getDimension problem) k distCompare.

(** [CandidateEdges::optimizedAlphaNearestNeighbors] *)
Definition optimizedAlphaNearestNeighbors {Tour} (oracle : AlphaOracle)
    (problem : TsplibProblem Tour) (k : nat) : result CandidateEdges :=
  let alpha :=
    optimizedAlphaDistances oracle (getDimension problem) (dist problem) in
  let distCompare v w1 w2 :=
    tupleLt (alpha v w1) (dist problem v w1) (alpha v w2) (dist problem v w2) in
  rawNearestNeighbors (getDimension problem) k distCompare.

(** [CandidateEdges::create] *)
Definition create {Tour} (oracle : AlphaOracle) (problem : TsplibProblem Tour)
    (candidateEdgeType : Type_) (k : nat) : result CandidateEdges :=
  match candidateEdgeType with
  | ALL_NEIGHBORS => allNeighbors problem
  | NEAREST_NEIGHBORS => nearestNeighbors problem k
  | ALPHA_NEAREST_NEIGHBORS => alphaNearestNeighbors oracle problem k
  | OPTIMIZED_ALPHA_NEAREST_NEIGHBORS =>
      optimizedAlphaNearestNeighbors oracle problem k
  end.


End Candidates.

(** ** LinKernighanHeuristic *)

(** The class constants ([LinKernighanHeuristic.h]; the values are those of
    the free function in LinKerninghanHeuristic.cpp). *)
Definition backtrackingDepth : nat := 5.
Definition infeasibilityDepth : nat := 2.

(** State of one round of [improveTour]; [pos] is the variable [i]. *)
Record SearchState : Type := {
  vertexChoices : list (list vertex_t);
  currentWalk : AlternatingWalk;
  bestAlternatingWalk : AlternatingWalk;
  highestGain : Z;
  pos : nat
}.

(** How one pass through the body of the inner [while (true)] ends. *)
Inductive StepOutcome : Type :=
| Continue (st : SearchState)        (* [continue] or fall through to [++i] *)
| Exchange (w : AlternatingWalk)     (* [currentTour.exchange(w); break] *)
| Finished.                          (* [return currentTour] *)

(** State of the trial loop of [findBestTour].  The last two fields are
    not variables of the program but a record of its run: [randomLog] has
    one entry per call of [chooseRandomElement] so far, the size of the
    vector it received, and [trials] lists the improved tour of every trial
    run. *)
Record TrialState (Tour : Type) : Type := {
  currentBestTour : Tour;
  currentBestLength : Z;
  trialCount : nat;
  randomLog : list nat;
  trials : list Tour
}.
Arguments currentBestTour {Tour} _.
Arguments currentBestLength {Tour} _.
Arguments trialCount {Tour} _.
Arguments randomLog {Tour} _.
Arguments trials {Tour} _.

(** [v.back()] *)
Definition back {A : Type} (l : list A) : result A :=
  match last l with
  | Some a => Ok a
  | None => Fail (UndefinedBehaviour VectorAccess)
  end.

(** [v.erase(v.begin() + n, v.end())]: the iterator [begin() + n] has to
    lie inside the vector. *)
Definition eraseFrom {A : Type} (l : list A) (n : nat) : result (list A) :=
  if n <=? length l then Ok (take n l)
  else Fail (UndefinedBehaviour VectorAccess).

(** [v.erase(v.begin() + n)]: the iterator has to point at an element. *)
Definition eraseAt {A : Type} (l : list A) (n : nat) : result (list A) :=
  if n <? length l then Ok (take n l ++ drop (S n) l)
  else Fail (UndefinedBehaviour VectorAccess).

(** [vs[j].push_back(x)] *)
Definition pushAt (vs : list (list vertex_t)) (j : nat) (x : vertex_t)
  : result (list (list vertex_t)) :=
  Xj ← idx vs j;
  Ok (<[j := Xj ++ [x]]> vs).

Section Solver.

Context {Tour : Type} `{TourOps Tour}.

(** The members [tsplibProblem] and [candidateEdges]. *)
Variable tsplibProblem : TsplibProblem Tour.
Variable candidateEdges : CandidateEdges.

(** [std::random_device]: the value the device returns on the [n]-th
    draw of the run.  The program has no seed. *)
Variable device : nat -> nat.

(** [std::numeric_limits<distance_t>::max()] *)
Variable distance_max : Z.

(** [LinKernighanHeuristic::chooseRandomElement].  The distribution is
    built over [0 .. size() - 1] with [size_t] arithmetic and turns the
    device value into an index of that range. *)
Definition chooseRandomElement (elements : list vertex_t) (log : list nat)
  : result (vertex_t * list nat) :=
  let hi := size_wrap (Z.of_nat (length elements) - 1) in
  let index := (Z.of_nat (device (length log)) mod (hi + 1))%Z in
  v ← idx elements (Z.to_nat index);
  Ok (v, log ++ [length elements]).

(** The [for] loop of [generateRandomTour] that fills categories (1) and
    (2) for [currentVertex]. *)
Definition categories (best : Tour) (currentVertex : vertex_t)
    (remainingVertices row : list vertex_t) : list vertex_t * list vertex_t :=
  foldl
    (fun '(candidatesInBestTour, candidates) otherVertex =>
       if bool_decide (otherVertex ∈ remainingVertices) then
         ((if negb (tourDimension best =? 0)
               && tourContainsEdge best currentVertex otherVertex
           then candidatesInBestTour ++ [otherVertex]
           else candidatesInBestTour),
          candidates ++ [otherVertex])
       else (candidatesInBestTour, candidates))
    ([], []) row.

(** The [while (!remainingVertices.empty())] loop of
    [generateRandomTour]. *)
Fixpoint generateLoop (fuel : nat) (best : Tour) (currentVertex : vertex_t)
    (remainingVertices tourOrder : list vertex_t) (log : list nat)
  : result (list vertex_t * list nat) :=
  match remainingVertices with
  | [] => Ok (tourOrder, log)
  | _ :: _ =>
      match fuel with
      | O => Fail OutOfFuel
      | S fuel' =>
          row ← idx candidateEdges currentVertex;
          let '(candidatesInBestTour, candidates) :=
            categories best currentVertex remainingVertices row in
          '(next, log') ←
            (match candidatesInBestTour, candidates with
             | _ :: _, _ => chooseRandomElement candidatesInBestTour log
             | [], _ :: _ => chooseRandomElement candidates log
             | [], [] => chooseRandomElement remainingVertices log
             end);
          generateLoop fuel' best next
            (filter (fun w => w ≠ next) remainingVertices)
            (tourOrder ++ [next]) log'
      end
  end.

(** [LinKernighanHeuristic::generateRandomTour] *)
Definition generateRandomTour (fuel : nat) (best : Tour) (log : list nat)
  : result (Tour * list nat) :=
  let remainingVertices := seq 0 (getDimension tsplibProblem) in
  '(currentVertex, log1) ← chooseRandomElement remainingVertices log;
  remainingVertices' ← eraseAt remainingVertices currentVertex;
  '(tourOrder, log2) ←
    generateLoop fuel best currentVertex remainingVertices' [currentVertex]
      log1;
  Ok (mkTour tourOrder, log2).

(** *** improveTour *)

(** Lines 249-257: scoring the closed walk at odd [i >= 3]. *)
Definition scoreClosure (currentTour : Tour) (i : nat)
    (walk best : AlternatingWalk) (gainSoFar : Z)
  : result (AlternatingWalk * Z) :=
  if Nat.odd i && (3 <=? i) then
    closedWalk ← Walk.close walk;
    let gain := exchangeGain tsplibProblem closedWalk in
    if (gainSoFar <? gain)%Z && isTourAfterExchange currentTour closedWalk
    then Ok (closedWalk, gain)
    else Ok (best, gainSoFar)
  else Ok (best, gainSoFar).

(** Lines 263-274: the in-edges at odd [i]. *)
Definition inEdges (currentTour : Tour) (i : nat) (walk : AlternatingWalk)
    (gainSoFar : Z) (xi : vertex_t) (vs : list (list vertex_t))
  : result (list (list vertex_t)) :=
  let currentGain := exchangeGain tsplibProblem walk in
  let xiPredecessor := predecessor currentTour xi in
  let xiSuccessor := successor currentTour xi in
  row ← idx candidateEdges xi;
  forEach row
    (fun x vs =>
       x0 ← idx walk 0;
       if negb (x =? x0) && negb (x =? xiPredecessor)
          && negb (x =? xiSuccessor) then
         inWalk ← Walk.containsEdge walk xi x;
         if negb inWalk
            && (gainSoFar <? currentGain - dist tsplibProblem xi x)%Z
         then pushAt vs (i + 1) x
         else Ok vs
       else Ok vs)
    vs.

(** Lines 279-306: the out-edges at even [i]. *)
Definition outEdges (currentTour best : Tour) (i : nat)
    (walk : AlternatingWalk) (xi : vertex_t) (vs : list (list vertex_t))
  : result (list (list vertex_t)) :=
  if (i =? 0) && negb (tourDimension best =? 0) then
    x0 ← idx walk 0;
    let x0Predecessor := predecessor best x0 in
    x0' ← idx walk 0;
    let x0Successor := successor best x0' in
    forEach (getNeighbors currentTour xi)
      (fun neighbor vs =>
         x0 ← idx walk 0;
         if negb (neighbor =? x0) && negb (neighbor =? x0Predecessor)
            && negb (neighbor =? x0Successor)
         then pushAt vs (i + 1) neighbor
         else Ok vs)
      vs
  else if i <=? infeasibilityDepth then
    forEach (getNeighbors currentTour xi)
      (fun neighbor vs =>
         x0 ← idx walk 0;
         if negb (neighbor =? x0) then
           inWalk ← Walk.containsEdge walk xi neighbor;
           if negb inWalk then pushAt vs (i + 1) neighbor else Ok vs
         else Ok vs)
      vs
  else
    forEach (getNeighbors currentTour xi)
      (fun neighbor vs =>
         x0 ← idx walk 0;
         if negb (neighbor =? x0) then
           inWalk ← Walk.containsEdge walk xi neighbor;
           if negb inWalk then
             x1 ← idx walk 1;
             if negb (neighbor =? x1) then
               closedWalk ← Walk.appendAndClose walk neighbor;
               if isTourAfterExchange currentTour closedWalk
               then pushAt vs (i + 1) neighbor
               else Ok vs
             else Ok vs
           else Ok vs
         else Ok vs)
      vs.

(** One pass through the body of the inner loop (lines 230-309). *)
Definition innerStep (currentTour best : Tour) (st : SearchState)
  : result StepOutcome :=
  let i := pos st in
  Xi ← idx (vertexChoices st) i;
  match Xi with
  | [] =>
      if (0 <? highestGain st)%Z then Ok (Exchange (bestAlternatingWalk st))
      else if i =? 0 then Ok Finished
      else
        let i' := Nat.min (i - 1) backtrackingDepth in
        vs ← eraseFrom (vertexChoices st) (i' + 1);
        walk ← eraseFrom (currentWalk st) i';
        Ok (Continue {| vertexChoices := vs; currentWalk := walk;
                        bestAlternatingWalk := bestAlternatingWalk st;
                        highestGain := highestGain st; pos := i' |})
  | _ :: _ =>
      x ← back Xi;
      let walk := currentWalk st ++ [x] in
      let vs := <[i := removelast Xi]> (vertexChoices st) in
      '(bestWalk, gain) ←
        scoreClosure currentTour i walk (bestAlternatingWalk st)
          (highestGain st);
      let vs := vs ++ [[]] in
      xi ← idx walk i;
      vs' ← (if Nat.odd i then inEdges currentTour i walk gain xi vs
             else outEdges currentTour best i walk xi vs);
      Ok (Continue {| vertexChoices := vs'; currentWalk := walk;
                      bestAlternatingWalk := bestWalk;
                      highestGain := gain; pos := i + 1 |})
  end.

(** Lines 221-228: the state a round starts from. *)
Definition initialState : SearchState :=
  {| vertexChoices := [seq 0 (getDimension tsplibProblem)];
     currentWalk := [];
     bestAlternatingWalk := [];
     highestGain := 0%Z;
     pos := 0 |}.

(** The inner [while (true)]: [Some w] when it leaves through [break]
    after [exchange(w)], [None] when it leaves through [return]. *)
Fixpoint innerLoop (fuel : nat) (currentTour best : Tour) (st : SearchState)
  : result (option AlternatingWalk) :=
  match fuel with
  | O => Fail OutOfFuel
  | S fuel' =>
      out ← innerStep currentTour best st;
      match out with
      | Continue st' => innerLoop fuel' currentTour best st'
      | Exchange w => Ok (Some w)
      | Finished => Ok None
      end
  end.

(** The outer [while (true)]. *)
Fixpoint improveRounds (rounds steps : nat) (best currentTour : Tour)
  : result Tour :=
  match rounds with
  | O => Fail OutOfFuel
  | S rounds' =>
      out ← innerLoop steps currentTour best initialState;
      match out with
      | Some w => improveRounds rounds' steps best (exchange currentTour w)
      | None => Ok currentTour
      end
  end.

(** [LinKernighanHeuristic::improveTour]; [best] is the member
    [currentBestTour], [fuel] bounds the rounds and the steps of a
    round. *)
Definition improveTour (fuel : nat) (best startTour : Tour) : result Tour :=
  improveRounds fuel fuel best startTour.

(** *** findBestTour *)

(** Line 345: [length < (1 + acceptableError) * optimumTourLength].  The
    C++ comparison is made on [double]; rationals stand for them here
    (exact as long as the lengths stay below 2^53). *)
Definition withinAcceptableError (len optimumTourLength : Z)
    (acceptableError : Q) : bool :=
  negb (Qle_bool ((1 + acceptableError) * inject_Z optimumTourLength)
                 (inject_Z len)).

(** The trial loop (lines 326-348); [trialCount++] is part of the loop
    test. *)
Fixpoint trialLoop (fuel : nat) (numberOfTrials : nat)
    (optimumTourLength : Z) (acceptableError : Q) (st : TrialState Tour)
  : result (TrialState Tour) :=
  let entered := trialCount st <? numberOfTrials in
  let count := trialCount st + 1 in
  if entered then
    match fuel with
    | O => Fail OutOfFuel
    | S fuel' =>
        '(startTour, log) ←
          generateRandomTour fuel (currentBestTour st) (randomLog st);
        currentTour ← improveTour fuel (currentBestTour st) startTour;
        let improves :=
          (tourLength tsplibProblem currentTour <? currentBestLength st)%Z in
        let bestTour := if improves then currentTour else currentBestTour st in
        let bestLength :=
          if improves then tourLength tsplibProblem bestTour
          else currentBestLength st in
        let st' := {| currentBestTour := bestTour;
                      currentBestLength := bestLength;
                      trialCount := count;
                      randomLog := log;
                      trials := trials st ++ [currentTour] |} in
        if withinAcceptableError (tourLength tsplibProblem bestTour)
             optimumTourLength acceptableError
        then Ok st'
        else trialLoop fuel' numberOfTrials optimumTourLength
               acceptableError st'
    end
  else Ok {| currentBestTour := currentBestTour st;
             currentBestLength := currentBestLength st;
             trialCount := count;
             randomLog := randomLog st;
             trials := trials st |}.

(** The state of the members and locals when the loop is entered;
    [memberBestTour] is the value the member [currentBestTour] has at the
    call ([emptyTour] on a solver that has not run yet). *)
Definition initialTrialState (memberBestTour : Tour) (log : list nat)
  : TrialState Tour :=
  {| currentBestTour := memberBestTour;
     currentBestLength := distance_max;
     trialCount := 0;
     randomLog := log;
     trials := [] |}.

(** The whole run of [findBestTour], with the final state of its loop. *)
Definition runTrials (fuel : nat) (memberBestTour : Tour)
    (numberOfTrials : nat) (optimumTourLength : Z) (acceptableError : Q)
  : result (TrialState Tour) :=
  if numberOfTrials <? 1 then Fail RuntimeError
  else trialLoop fuel numberOfTrials optimumTourLength acceptableError
         (initialTrialState memberBestTour []).

(** [LinKernighanHeuristic::findBestTour] (the verbose output is left
    out). *)
Definition findBestTour (fuel : nat) (memberBestTour : Tour)
    (numberOfTrials : nat) (optimumTourLength : Z) (acceptableError : Q)
  : result Tour :=
  st ← runTrials fuel memberBestTour numberOfTrials optimumTourLength
         acceptableError;
  Ok (currentBestTour st).

End Solver.

(** ** The earlier version (LinKerninghanHeuristic.cpp) *)

Module Old.

(** The loop of [AlternatingWalk::containsEdge] in the earlier file: the
    same loop, reading the walk with [at]. *)
Fixpoint containsEdgeFrom (fuel : nat) (w : AlternatingWalk)
    (vertex1 vertex2 : vertex_t) (i : nat) : result bool :=
  match fuel with
  | O => Fail OutOfFuel
  | S fuel' =>
      if (Z.of_nat i <? size_wrap (Z.of_nat (length w) - 1))%Z then
        a ← at_ w i;
        c1 ← (if Nat.eqb a vertex1
               then b ← at_ w (i + 1); Ok (Nat.eqb b vertex2)
               else Ok false);
        c ← (if c1 : bool then Ok true
              else if Nat.eqb a vertex2
                   then b ← at_ w (i + 1); Ok (Nat.eqb b vertex1)
                   else Ok false);
        if c : bool then Ok true
        else containsEdgeFrom fuel' w vertex1 vertex2 (i + 1)
      else Ok false
  end.

Definition containsEdge (w : AlternatingWalk) (vertex1 vertex2 : vertex_t)
  : result bool :=
  containsEdgeFrom (S (length w)) w vertex1 vertex2 0.

(** How the head of the inner loop of [linKerninghanHeuristic] (lines
    63-75) ends. *)
Inductive HeadOutcome : Type :=
| HeadExchange                       (* lines 64-65 *)
| HeadReturn                         (* line 68 *)
| HeadContinue (vertexChoices : list (list vertex_t))
    (currentWalk : AlternatingWalk) (i : nat)          (* lines 70-73 *)
| HeadExtend.                        (* line 77 is reached *)

(** [v.erase(v.begin() + n - 1, v.end())]: [begin() + n] and the iterator
    before it have to lie inside the vector. *)
Definition eraseFromBefore {A : Type} (l : list A) (n : nat)
  : result (list A) :=
  if (1 <=? n) && (n <=? length l) then Ok (take (n - 1) l)
  else Fail (UndefinedBehaviour VectorAccess).

(** Lines 63-75 of [linKerninghanHeuristic]. *)
Definition loopHead (vertexChoices : list (list vertex_t))
    (currentWalk : AlternatingWalk) (highestGain : Z) (i : nat)
  : result HeadOutcome :=
  Xi ← at_ vertexChoices i;
  if bool_decide (Xi = []) && (0 <? highestGain)%Z then Ok HeadExchange
  else
    Xi ← at_ vertexChoices i;
    if bool_decide (Xi = []) && (highestGain =? 0)%Z then
      if i =? 0 then Ok HeadReturn
      else
        let i := Nat.min (i - 1) backtrackingDepth in
        vertexChoices ← eraseFrom vertexChoices i;
        currentWalk ← eraseFromBefore currentWalk i;
        Ok (HeadContinue vertexChoices currentWalk i)
    else Ok HeadExtend.

End Old.

(** ** A list-based tour

    Modelled from the spec: the Tour contract of section 3 (Tour.h is not
    among the sources).  A tour is the list of its vertices in cyclic
    order; an exchange removes the even-numbered edges of the closed walk
    from the cycle, adds the odd-numbered ones and accepts the outcome when
    it is a single cycle through all vertices. *)

Module ListTour.

Abbreviation t := (list vertex_t).

Abbreviation edge := (vertex_t * vertex_t)%type.

(** Modelled from the spec: the edges of the cycle, the closing edge
    last. *)
Definition cycleEdges (T : t) : list edge :=
  match T with
  | [] => []
  | a :: _ => Walk.edges (T ++ [a])
  end.

Fixpoint indexOf (v : vertex_t) (l : list vertex_t) : option nat :=
  match l with
  | [] => None
  | x :: rest => if x =? v then Some 0 else S <$> indexOf v rest
  end.

(** Modelled from the spec: [successor(v)] and [predecessor(v)], the two
    neighbours of [v] in the orientation of the list. *)
Definition successor (T : t) (v : vertex_t) : vertex_t :=
  match indexOf v T with
  | Some p => nth ((p + 1) mod length T) T v
  | None => v
  end.

Definition predecessor (T : t) (v : vertex_t) : vertex_t :=
  match indexOf v T with
  | Some p => nth ((p + length T - 1) mod length T) T v
  | None => v
  end.

(** Modelled from the spec: [getNeighbors(v)], the two vertices adjacent
    to [v], predecessor first. *)
Definition getNeighbors (T : t) (v : vertex_t) : list vertex_t :=
  [predecessor T v; successor T v].

(** Modelled from the spec: [containsEdge(u, v)], whether the unordered
    pair is on the cycle. *)
Definition containsEdge (T : t) (u v : vertex_t) : bool :=
  existsb (Walk.sameEdge u v) (cycleEdges T).

(** Edges number 0, 2, 4, ... of a walk are removed, the others added. *)
Fixpoint alternate (es : list edge) : list edge * list edge :=
  match es with
  | [] => ([], [])
  | e :: rest => let '(removed, added) := alternate rest in
                 (e :: added, removed)
  end.

(** Removes one occurrence of the unordered edge [e]. *)
Fixpoint removeEdge (e : edge) (es : list edge) : option (list edge) :=
  match es with
  | [] => None
  | e' :: rest =>
      if Walk.sameEdge (fst e) (snd e) e' then Some rest
      else cons e' <$> removeEdge e rest
  end.

Fixpoint removeAll (gone es : list edge) : option (list edge) :=
  match gone with
  | [] => Some es
  | e :: rest => es' ← removeEdge e es; removeAll rest es'
  end.

(** The vertices joined to [v] by an edge of [es]. *)
Fixpoint adjacent (v : vertex_t) (es : list edge) : list vertex_t :=
  match es with
  | [] => []
  | (a, b) :: rest =>
      if a =? v then b :: adjacent v rest
      else if b =? v then a :: adjacent v rest
      else adjacent v rest
  end.

(** Follows the edges of [es] from [cur], never stepping back to
    [prev], for at most [fuel] vertices. *)
Fixpoint follow (fuel : nat) (es : list edge) (prev cur : vertex_t)
  : list vertex_t :=
  match fuel with
  | O => []
  | S fuel' =>
      cur :: match find (fun u => negb (u =? prev)) (adjacent cur es) with
             | Some next => follow fuel' es cur next
             | None => []
             end
  end.

(** A Hamiltonian cycle over [0 .. n - 1]: every vertex once. *)
Definition validOrder (n : nat) (T : t) : bool :=
  bool_decide (length T = n /\ Forall (fun v => v < n) T /\ NoDup T).

(** The tours of a problem with [n] vertices. *)
Definition valid (n : nat) (T : t) : Prop := validOrder n T = true.

(** Modelled from the spec: the exchange implied by a closed walk.  The
    removed edges have to be on the cycle; what remains, together with the
    added edges, has to be one cycle through all vertices. *)
Definition exchangeResult (T : t) (W : AlternatingWalk) : option t :=
  let '(removed, added) := alternate (Walk.edges W) in
  rest ← removeAll removed (cycleEdges T);
  let es := rest ++ added in
  let T' := follow (length T) es (hd 0 T) (hd 0 T) in
  if validOrder (length T) T'
     && bool_decide (removeAll (cycleEdges T') es = Some [])
  then Some T' else None.

(** Modelled from the spec: [isTourAfterExchange(closedWalk)]. *)
Definition isTourAfterExchange (T : t) (W : AlternatingWalk) : bool :=
  bool_decide (is_Some (exchangeResult T W)).

(** Modelled from the spec: [exchange(closedWalk)]; a walk that does not
    pass [isTourAfterExchange] leaves the tour as it is. *)
Definition exchange (T : t) (W : AlternatingWalk) : t :=
  default T (exchangeResult T W).

Definition sumDist (d : vertex_t -> vertex_t -> Z) (es : list edge) : Z :=
  foldr (fun e acc => (d (fst e) (snd e) + acc)%Z) 0%Z es.

(** Modelled from the spec: [length(tour)] and
    [exchangeGain(walk)] = sum over the removed edges minus sum over the
    added edges (TsplibUtils.h is not among the sources). *)
Definition problem (n : dimension_t) (d : vertex_t -> vertex_t -> Z)
  : TsplibProblem t :=
  {| getDimension := n;
     dist := d;
     tourLength := fun T => sumDist d (cycleEdges T);
     exchangeGain := fun W =>
       let '(removed, added) := alternate (Walk.edges W) in
       (sumDist d removed - sumDist d added)%Z |}.

End ListTour.

#[global] Instance ListTour_ops : TourOps ListTour.t := {|
  emptyTour := [];
  mkTour := fun order => order;
  tourDimension := fun T => length T;
  getNeighbors := ListTour.getNeighbors;
  predecessor := ListTour.predecessor;
  successor := ListTour.successor;
  tourContainsEdge := ListTour.containsEdge;
  isTourAfterExchange := ListTour.isTourAfterExchange;
  exchange := ListTour.exchange
|}.

(** ** A concrete instance: four cities on a line (scenario E2) *)

Module Line4.

Definition d (u v : vertex_t) : Z := Z.abs (Z.of_nat u - Z.of_nat v).

Definition problem : TsplibProblem ListTour.t := ListTour.problem 4 d.

(** Modelled from the spec: an alpha-distance oracle (section 6, an
    N x N table of values; AlphaDistances.h is not among the sources).
    This one returns the plain distances. *)
Definition oracle : AlphaOracle :=
  {| alphaDistances := fun _ dd => dd;
     optimizedAlphaDistances := fun _ dd => dd |}.

Definition allCandidates : CandidateEdges :=
  [[1; 2; 3]; [0; 2; 3]; [0; 1; 3]; [0; 1; 2]].

Definition crossed : ListTour.t := [0; 2; 1; 3].

End Line4.

(** ** Notions used to state the properties *)

(** A candidate table fit for a problem of dimension [n]: one row per
    vertex, and only vertices of the problem in the rows. *)
Definition wfCandidates (n : nat) (candidateEdges : CandidateEdges) : Prop :=
  length candidateEdges = n /\ Forall (Forall (fun x => x < n)) candidateEdges.

(** What the solver relies on from [Tour] and [TsplibProblem] (section 3
    of the specification): tours that are [valid] for the problem have
    their neighbours among the vertices, an exchange that passed
    [isTourAfterExchange] yields a valid tour shorter by the gain of the
    walk, lengths are sums of non-negative distances, and every order of
    the vertices makes a valid tour. *)
Record TourContract {Tour : Type} `{TourOps Tour} (problem : TsplibProblem Tour)
    (valid : Tour -> Prop) : Prop := {
  neighbors_in_range : forall T v u,
    valid T -> v < getDimension problem -> u ∈ getNeighbors T v ->
    u < getDimension problem;
  exchange_valid : forall T W,
    valid T -> isTourAfterExchange T W = true -> valid (exchange T W);
  exchange_length : forall T W,
    valid T -> isTourAfterExchange T W = true ->
    tourLength problem (exchange T W)
    = (tourLength problem T - exchangeGain problem W)%Z;
  length_nonneg : forall T, valid T -> (0 <= tourLength problem T)%Z;
  mkTour_valid : forall order,
    order ≡ₚ seq 0 (getDimension problem) -> valid (mkTour order)
}.

(** An edge as an unordered pair. *)
Definition edgeCode (e : vertex_t * vertex_t) : vertex_t * vertex_t :=
  (Nat.min (fst e) (snd e), Nat.max (fst e) (snd e)).

(** Weight of a stack of choice sets: level [j] counts [|X_j| + 1] in base
    [K], the deepest admissible level being the unit. *)
Fixpoint weight (K d : nat) (vs : list (list vertex_t)) : nat :=
  match vs with
  | [] => 0
  | X :: rest => (length X + 1) * K ^ d + weight K (d - 1) rest
  end.

Section SearchNotions.

Context {Tour : Type} `{TourOps Tour}.
Variable tsplibProblem : TsplibProblem Tour.
Variable candidateEdges : CandidateEdges.

(** The test of lines 267-270 on a candidate [x]. *)
Definition inEdgeOk (currentTour : Tour) (walk : AlternatingWalk)
    (gainSoFar : Z) (xi x0 x : vertex_t) : bool :=
  negb (x =? x0) && negb (x =? predecessor currentTour xi)
  && negb (x =? successor currentTour xi)
  && (negb (Walk.hasEdge walk xi x)
      && (gainSoFar
          <? exchangeGain tsplibProblem walk - dist tsplibProblem xi x)%Z).

(** The tests of lines 284, 290 and 299-302 on a tour neighbour. *)
Definition firstOutEdgeOk (best : Tour) (x0 neighbor : vertex_t) : bool :=
  negb (neighbor =? x0) && negb (neighbor =? predecessor best x0)
  && negb (neighbor =? successor best x0).

Definition shallowOutEdgeOk (walk : AlternatingWalk) (xi x0 neighbor : vertex_t)
  : bool :=
  negb (neighbor =? x0) && negb (Walk.hasEdge walk xi neighbor).

Definition deepOutEdgeOk (currentTour : Tour) (walk : AlternatingWalk)
    (xi x0 x1 neighbor : vertex_t) : bool :=
  negb (neighbor =? x0)
  && (negb (Walk.hasEdge walk xi neighbor)
      && (negb (neighbor =? x1)
          && isTourAfterExchange currentTour ((walk ++ [neighbor]) ++ [x0]))).

(** The set [X_(i+1)] built after [xi] entered the walk at position
    [i]. *)
Definition nextChoices (currentTour best : Tour) (i : nat)
    (walk : AlternatingWalk) (gainSoFar : Z) (xi : vertex_t)
  : list vertex_t :=
  let x0 := walk !!! 0 in
  if Nat.odd i then
    List.filter (inEdgeOk currentTour walk gainSoFar xi x0)
      (candidateEdges !!! xi)
  else if (i =? 0) && negb (tourDimension best =? 0) then
    List.filter (firstOutEdgeOk best x0) (getNeighbors currentTour xi)
  else if i <=? infeasibilityDepth then
    List.filter (shallowOutEdgeOk walk xi x0) (getNeighbors currentTour xi)
  else
    List.filter (deepOutEdgeOk currentTour walk xi x0 (walk !!! 1))
      (getNeighbors currentTour xi).

(** The pair [(bestAlternatingWalk, highestGain)] after lines 249-257. *)
Definition scored (currentTour : Tour) (i : nat) (walk best : AlternatingWalk)
    (gainSoFar : Z) : AlternatingWalk * Z :=
  let closedWalk := walk ++ [walk !!! 0] in
  if Nat.odd i && (3 <=? i)
     && ((gainSoFar <? exchangeGain tsplibProblem closedWalk)%Z
         && isTourAfterExchange currentTour closedWalk)
  then (closedWalk, exchangeGain tsplibProblem closedWalk)
  else (best, gainSoFar).

(** The state after a pass that extends the walk by [x]. *)
Definition extended (currentTour best : Tour) (st : SearchState)
    (Xi : list vertex_t) (x : vertex_t) : SearchState :=
  let walk := currentWalk st ++ [x] in
  let score := scored currentTour (pos st) walk (bestAlternatingWalk st)
                 (highestGain st) in
  {| vertexChoices :=
       <[pos st := removelast Xi]> (vertexChoices st)
       ++ [nextChoices currentTour best (pos st) walk score.2 x];
     currentWalk := walk;
     bestAlternatingWalk := score.1;
     highestGain := score.2;
     pos := pos st + 1 |}.

(** The state after a pass that backtracks. *)
Definition backtracked (st : SearchState) : SearchState :=
  let i' := Nat.min (pos st - 1) backtrackingDepth in
  {| vertexChoices := take (i' + 1) (vertexChoices st);
     currentWalk := take i' (currentWalk st);
     bestAlternatingWalk := bestAlternatingWalk st;
     highestGain := highestGain st;
     pos := i' |}.

(** No choice set of a round is larger than this. *)
Definition branching (currentTour : Tour) : nat :=
  getDimension tsplibProblem
  + list_max (map length candidateEdges)
  + list_max (map (fun v => length (getNeighbors currentTour v))
                (seq 0 (getDimension tsplibProblem))).

(** No walk without a repeated edge is longer than this. *)
Definition depthBound : nat :=
  getDimension tsplibProblem * getDimension tsplibProblem + 1.

Definition searchMeasure (currentTour : Tour) (st : SearchState) : nat :=
  weight (branching currentTour + 2) depthBound (vertexChoices st).

(** The invariant of the inner loop. *)
Record searchInv (currentTour : Tour) (st : SearchState) : Prop := {
  inv_choices_length : length (vertexChoices st) = pos st + 1;
  inv_walk_length : length (currentWalk st) = pos st;
  inv_walk_range :
    Forall (fun v => v < getDimension tsplibProblem) (currentWalk st);
  inv_walk_edges : NoDup (map edgeCode (Walk.edges (currentWalk st)));
  inv_choices : forall j Xj x,
    vertexChoices st !! j = Some Xj -> x ∈ Xj ->
    x < getDimension tsplibProblem /\
    forall y, last (take j (currentWalk st)) = Some y ->
              Walk.hasEdge (take j (currentWalk st)) y x = false;
  inv_choices_size : forall j Xj,
    vertexChoices st !! j = Some Xj -> length Xj <= branching currentTour;
  inv_gain_nonneg : (0 <= highestGain st)%Z;
  inv_best : (0 < highestGain st)%Z ->
    isTourAfterExchange currentTour (bestAlternatingWalk st) = true /\
    exchangeGain tsplibProblem (bestAlternatingWalk st) = highestGain st
}.

(** What one pass of the inner loop guarantees. *)
Definition stepPost (currentTour : Tour) (st : SearchState)
    (out : StepOutcome) : Prop :=
  match out with
  | Continue st' =>
      searchInv currentTour st' /\
      searchMeasure currentTour st' < searchMeasure currentTour st
  | Exchange w =>
      isTourAfterExchange currentTour w = true /\
      (0 < exchangeGain tsplibProblem w)%Z
  | Finished => True
  end.

End SearchNotions.

(** The row that [rawNearestNeighbors] writes for [v]. *)
Definition rawRow (n k : nat) (lt : vertex_t -> vertex_t -> bool)
    (v : vertex_t) (row : list vertex_t) : Prop :=
  exists others,
    others ≡ₚ filter (fun w => w ≠ v) (seq 0 n) /\
    row = Candidates.partial_sort_copy lt others (replicate k 0).

(** The vector passed to [chooseRandomElement] in the loop. *)
Definition chosenFrom {Tour : Type} `{TourOps Tour} (best : Tour)
    (currentVertex : vertex_t) (remaining row : list vertex_t)
  : list vertex_t :=
  match categories best currentVertex remaining row with
  | ((_ :: _) as candidatesInBestTour, _) => candidatesInBestTour
  | ([], (_ :: _) as candidates) => candidates
  | ([], []) => remaining
  end.

(** Between trials the best tour is still the initial one or a valid
    tour. *)
Definition trialInv {Tour : Type} (valid : Tour -> Prop) (distance_max : Z)
    (st : TrialState Tour) : Prop :=
  valid (currentBestTour st) \/ currentBestLength st = distance_max.

(** A computation that does not end in an access outside a walk made by
    [containsEdge]. *)
Definition walkSafe {A : Type} (r : result A) : Prop :=
  r <> Fail (UndefinedBehaviour WalkAccess).

(** [std::make_tuple(a1, d1) <= std::make_tuple(a2, d2)] *)
Definition tupleLe (a1 d1 a2 d2 : Z) : Prop :=
  (a1 < a2)%Z \/ (a1 = a2 /\ (d1 <= d2)%Z).

(** The alpha values the strategy [ty] ranks by. *)
Definition alphaTable {Tour} (oracle : AlphaOracle)
    (problem : TsplibProblem Tour) (ty : Candidates.Type_)
  : vertex_t -> vertex_t -> Z :=
  match ty with
  | Candidates.OPTIMIZED_ALPHA_NEAREST_NEIGHBORS =>
      optimizedAlphaDistances oracle (getDimension problem) (dist problem)
  | _ => alphaDistances oracle (getDimension problem) (dist problem)
  end.

Section AlternationNotions.

Context {Tour : Type} `{TourOps Tour}.
Variable candidateEdges : CandidateEdges.

(** What the search has checked before [b] follows [a] at position
    [j + 1] of a walk that starts in [x0]: after an even position [b] is a
    tour neighbour of [a], after an odd position a candidate of [a] that
    is not one of its tour neighbours. *)
Definition stepOk (currentTour : Tour) (x0 : vertex_t) (j : nat)
    (a b : vertex_t) : Prop :=
  b ≠ x0 /\
  if Nat.odd j
  then b ∈ candidateEdges !!! a /\
       b ≠ predecessor currentTour a /\ b ≠ successor currentTour a
  else b ∈ getNeighbors currentTour a.

Definition alternating (currentTour : Tour) (walk : AlternatingWalk) : Prop :=
  forall j a b,
    walk !! j = Some a -> walk !! (j + 1) = Some b ->
    stepOk currentTour (walk !!! 0) j a b.

(** Beyond [infeasibilityDepth] every out-edge of the walk can be closed
    into a tour: the walk up to the end of an edge that starts at an even
    position above the depth, closed by [x0], passes
    [isTourAfterExchange]. *)
Definition closable (currentTour : Tour) (walk : AlternatingWalk) : Prop :=
  forall j,
    Nat.odd j = false -> infeasibilityDepth < j -> j + 1 < length walk ->
    isTourAfterExchange currentTour (take (j + 2) walk ++ [walk !!! 0]) = true.

(** A walk of an even number of vertices, at least four, closed by its
    first vertex. *)
Definition closedAlternating (currentTour : Tour) (w : AlternatingWalk)
  : Prop :=
  exists walk x0,
    w = walk ++ [x0] /\ walk !! 0 = Some x0 /\
    Nat.even (length walk) = true /\ 4 <= length walk /\
    alternating currentTour walk /\ closable currentTour walk.

(** The part of the loop invariant that speaks of alternation. *)
Record altInv (currentTour : Tour) (st : SearchState) : Prop := {
  alt_walk : alternating currentTour (currentWalk st);
  alt_choices : forall j Xj x y,
    vertexChoices st !! (j + 1) = Some Xj -> x ∈ Xj ->
    currentWalk st !! j = Some y ->
    stepOk currentTour (currentWalk st !!! 0) j y x;
  alt_closable : closable currentTour (currentWalk st);
  alt_choices_closable : forall j Xj x,
    Nat.odd j = false -> infeasibilityDepth < j ->
    vertexChoices st !! (j + 1) = Some Xj -> x ∈ Xj ->
    j < length (currentWalk st) ->
    isTourAfterExchange currentTour
      ((take (j + 1) (currentWalk st) ++ [x]) ++ [currentWalk st !!! 0])
    = true;
  alt_best : (0 < highestGain st)%Z ->
    closedAlternating currentTour (bestAlternatingWalk st)
}.

End AlternationNotions.

(** Between trials [currentBestTour] is the shortest of the tours the
    trials of this call returned, and [currentBestLength] its length;
    before the first trial the length is still [distance_max]. *)
Definition bestOfTrials {Tour : Type} (problem : TsplibProblem Tour)
    (distance_max : Z) (st : TrialState Tour) : Prop :=
  match trials st with
  | [] => currentBestLength st = distance_max
  | _ :: _ =>
      currentBestTour st ∈ trials st /\
      currentBestLength st = tourLength problem (currentBestTour st) /\
      Forall (fun T => (tourLength problem (currentBestTour st)
                        <= tourLength problem T)%Z) (trials st)
  end.

(** An access outside a walk as [at] reports it. *)
Definition checked {A : Type} (r : result A) : result A :=
  match r with
  | Fail (UndefinedBehaviour WalkAccess) => Fail OutOfRangeException
  | _ => r
  end.

(** The outcome of at most [n] passes through the inner loop: the state
    reached, or the way the loop was left before. *)
Fixpoint runSteps {Tour : Type} `{TourOps Tour}
    (tsplibProblem : TsplibProblem Tour) (candidateEdges : CandidateEdges)
    (n : nat) (currentTour best : Tour) (st : SearchState)
  : result StepOutcome :=
  match n with
  | O => Ok (Continue st)
  | S n' =>
      out ← innerStep tsplibProblem candidateEdges currentTour best st;
      match out with
      | Continue st' =>
          runSteps tsplibProblem candidateEdges n' currentTour best st'
      | _ => Ok out
      end
  end.

(** A round over a table of empty rows: nothing was scored, and the walk
    has not passed its second vertex. *)
Definition shallow (st : SearchState) : Prop :=
  highestGain st = 0%Z /\ pos st <= 2 /\
  (pos st = 2 -> vertexChoices st !! 2 = Some []).

(** * Properties *)

(** ** The result monad *)

Lemma bind_Ok {A B : Type} (r : result A) (k : A -> result B) (b : B) :
  r ≫= k = Ok b -> exists a, r = Ok a /\ k a = Ok b.
Proof. destruct r as [a|e]; simpl; [eauto | discriminate]. Qed.

Lemma idxAt_Some {A : Type} site (l : list A) (i : nat) (a : A) :
  l !! i = Some a -> idxAt site l i = Ok a.
Proof. unfold idxAt. by intros ->. Qed.

Lemma idxAt_Ok {A : Type} site (l : list A) (i : nat) (a : A) :
  idxAt site l i = Ok a -> l !! i = Some a.
Proof. unfold idxAt. destruct (l !! i); congruence. Qed.

Lemma idxAt_lt {A : Type} site (l : list A) (i : nat) :
  i < length l -> exists a, l !! i = Some a /\ idxAt site l i = Ok a.
Proof.
  intros Hi. destruct (lookup_lt_is_Some_2 l i Hi) as [a Ha].
  exists a. split; [done | by apply idxAt_Some].
Qed.

(** ** AlternatingWalk *)

Lemma size_wrap_small (z : Z) : (0 <= z < 2 ^ 64)%Z -> size_wrap z = z.
Proof. intros Hz. unfold size_wrap. by apply Z.mod_small. Qed.

Lemma edges_cons2 (a b : vertex_t) (w : AlternatingWalk) :
  Walk.edges (a :: b :: w) = (a, b) :: Walk.edges (b :: w).
Proof. reflexivity. Qed.

Lemma edges_drop (w : AlternatingWalk) (i : nat) (a b : vertex_t) :
  w !! i = Some a -> w !! (i + 1) = Some b ->
  Walk.edges (drop i w) = (a, b) :: Walk.edges (drop (i + 1) w).
Proof.
  intros Ha Hb.
  rewrite (drop_S w a i Ha). replace (S i) with (i + 1) by lia.
  replace (i + 1) with (S i) in Hb |- * by lia.
  rewrite (drop_S w b (S i) Hb). apply edges_cons2.
Qed.

Lemma edges_drop_last (w : AlternatingWalk) (i : nat) :
  length w <= i + 1 -> Walk.edges (drop i w) = [].
Proof.
  intros Hi.
  assert (Hlen : length (drop i w) <= 1) by (rewrite length_drop; lia).
  destruct (drop i w) as [|a [|b r]]; simpl in *; [done | done | lia].
Qed.

(** The loop computes membership among the consecutive pairs that start at
    index [i] or later, and never leaves the walk on its way. *)
Lemma containsEdgeFrom_hasEdge (w : AlternatingWalk) (u v : vertex_t) :
  (Z.of_nat (length w) < 2 ^ 64)%Z ->
  forall fuel i,
    i < length w -> length w - i <= fuel ->
    Walk.containsEdgeFrom fuel w u v i
    = Ok (existsb (Walk.sameEdge u v) (Walk.edges (drop i w))).
Proof.
  intros Hsize. induction fuel as [|fuel IH]; intros i Hi Hfuel; [lia|].
  simpl. rewrite size_wrap_small by lia.
  destruct (Z.ltb_spec (Z.of_nat i) (Z.of_nat (length w) - 1)) as [Hlt|Hge].
  - destruct (idxAt_lt WalkAccess w i ltac:(lia)) as (a & Ha & ->).
    destruct (idxAt_lt WalkAccess w (i + 1) ltac:(lia)) as (b & Hb & Hidx).
    rewrite (edges_drop w i a b Ha Hb). simpl.
    unfold Walk.sameEdge at 1. simpl. rewrite Hidx. simpl.
    rewrite IH by lia.
    destruct (a =? u), (b =? v), (a =? v), (b =? u); simpl; reflexivity.
  - rewrite edges_drop_last by lia. reflexivity.
Qed.

Lemma containsEdge_hasEdge (w : AlternatingWalk) (u v : vertex_t) :
  w <> [] -> (Z.of_nat (length w) < 2 ^ 64)%Z ->
  Walk.containsEdge w u v = Ok (Walk.hasEdge w u v).
Proof.
  intros Hne Hsize. unfold Walk.containsEdge, Walk.hasEdge.
  rewrite (containsEdgeFrom_hasEdge w u v Hsize); [by rewrite drop_0 | |lia].
  destruct w; [done | simpl; lia].
Qed.

Lemma containsEdge_empty (u v : vertex_t) :
  Walk.containsEdge [] u v = Fail (UndefinedBehaviour WalkAccess).
Proof. reflexivity. Qed.

Lemma elem_of_edges (w : AlternatingWalk) (a b : vertex_t) :
  (a, b) ∈ Walk.edges w
  <-> exists i, w !! i = Some a /\ w !! (i + 1) = Some b.
Proof.
  induction w as [|x [|y r] IH].
  - split; [by intros ?%elem_of_nil | by intros (i & ? & _)].
  - split; [by intros ?%elem_of_nil |].
    intros (i & Ha & Hb). destruct i; simpl in *; done.
  - rewrite edges_cons2, elem_of_cons, IH. split.
    + intros [[= -> ->] | (i & Ha & Hb)]; [by exists 0 | by exists (S i)].
    + intros ([|i] & Ha & Hb); simpl in *.
      * left. congruence.
      * right. by exists i.
Qed.

Lemma hasEdge_true (w : AlternatingWalk) (u v : vertex_t) :
  Walk.hasEdge w u v = true <->
  exists i a b, w !! i = Some a /\ w !! (i + 1) = Some b
                /\ ((a = u /\ b = v) \/ (a = v /\ b = u)).
Proof.
  unfold Walk.hasEdge. rewrite existsb_exists. split.
  - intros ([a b] & Hin & Hsame).
    apply list_elem_of_In, elem_of_edges in Hin as (i & Ha & Hb).
    exists i, a, b. repeat split; try done.
    unfold Walk.sameEdge in Hsame. simpl in Hsame.
    apply orb_true_iff in Hsame as [H|H]; apply andb_true_iff in H as [H1 H2];
      apply Nat.eqb_eq in H1, H2; auto.
  - intros (i & a & b & Ha & Hb & Hab). exists (a, b). split.
    + apply list_elem_of_In, elem_of_edges. by exists i.
    + unfold Walk.sameEdge. simpl.
      destruct Hab as [[-> ->]|[-> ->]]; rewrite !Nat.eqb_refl; simpl;
        [done | apply orb_true_r].
Qed.

(** C8: for a walk whose first element is [x0], closing it twice gives the
    closed walk with [x0] pushed once more; neither [close] throws. *)
Theorem close_close_push (w : AlternatingWalk) (x0 : vertex_t) :
  head w = Some x0 ->
  exists c, Walk.close w = Ok c /\ Walk.close c = Ok (c ++ [x0]).
Proof.
  intros Hhd. destruct w as [|x rest]; simplify_eq/=.
  exists ((x0 :: rest) ++ [x0]). split; reflexivity.
Qed.

Lemma close_close_push_witness :
  head [2; 0; 3; 1] = Some 2 /\
  exists c, Walk.close [2; 0; 3; 1] = Ok c /\ Walk.close c = Ok (c ++ [2]).
Proof.
  split; [reflexivity|].
  apply (close_close_push [2; 0; 3; 1] 2). reflexivity.
Defined.

(** ** Loops *)

Lemma forEach_app {A S : Type} (xs ys : list A) (body : A -> S -> result S)
    (s : S) :
  forEach (xs ++ ys) body s = forEach xs body s ≫= forEach ys body.
Proof.
  revert s. induction xs as [|x xs IH]; intros s; simpl; [done|].
  destruct (body x s) as [s'|e]; simpl; [apply IH | done].
Qed.

(** Loop invariants: [I done s] relates the elements already visited to the
    state reached. *)
Lemma forEach_invariant {A S : Type} (I : list A -> S -> Prop) (xs : list A)
    (body : A -> S -> result S) (s0 : S) :
  I [] s0 ->
  (forall done x rest s, xs = done ++ x :: rest -> I done s ->
     exists s', body x s = Ok s' /\ I (done ++ [x]) s') ->
  exists s', forEach xs body s0 = Ok s' /\ I xs s'.
Proof.
  intros Hinit Hstep.
  assert (Hgen : forall rest done s, xs = done ++ rest -> I done s ->
            exists s', forEach rest body s = Ok s' /\ I xs s').
  { induction rest as [|x rest IH]; intros done s Hxs Hs.
    - rewrite app_nil_r in Hxs. subst done. by exists s.
    - destruct (Hstep done x rest s Hxs Hs) as (s' & Hbody & Hs').
      simpl. rewrite Hbody. simpl.
      apply (IH (done ++ [x])); [by rewrite <- app_assoc | done]. }
  by apply (Hgen xs []).
Qed.

(** ** CandidateEdges *)

Section CandidateFacts.

Implicit Types (v w k n : nat) (l : list vertex_t).

Lemma filter_ne_snoc l v :
  NoDup l -> v ∈ l -> filter (fun w => w ≠ v) l ++ [v] ≡ₚ l.
Proof.
  intros Hnd Hin. apply NoDup_Permutation; [|done|].
  - apply NoDup_app. split_and!.
    + by apply NoDup_filter.
    + intros x [Hx _]%list_elem_of_filter ->%list_elem_of_singleton. done.
    + apply NoDup_singleton.
  - intros x. rewrite elem_of_app, list_elem_of_filter, list_elem_of_singleton.
    split; [intros [[_ ?]| ->]; done|].
    intros Hx. destruct (decide (x = v)); auto.
Qed.

Lemma others_length n v :
  v < n -> length (filter (fun w => w ≠ v) (seq 0 n)) = n - 1.
Proof.
  intros Hv.
  assert (Hin : v ∈ seq 0 n). { apply elem_of_seq. lia. }
  assert (Hperm := filter_ne_snoc (seq 0 n) v (NoDup_seq 0 n) Hin).
  apply Permutation_length in Hperm.
  rewrite length_app, length_seq in Hperm.
  change (length [v]) with 1 in Hperm. lia.
Qed.

Lemma insertSorted_perm lt x l : Candidates.insertSorted lt x l ≡ₚ x :: l.
Proof.
  induction l as [|y l IH]; simpl; [done|].
  destruct (lt x y); [done|]. rewrite IH. apply perm_swap.
Qed.

Lemma sortBy_perm lt l : Candidates.sortBy lt l ≡ₚ l.
Proof.
  induction l as [|x l IH]; simpl; [done|].
  unfold Candidates.sortBy in *. simpl.
  rewrite insertSorted_perm. by rewrite IH.
Qed.

Lemma setInsert_seq n :
  foldl (fun s v => Candidates.setInsert v s) [] (seq 0 n) = seq 0 n.
Proof.
  assert (Hgen : forall b a,
    foldl (fun s v => Candidates.setInsert v s) (seq 0 a) (seq a b)
    = seq 0 (a + b)).
  { induction b as [|b IH]; intros a; simpl.
    - by rewrite Nat.add_0_r.
    - unfold Candidates.setInsert at 2.
      rewrite bool_decide_eq_false_2 by (rewrite elem_of_seq; lia).
      replace (seq 0 a ++ [a]) with (seq 0 (S a))
        by (rewrite seq_S; reflexivity).
      rewrite IH. f_equal. lia. }
  apply (Hgen n 0).
Qed.

Lemma rawNearestNeighbors_rows n k cmp :
  exists res,
    Candidates.rawNearestNeighbors n k cmp = Ok res /\
    length res = n /\
    forall v, v < n ->
      exists row, res !! v = Some row /\ rawRow n k (cmp v) v row.
Proof.
  unfold Candidates.rawNearestNeighbors. rewrite setInsert_seq.
  set (body := fun (v : nat) '(allVertices, res) => _).
  destruct (forEach_invariant
    (fun done '(allVertices, res) =>
       allVertices ≡ₚ seq 0 n /\ length res = n /\
       forall v, v < n ->
         if bool_decide (v ∈ done)
         then exists row, res !! v = Some row /\ rawRow n k (cmp v) v row
         else res !! v = Some (replicate k 0))
    (seq 0 n) body (seq 0 n, replicate n (replicate k 0)))
    as ([allV res] & Hrun & _ & Hlen & Hrows).
  - split_and!; [done | by rewrite length_replicate |].
    intros v Hv. rewrite bool_decide_eq_false_2 by apply not_elem_of_nil.
    by apply lookup_replicate_2.
  - intros done x rest [allV res] Hsplit (Hperm & Hlen & Hrows).
    assert (Hx : x < n).
    { assert (Hin : x ∈ seq 0 n) by (rewrite Hsplit; set_solver).
      apply elem_of_seq in Hin. lia. }
    assert (Hfresh : x ∉ done).
    { pose proof (NoDup_seq 0 n) as Hnd. rewrite Hsplit in Hnd.
      apply NoDup_app in Hnd as (_ & Hdis & _). intros Hin.
      apply (Hdis x Hin). set_solver. }
    assert (HndV : NoDup allV) by (rewrite Hperm; apply NoDup_seq).
    assert (HinV : x ∈ allV) by (rewrite Hperm, elem_of_seq; lia).
    unfold body. simpl.
    destruct (idxAt_lt VectorAccess res x ltac:(lia)) as (row & Hrow & ->).
    simpl. eexists. split; [reflexivity|]. split_and!.
    + unfold Candidates.setInsert, Candidates.setErase.
      rewrite bool_decide_eq_false_2
        by (rewrite list_elem_of_filter; naive_solver).
      rewrite filter_ne_snoc; done.
    + by rewrite length_insert.
    + intros v Hv. specialize (Hrows v Hv).
      destruct (decide (v = x)) as [->|Hne].
      * rewrite bool_decide_eq_true_2 by set_solver.
        rewrite bool_decide_eq_false_2 in Hrows by done.
        rewrite list_lookup_insert_eq by lia.
        eexists. split; [reflexivity|].
        exists (Candidates.setErase x allV). split.
        -- unfold Candidates.setErase. by rewrite Hperm.
        -- congruence.
      * rewrite list_lookup_insert_ne by done.
        destruct (bool_decide (v ∈ done)) eqn:Hdone.
        -- rewrite bool_decide_eq_true_2; [done|].
           apply bool_decide_eq_true in Hdone. set_solver.
        -- rewrite bool_decide_eq_false_2; [done|].
           apply bool_decide_eq_false in Hdone. set_solver.
  - exists res. rewrite Hrun. simpl. split_and!; [done | done |].
    intros v Hv. specialize (Hrows v Hv).
    rewrite bool_decide_eq_true_2 in Hrows by (rewrite elem_of_seq; lia).
    done.
Qed.

Lemma allNeighbors_rows {Tour} (problem : TsplibProblem Tour) :
  exists res,
    Candidates.allNeighbors problem = Ok res /\
    length res = getDimension problem /\
    forall v, v < getDimension problem ->
      res !! v
      = Some (filter (fun w => w ≠ v) (seq 0 (getDimension problem))).
Proof.
  unfold Candidates.allNeighbors. set (n := getDimension problem).
  set (body := fun (v : nat) (res : list (list nat)) => _).
  destruct (forEach_invariant
    (fun done res =>
       length res = n /\
       forall v, v < n ->
         res !! v = Some (if bool_decide (v ∈ done)
                          then filter (fun w => w ≠ v) (seq 0 n)
                          else seq 0 n))
    (seq 0 n) body (replicate n (seq 0 n)))
    as (res & Hrun & Hlen & Hrows).
  - split; [by rewrite length_replicate|].
    intros v Hv. rewrite bool_decide_eq_false_2 by apply not_elem_of_nil.
    by apply lookup_replicate_2.
  - intros done x rest res Hsplit (Hlen & Hrows).
    assert (Hx : x < n).
    { assert (Hin : x ∈ seq 0 n) by (rewrite Hsplit; set_solver).
      apply elem_of_seq in Hin. lia. }
    assert (Hfresh : x ∉ done).
    { pose proof (NoDup_seq 0 n) as Hnd. rewrite Hsplit in Hnd.
      apply NoDup_app in Hnd as (_ & Hdis & _). intros Hin.
      apply (Hdis x Hin). set_solver. }
    unfold body. rewrite (idxAt_Some _ _ _ _ (Hrows x Hx)). simpl.
    rewrite bool_decide_eq_false_2 by done.
    eexists. split; [reflexivity|]. split; [by rewrite length_insert|].
    intros v Hv. destruct (decide (v = x)) as [->|Hne].
    + rewrite list_lookup_insert_eq by lia.
      by rewrite bool_decide_eq_true_2 by set_solver.
    + rewrite list_lookup_insert_ne by done. rewrite (Hrows v Hv).
      f_equal. destruct (bool_decide (v ∈ done)) eqn:Hdone.
      * rewrite bool_decide_eq_true_2; [done|].
        apply bool_decide_eq_true in Hdone. set_solver.
      * rewrite bool_decide_eq_false_2; [done|].
        apply bool_decide_eq_false in Hdone. set_solver.
  - exists res. split_and!; [done | done |].
    intros v Hv. rewrite (Hrows v Hv).
    by rewrite bool_decide_eq_true_2 by (rewrite elem_of_seq; lia).
Qed.

Lemma partial_sort_copy_short lt others k :
  k <= length others ->
  Candidates.partial_sort_copy lt others (replicate k 0)
  = take k (Candidates.sortBy lt others).
Proof.
  intros Hk. unfold Candidates.partial_sort_copy.
  rewrite length_replicate, Nat.min_r by done.
  rewrite drop_ge by (rewrite length_replicate; lia).
  apply app_nil_r.
Qed.


(** Rows of the three neighbour-based strategies, for [k < n]. *)
Lemma rawRow_short n k lt v row :
  k < n -> v < n -> rawRow n k lt v row -> (v ∉ row) /\ length row = k.
Proof.
  intros Hk Hv (others & Hperm & ->).
  assert (Hlen : length others = n - 1)
    by (rewrite (Permutation_length Hperm); by apply others_length).
  rewrite partial_sort_copy_short by lia. split.
  - intros Hin. apply (subseteq_take k) in Hin.
    rewrite sortBy_perm, Hperm in Hin.
    apply list_elem_of_filter in Hin as [Hne _]. done.
  - rewrite length_take, (Permutation_length (sortBy_perm lt others)). lia.
Qed.


(** Every strategy other than ALL_NEIGHBORS ends in
    [rawNearestNeighbors]. *)
Lemma create_raw {Tour} oracle (problem : TsplibProblem Tour) ty k :
  ty <> Candidates.ALL_NEIGHBORS ->
  exists cmp,
    Candidates.create oracle problem ty k
    = Candidates.rawNearestNeighbors (getDimension problem) k cmp.
Proof. destruct ty; intros Hty; [done | eexists; reflexivity ..]. Qed.

End CandidateFacts.

(** C7: with [k < N], row [v] of the table never contains [v]; it has
    [k] entries for the neighbour-based strategies and [N - 1] entries for
    ALL_NEIGHBORS. *)
Theorem create_rows {Tour} (oracle : AlphaOracle) (problem : TsplibProblem Tour)
    (ty : Candidates.Type_) (k : nat) (v : vertex_t) :
  k < getDimension problem -> v < getDimension problem ->
  exists table row,
    Candidates.create oracle problem ty k = Ok table /\
    table !! v = Some row /\
    (v ∉ row) /\
    length row = match ty with
                 | Candidates.ALL_NEIGHBORS => getDimension problem - 1
                 | _ => k
                 end.
Proof.
  intros Hk Hv.
  assert (Hcase : ty = Candidates.ALL_NEIGHBORS
                  \/ ty <> Candidates.ALL_NEIGHBORS)
    by (destruct ty; auto).
  destruct Hcase as [->|Hty].
  - destruct (allNeighbors_rows problem) as (table & Hrun & _ & Hrows).
    exists table, (filter (fun w => w ≠ v) (seq 0 (getDimension problem))).
    split_and!; [done | by apply Hrows | | by apply others_length].
    intros [Hne _]%list_elem_of_filter. done.
  - destruct (create_raw oracle problem ty k Hty) as (cmp & ->).
    destruct (rawNearestNeighbors_rows (getDimension problem) k cmp)
      as (table & Hrun & _ & Hrows).
    destruct (Hrows v Hv) as (row & Hrow & Hraw).
    destruct (rawRow_short _ _ _ _ _ Hk Hv Hraw) as [Hnotin Hlen].
    exists table, row. split_and!; try done.
    destruct ty; done.
Qed.

Lemma create_rows_witness :
  exists table row,
    Candidates.create Line4.oracle Line4.problem
      Candidates.NEAREST_NEIGHBORS 2 = Ok table /\
    table !! 3 = Some row /\ (3 ∉ row) /\ length row = 2.
Proof.
  apply (create_rows Line4.oracle Line4.problem
           Candidates.NEAREST_NEIGHBORS 2 3);
    vm_compute; lia.
Defined.




(** ** The loops that fill a choice set *)

Lemma pushAt_Some (vs : list (list vertex_t)) (j : nat) (X : list vertex_t)
    (x : vertex_t) :
  vs !! j = Some X -> pushAt vs j x = Ok (<[j := X ++ [x]]> vs).
Proof. intros Hj. unfold pushAt. by rewrite (idxAt_Some _ _ _ _ Hj). Qed.

(** A loop whose body pushes the elements passing a test appends the
    filtered list. *)
Lemma forEach_push (cond : vertex_t -> bool) (j : nat)
    (body : vertex_t -> list (list vertex_t) -> result (list (list vertex_t)))
    (xs : list vertex_t) :
  (forall x vs, x ∈ xs ->
     body x vs = if cond x then pushAt vs j x else Ok vs) ->
  forall vs X, vs !! j = Some X ->
    forEach xs body vs = Ok (<[j := X ++ List.filter cond xs]> vs).
Proof.
  induction xs as [|a xs IH]; intros Hbody vs X Hj; simpl.
  - by rewrite app_nil_r, list_insert_id.
  - rewrite Hbody by apply list_elem_of_here.
    assert (Hrest : forall x vs, x ∈ xs ->
              body x vs = if cond x then pushAt vs j x else Ok vs)
      by (intros x vs' Hx; apply Hbody; by apply list_elem_of_further).
    destruct (cond a).
    + rewrite (pushAt_Some _ _ _ _ Hj). simpl.
      rewrite (IH Hrest _ (X ++ [a])).
      * by rewrite list_insert_insert_eq, <- app_assoc.
      * apply list_lookup_insert_eq. by eapply lookup_lt_Some.
    + simpl. by apply IH.
Qed.

Section StepFacts.

Context {Tour : Type} `{TourOps Tour}.
Variable tsplibProblem : TsplibProblem Tour.
Variable candidateEdges : CandidateEdges.

Implicit Types (walk : AlternatingWalk) (vs : list (list vertex_t)).

Lemma inEdges_filter currentTour i walk gain xi vs x0 row X :
  walk !! 0 = Some x0 -> (Z.of_nat (length walk) < 2 ^ 64)%Z ->
  candidateEdges !! xi = Some row -> vs !! (i + 1) = Some X ->
  inEdges tsplibProblem candidateEdges currentTour i walk gain xi vs
  = Ok (<[i + 1 :=
            X ++ List.filter
                   (inEdgeOk tsplibProblem currentTour walk gain xi x0) row]>
          vs).
Proof.
  intros Hx0 Hsize Hrow HX. unfold inEdges.
  rewrite (idxAt_Some _ _ _ _ Hrow). simpl.
  apply forEach_push; [|done].
  intros x vs' _. rewrite (idxAt_Some _ _ _ _ Hx0). simpl.
  unfold inEdgeOk.
  destruct (negb (x =? x0) && negb (x =? predecessor currentTour xi)
            && negb (x =? successor currentTour xi)); [|done].
  rewrite containsEdge_hasEdge; [| by intros -> | done]. reflexivity.
Qed.

Lemma outEdges_filter currentTour best i walk gain xi vs x0 X :
  walk !! 0 = Some x0 -> (Z.of_nat (length walk) < 2 ^ 64)%Z ->
  Nat.odd i = false ->
  (infeasibilityDepth < i -> 2 <= length walk) ->
  vs !! (i + 1) = Some X ->
  outEdges currentTour best i walk xi vs
  = Ok (<[i + 1 := X ++ nextChoices tsplibProblem candidateEdges
                         currentTour best i walk gain xi]> vs).
Proof.
  intros Hx0 Hsize Hodd Hdeep HX. unfold outEdges, nextChoices.
  rewrite Hodd. rewrite (list_lookup_total_correct _ _ _ Hx0).
  assert (Hne : walk <> []) by (by intros ->).
  destruct ((i =? 0) && negb (tourDimension best =? 0)).
  { rewrite (idxAt_Some _ _ _ _ Hx0). simpl.
    apply forEach_push; [|done].
    intros x vs' _. rewrite ?(idxAt_Some _ _ _ _ Hx0). simpl.
    unfold firstOutEdgeOk.
    by destruct (negb (x =? x0) && negb (x =? predecessor best x0)
                && negb (x =? successor best x0)). }
  destruct (Nat.leb_spec i infeasibilityDepth) as [Hle|Hgt].
  { apply forEach_push; [|done].
    intros x vs' _. rewrite (idxAt_Some _ _ _ _ Hx0). simpl.
    unfold shallowOutEdgeOk. destruct (negb (x =? x0)); [|done].
    rewrite containsEdge_hasEdge by done. simpl.
    by destruct (Walk.hasEdge walk xi x). }
  destruct (idxAt_lt VectorAccess walk 1 (Hdeep Hgt)) as (x1 & Hx1 & Hidx1).
  rewrite (list_lookup_total_correct _ _ _ Hx1).
  apply forEach_push; [|done].
  intros x vs' _. rewrite (idxAt_Some _ _ _ _ Hx0). simpl.
  unfold deepOutEdgeOk. destruct (negb (x =? x0)); [|done].
  rewrite containsEdge_hasEdge by done. simpl.
  destruct (Walk.hasEdge walk xi x); [done|]. simpl.
  rewrite Hidx1. simpl. destruct (negb (x =? x1)); [|done]. simpl.
  unfold Walk.appendAndClose, at_. rewrite Hx0. simpl.
  by destruct (isTourAfterExchange _ _).
Qed.

Lemma close_Some walk x0 :
  walk !! 0 = Some x0 -> Walk.close walk = Ok (walk ++ [x0]).
Proof. intros Hx0. unfold Walk.close, at_. by rewrite Hx0. Qed.

Lemma back_Some {A : Type} (l : list A) (a : A) :
  last l = Some a -> back l = Ok a /\ l = removelast l ++ [a].
Proof.
  intros Hlast. unfold back. rewrite Hlast. split; [done|].
  apply last_Some in Hlast as [l' ->]. by rewrite removelast_last.
Qed.

Lemma scoreClosure_scored currentTour i walk best gainSoFar :
  walk <> [] ->
  scoreClosure tsplibProblem currentTour i walk best gainSoFar
  = Ok (scored tsplibProblem currentTour i walk best gainSoFar).
Proof.
  intros Hne. destruct walk as [|x0 rest]; [done|].
  unfold scoreClosure, scored.
  destruct (Nat.odd i && (3 <=? i)); [|done].
  rewrite (close_Some _ x0) by done. simpl.
  by destruct (_ && _).
Qed.

Lemma innerStep_extend currentTour best st Xi x :
  length (vertexChoices st) = pos st + 1 ->
  length (currentWalk st) = pos st ->
  (Z.of_nat (pos st) + 1 < 2 ^ 64)%Z ->
  vertexChoices st !! pos st = Some Xi ->
  last Xi = Some x ->
  (Nat.odd (pos st) = true -> x < length candidateEdges) ->
  innerStep tsplibProblem candidateEdges currentTour best st
  = Ok (Continue
          (extended tsplibProblem candidateEdges currentTour best st Xi x)).
Proof.
  intros Hvs Hwalk Hsize HXi Hlast Hrow. unfold innerStep, extended.
  rewrite (idxAt_Some _ _ _ _ HXi). simpl.
  destruct (back_Some Xi x Hlast) as [-> HXi_eq].
  destruct Xi as [|a Xi']; [done|]. simpl.
  set (walk := currentWalk st ++ [x]).
  assert (Hne : walk <> []) by (subst walk; by destruct (currentWalk st)).
  rewrite (scoreClosure_scored _ _ _ _ _ Hne).
  destruct (scored _ _ _ _ _ _) as [bestWalk gain] eqn:Hscore. simpl.
  assert (Hxi : walk !! pos st = Some x).
  { subst walk. rewrite lookup_app_r by lia.
    by replace (pos st - length (currentWalk st)) with 0 by lia. }
  rewrite (idxAt_Some _ _ _ _ Hxi). simpl.
  destruct (lookup_lt_is_Some_2 walk 0) as [x0 Hx0].
  { subst walk. rewrite length_app. simpl. lia. }
  assert (Hlen : (Z.of_nat (length walk) < 2 ^ 64)%Z).
  { subst walk. rewrite length_app. simpl. lia. }
  set (vs := <[pos st := removelast (a :: Xi')]> (vertexChoices st)).
  assert (Hvs_len : length vs = pos st + 1)
    by (subst vs; by rewrite length_insert).
  assert (Hnew : (vs ++ [[]]) !! (pos st + 1) = Some []).
  { rewrite lookup_app_r by lia.
    by replace (pos st + 1 - length vs) with 0 by lia. }
  assert (Hput : forall X : list vertex_t,
            <[pos st + 1 := X]> (vs ++ [[]]) = vs ++ [X]).
  { intros X. rewrite insert_app_r_alt by lia.
    by replace (pos st + 1 - length vs) with 0 by lia. }
  destruct (Nat.odd (pos st)) eqn:Hodd.
  - destruct (lookup_lt_is_Some_2 candidateEdges x (Hrow eq_refl))
      as [row Hrowx].
    rewrite (inEdges_filter _ _ _ _ _ _ _ _ _ Hx0 Hlen Hrowx Hnew).
    simpl. rewrite Hput. unfold nextChoices. rewrite Hodd.
    rewrite (list_lookup_total_correct _ _ _ Hx0).
    by rewrite (list_lookup_total_correct _ _ _ Hrowx).
  - rewrite (outEdges_filter currentTour best _ walk gain x _ x0 []
               Hx0 Hlen Hodd); [| |done].
    + simpl. by rewrite Hput.
    + intros Hdeep. subst walk. rewrite length_app. simpl. lia.
Qed.

Lemma innerStep_empty currentTour best st :
  length (vertexChoices st) = pos st + 1 ->
  length (currentWalk st) = pos st ->
  vertexChoices st !! pos st = Some [] ->
  innerStep tsplibProblem candidateEdges currentTour best st
  = Ok (if (0 <? highestGain st)%Z then Exchange (bestAlternatingWalk st)
        else if pos st =? 0 then Finished
        else Continue (backtracked st)).
Proof.
  intros Hvs Hwalk HXi. unfold innerStep, backtracked.
  rewrite (idxAt_Some _ _ _ _ HXi). simpl.
  destruct (0 <? highestGain st)%Z; [done|].
  destruct (Nat.eqb_spec (pos st) 0) as [|Hpos]; [done|].
  unfold eraseFrom.
  rewrite (leb_correct (Nat.min (pos st - 1) backtrackingDepth + 1)) by lia.
  simpl.
  by rewrite (leb_correct (Nat.min (pos st - 1) backtrackingDepth)) by lia.
Qed.

End StepFacts.

(** ** The measure of the inner loop *)

Section Weight.

Variable K : nat.
Hypothesis K_pos : 1 <= K.

Implicit Types (vs : list (list vertex_t)) (X : list vertex_t).

Lemma pow_pos d : 1 <= K ^ d.
Proof. induction d as [|d IH]; simpl; nia. Qed.

Lemma weight_app d vs1 vs2 :
  weight K d (vs1 ++ vs2) = weight K d vs1 + weight K (d - length vs1) vs2.
Proof.
  revert d. induction vs1 as [|X vs1 IH]; intros d; simpl.
  - by rewrite Nat.sub_0_r.
  - rewrite IH. replace (d - 1 - length vs1) with (d - S (length vs1)) by lia.
    lia.
Qed.

Lemma weight_length d vs : length vs <= weight K d vs.
Proof.
  revert d. induction vs as [|X vs IH]; intros d; simpl; [lia|].
  specialize (IH (d - 1)). pose proof (pow_pos d). nia.
Qed.

(** Popping the top set and pushing a fresh, small one above it. *)
Lemma weight_extend d vs i Xi Xnew :
  length vs = i + 1 -> vs !! i = Some Xi -> Xi <> [] ->
  i + 1 <= d -> length Xnew + 2 <= K ->
  weight K d (<[i := removelast Xi]> vs ++ [Xnew]) < weight K d vs.
Proof.
  intros Hlen HXi Hne Hd Hsmall.
  assert (Hvs : vs = take i vs ++ [Xi]).
  { rewrite <- (take_drop i vs) at 1. f_equal.
    rewrite (drop_S _ _ _ HXi), drop_ge by lia. done. }
  assert (Hi : length (take i vs) = i) by (rewrite length_take; lia).
  revert Hvs Hi. generalize (take i vs). intros pre -> Hi.
  rewrite insert_app_r_alt by lia. rewrite Hi, Nat.sub_diag. simpl.
  rewrite <- app_assoc. simpl.
  rewrite !weight_app, Hi. simpl.
  assert (Hpop : length (removelast Xi) + 1 = length Xi).
  { destruct (exists_last Hne) as (Xi' & a & ->).
    rewrite removelast_last, length_app. simpl. lia. }
  replace (d - i) with (S (d - i - 1)) by lia. simpl.
  pose proof (pow_pos (d - i - 1)) as Hp.
  replace (d - i - 1 - 0) with (d - i - 1) by lia.
  rewrite Hpop. nia.
Qed.

(** Cutting the stack. *)
Lemma weight_take d vs n :
  n < length vs -> weight K d (take n vs) < weight K d vs.
Proof.
  intros Hn. rewrite <- (take_drop n vs) at 2. rewrite weight_app.
  pose proof (weight_length (d - length (take n vs)) (drop n vs)) as Hdrop.
  rewrite length_drop in Hdrop. lia.
Qed.

End Weight.

(** ** Walks without a repeated edge are short *)

Lemma edges_length (w : AlternatingWalk) : length (Walk.edges w) = length w - 1.
Proof.
  induction w as [|a [|b r] IH]; [done | done |].
  rewrite edges_cons2. simpl in *. lia.
Qed.

Lemma edges_snoc (w : AlternatingWalk) (y x : vertex_t) :
  last w = Some y -> Walk.edges (w ++ [x]) = Walk.edges w ++ [(y, x)].
Proof.
  induction w as [|a [|b r] IH]; intros Hlast; [done | by simplify_eq/= |].
  change ((a :: b :: r) ++ [x]) with (a :: b :: (r ++ [x])).
  rewrite !edges_cons2. change (b :: r ++ [x]) with ((b :: r) ++ [x]).
  rewrite IH; [done|]. by rewrite last_cons_cons in Hlast.
Qed.

Lemma edges_take (w : AlternatingWalk) (n : nat) :
  exists rest, Walk.edges w = Walk.edges (take n w) ++ rest.
Proof.
  revert n. induction w as [|a [|b r] IH]; intros n.
  - exists []. by destruct n.
  - exists []. by destruct n as [|[|n]].
  - destruct n as [|[|n]].
    + by eexists.
    + by eexists.
    + destruct (IH (S n)) as [rest Hrest]. exists rest.
      change (take (S (S n)) (a :: b :: r)) with (a :: take (S n) (b :: r)).
      change (take (S n) (b :: r)) with (b :: take n r) in *.
      rewrite !edges_cons2. rewrite Hrest. done.
Qed.

Lemma edges_range (n : nat) (w : AlternatingWalk) :
  Forall (fun v => v < n) w ->
  Forall (fun e => e.1 < n /\ e.2 < n) (Walk.edges w).
Proof.
  induction w as [|a [|b r] IH]; intros Hw; [constructor | constructor |].
  rewrite edges_cons2. inversion Hw as [|?? Ha Hrest]; subst.
  constructor; [|by apply IH].
  inversion Hrest; subst. done.
Qed.

Lemma edgeCode_same (u v : vertex_t) (e : vertex_t * vertex_t) :
  edgeCode e = edgeCode (u, v) -> Walk.sameEdge u v e = true.
Proof.
  destruct e as [a b]. unfold edgeCode, Walk.sameEdge. simpl.
  intros [= Hmin Hmax].
  destruct (Nat.eqb_spec a u), (Nat.eqb_spec b v), (Nat.eqb_spec a v),
    (Nat.eqb_spec b u); simpl; try done; lia.
Qed.

Lemma hasEdge_false_code (w : AlternatingWalk) (u v : vertex_t) :
  Walk.hasEdge w u v = false -> edgeCode (u, v) ∉ map edgeCode (Walk.edges w).
Proof.
  intros Hno Hin. apply list_elem_of_fmap in Hin as (e & Hcode & He).
  assert (Htrue : Walk.hasEdge w u v = true).
  { unfold Walk.hasEdge. apply existsb_exists. exists e. split.
    - by apply list_elem_of_In.
    - by apply edgeCode_same. }
  congruence.
Qed.

Lemma nodup_edges_snoc (w : AlternatingWalk) (y x : vertex_t) :
  NoDup (map edgeCode (Walk.edges w)) -> last w = Some y ->
  Walk.hasEdge w y x = false ->
  NoDup (map edgeCode (Walk.edges (w ++ [x]))).
Proof.
  intros Hnd Hlast Hfresh. rewrite (edges_snoc w y x Hlast), map_app.
  apply NoDup_app. split_and!; [done | | apply NoDup_singleton].
  intros c Hc ->%list_elem_of_singleton.
  by apply (hasEdge_false_code w y x Hfresh).
Qed.

Lemma nodup_edges_take (w : AlternatingWalk) (n : nat) :
  NoDup (map edgeCode (Walk.edges w)) ->
  NoDup (map edgeCode (Walk.edges (take n w))).
Proof.
  destruct (edges_take w n) as [rest ->]. rewrite map_app.
  by intros (Hnd & _ & _)%NoDup_app.
Qed.

Lemma nodup_edges_bound (n : nat) (w : AlternatingWalk) :
  Forall (fun v => v < n) w -> NoDup (map edgeCode (Walk.edges w)) ->
  length w <= n * n + 1.
Proof.
  intros Hrange Hnd.
  assert (Hsub : map edgeCode (Walk.edges w) ⊆+ cprod (seq 0 n) (seq 0 n)).
  { apply NoDup_submseteq; [done|].
    intros c (e & -> & He)%list_elem_of_fmap.
    pose proof (edges_range n w Hrange) as Hall.
    rewrite Forall_forall in Hall. destruct (Hall e He) as [H1 H2].
    apply list_elem_of_cprod. unfold edgeCode. simpl.
    rewrite !elem_of_seq. lia. }
  apply submseteq_length in Hsub.
  rewrite length_map, edges_length, list_cprod_list_prod, length_prod,
    !length_seq in Hsub.
  lia.
Qed.

(** ** The invariant of the inner loop *)

Lemma list_max_elem (l : list nat) (n : nat) : n ∈ l -> n <= list_max l.
Proof.
  intros Hin. pose proof (proj1 (list_max_le l (list_max l)) (le_n _)) as Hall.
  rewrite Forall_forall in Hall. by apply Hall.
Qed.

Lemma filter_bool_length {A : Type} (f : A -> bool) (l : list A) :
  length (List.filter f l) <= length l.
Proof. induction l as [|a l IH]; simpl; [lia|]. destruct (f a); simpl; lia. Qed.

Lemma elem_of_filter_bool {A : Type} (f : A -> bool) (l : list A) (x : A) :
  x ∈ List.filter f l <-> x ∈ l /\ f x = true.
Proof. rewrite !list_elem_of_In. apply filter_In. Qed.

Lemma hasEdge_singleton (a u v : vertex_t) : Walk.hasEdge [a] u v = false.
Proof. reflexivity. Qed.

Section SearchFacts.

Context {Tour : Type} `{TourOps Tour}.
Variable tsplibProblem : TsplibProblem Tour.
Variable candidateEdges : CandidateEdges.
Variable valid : Tour -> Prop.

Hypothesis contract : TourContract tsplibProblem valid.
Hypothesis candidates_wf :
  wfCandidates (getDimension tsplibProblem) candidateEdges.

Local Abbreviation N := (getDimension tsplibProblem).
Local Abbreviation Inv := (searchInv tsplibProblem candidateEdges).
Local Abbreviation mu := (searchMeasure tsplibProblem candidateEdges).
Local Abbreviation next := (nextChoices tsplibProblem candidateEdges).
Local Abbreviation B := (branching tsplibProblem candidateEdges).

Implicit Types (walk : AlternatingWalk) (st : SearchState).

Lemma candidate_row xi :
  xi < N ->
  exists row, candidateEdges !! xi = Some row /\
              Forall (fun x => x < N) row /\
              length row <= list_max (map length candidateEdges).
Proof.
  intros Hxi. destruct candidates_wf as [Hlen Hall].
  destruct (lookup_lt_is_Some_2 candidateEdges xi) as [row Hrow]; [lia|].
  exists row. split_and!; [done | |].
  - rewrite Forall_forall in Hall. apply Hall.
    by eapply list_elem_of_lookup_2.
  - apply list_max_elem. apply list_elem_of_fmap. exists row.
    split; [done | by eapply list_elem_of_lookup_2].
Qed.

Lemma neighbors_size currentTour xi :
  xi < N ->
  length (getNeighbors currentTour xi)
  <= list_max (map (fun v => length (getNeighbors currentTour v)) (seq 0 N)).
Proof.
  intros Hxi. apply list_max_elem. apply list_elem_of_fmap. exists xi.
  split; [done|]. apply elem_of_seq. lia.
Qed.

(** The source list [X_(i+1)] is filtered from. *)
Lemma nextChoices_source currentTour best i walk gain xi x :
  x ∈ next currentTour best i walk gain xi ->
  (Nat.odd i = true /\ x ∈ candidateEdges !!! xi) \/
  (Nat.odd i = false /\ x ∈ getNeighbors currentTour xi).
Proof.
  unfold nextChoices. destruct (Nat.odd i).
  - intros [Hin _]%elem_of_filter_bool. by left.
  - intros Hin. right. split; [done|].
    destruct (_ && _); [|destruct (_ <=? _)];
      by apply elem_of_filter_bool in Hin as [Hin _].
Qed.

Lemma nextChoices_range currentTour best i walk gain xi x :
  valid currentTour -> xi < N ->
  x ∈ next currentTour best i walk gain xi -> x < N.
Proof.
  intros Hvalid Hxi [[_ Hin]|[_ Hin]]%nextChoices_source.
  - destruct (candidate_row xi Hxi) as (row & Hrow & Hall & _).
    rewrite (list_lookup_total_correct _ _ _ Hrow) in Hin.
    rewrite Forall_forall in Hall. by apply Hall.
  - by eapply (neighbors_in_range _ _ contract).
Qed.

Lemma nextChoices_size currentTour best i walk gain xi :
  xi < N -> length (next currentTour best i walk gain xi) <= B currentTour.
Proof.
  intros Hxi. unfold nextChoices, branching.
  pose proof (neighbors_size currentTour xi Hxi) as Hnb.
  destruct (candidate_row xi Hxi) as (row & Hrow & _ & Hlen).
  rewrite (list_lookup_total_correct _ _ _ Hrow).
  destruct (Nat.odd i); [|destruct (_ && _); [|destruct (_ <=? _)]];
    match goal with
    | |- length (List.filter ?f ?l) <= _ =>
        pose proof (filter_bool_length f l)
    end; lia.
Qed.

Lemma nextChoices_fresh currentTour best i walk gain xi x :
  length walk = i + 1 ->
  x ∈ next currentTour best i walk gain xi ->
  Walk.hasEdge walk xi x = false.
Proof.
  intros Hlen. unfold nextChoices.
  destruct (Nat.odd i).
  { intros [_ Hok]%elem_of_filter_bool. unfold inEdgeOk in Hok.
    apply andb_true_iff in Hok as [_ Hok].
    apply andb_true_iff in Hok as [Hfresh _].
    by apply negb_true_iff in Hfresh. }
  destruct ((i =? 0) && negb (tourDimension best =? 0)) eqn:Hfirst.
  { intros _. apply andb_true_iff in Hfirst as [Hzero _].
    apply Nat.eqb_eq in Hzero. subst i.
    destruct walk as [|a [|b r]]; simpl in Hlen; try lia.
    apply hasEdge_singleton. }
  destruct (_ <=? _).
  - intros [_ Hok]%elem_of_filter_bool. unfold shallowOutEdgeOk in Hok.
    apply andb_true_iff in Hok as [_ Hfresh].
    by apply negb_true_iff in Hfresh.
  - intros [_ Hok]%elem_of_filter_bool. unfold deepOutEdgeOk in Hok.
    apply andb_true_iff in Hok as [_ Hok].
    apply andb_true_iff in Hok as [Hfresh _].
    by apply negb_true_iff in Hfresh.
Qed.

Lemma scored_inv currentTour st walk :
  Inv currentTour st ->
  let score := scored tsplibProblem currentTour (pos st) walk
                 (bestAlternatingWalk st) (highestGain st) in
  (0 <= score.2)%Z /\
  ((0 < score.2)%Z ->
     isTourAfterExchange currentTour score.1 = true /\
     exchangeGain tsplibProblem score.1 = score.2).
Proof.
  intros Hinv. unfold scored.
  destruct (Nat.odd (pos st) && (3 <=? pos st)); simpl.
  - destruct (Z.ltb_spec (highestGain st)
                (exchangeGain tsplibProblem (walk ++ [walk !!! 0])))
      as [Hlt|Hge]; simpl.
    + destruct (isTourAfterExchange currentTour (walk ++ [walk !!! 0]))
        eqn:Htour; simpl.
      * pose proof (inv_gain_nonneg _ _ _ _ Hinv). split; [lia | done].
      * split; [apply Hinv | apply Hinv].
    + split; [apply Hinv | apply Hinv].
  - split; [apply Hinv | apply Hinv].
Qed.

Lemma inv_depth currentTour st : Inv currentTour st -> pos st <= N * N + 1.
Proof.
  intros Hinv. rewrite <- (inv_walk_length _ _ _ _ Hinv).
  apply nodup_edges_bound; apply Hinv.
Qed.

(** Extending the walk keeps the invariant and lowers the measure. *)
Lemma extended_inv currentTour best st Xi x :
  valid currentTour -> Inv currentTour st ->
  vertexChoices st !! pos st = Some Xi -> last Xi = Some x ->
  let st' := extended tsplibProblem candidateEdges currentTour best st Xi x in
  Inv currentTour st' /\ mu currentTour st' < mu currentTour st.
Proof.
  intros Hvalid Hinv HXi Hlast.
  pose proof Hinv as [Hvs Hwalk Hrange Hnd Hchoices Hsizes Hgain Hbest].
  assert (HXi_eq : Xi = removelast Xi ++ [x]).
  { apply last_Some in Hlast as [l' ->]. by rewrite removelast_last. }
  assert (Hx_in : x ∈ Xi) by (rewrite HXi_eq; set_solver).
  destruct (Hchoices (pos st) Xi x HXi Hx_in) as [Hx Hfresh].
  rewrite (take_ge (currentWalk st) (pos st)) in Hfresh by lia.
  assert (Hrange' : Forall (fun v => v < N) (currentWalk st ++ [x])).
  { apply Forall_app. split; [done | by constructor]. }
  assert (Hnd' : NoDup (map edgeCode (Walk.edges (currentWalk st ++ [x])))).
  { destruct (last (currentWalk st)) as [y|] eqn:Hy.
    - apply (nodup_edges_snoc (currentWalk st) y x); auto.
    - apply last_None in Hy. rewrite Hy. simpl. apply NoDup_nil_2. }
  assert (Hdepth : pos st + 1 <= N * N + 1).
  { pose proof (nodup_edges_bound N (currentWalk st ++ [x]) Hrange' Hnd')
      as Hb.
    rewrite length_app in Hb. simpl in Hb. lia. }
  set (score := scored tsplibProblem currentTour (pos st)
                  (currentWalk st ++ [x])
                  (bestAlternatingWalk st) (highestGain st)).
  set (Xnew := next currentTour best (pos st) (currentWalk st ++ [x])
                 score.2 x).
  assert (Hlen_ins : length (<[pos st := removelast Xi]> (vertexChoices st))
                     = pos st + 1)
    by (by rewrite length_insert).
  pose proof (scored_inv currentTour st (currentWalk st ++ [x]) Hinv)
    as [Hs1 Hs2].
  split.
  - unfold extended. fold score Xnew. constructor; simpl.
    + rewrite length_app, Hlen_ins. simpl. lia.
    + rewrite length_app. simpl. lia.
    + done.
    + done.
    + intros j Xj x' HXj Hx'.
      destruct (decide (j < pos st + 1)) as [Hj|Hj].
      * rewrite lookup_app_l in HXj by lia.
        rewrite take_app_le by lia.
        destruct (decide (j = (pos st))) as [->|Hne].
        -- rewrite list_lookup_insert_eq in HXj by lia. simplify_eq.
           apply (Hchoices (pos st) Xi x' HXi). rewrite HXi_eq. set_solver.
        -- rewrite list_lookup_insert_ne in HXj by done.
           by apply (Hchoices j Xj x').
      * rewrite lookup_app_r in HXj by lia. rewrite Hlen_ins in HXj.
        destruct (j - (pos st + 1)) as [|k] eqn:Hk; [|done]. simplify_eq/=.
        assert (j = pos st + 1) as -> by lia.
        rewrite take_ge by (rewrite length_app; simpl; lia).
        split; [by eapply nextChoices_range|].
        intros y Hy. rewrite last_snoc in Hy. simplify_eq.
        eapply nextChoices_fresh; [|done]. rewrite length_app. simpl. lia.
    + intros j Xj HXj.
      destruct (decide (j < pos st + 1)) as [Hj|Hj].
      * rewrite lookup_app_l in HXj by lia.
        destruct (decide (j = (pos st))) as [->|Hne].
        -- rewrite list_lookup_insert_eq in HXj by lia. simplify_eq.
           pose proof (Hsizes (pos st) Xi HXi) as Hsz. rewrite HXi_eq in Hsz.
           rewrite length_app in Hsz. lia.
        -- rewrite list_lookup_insert_ne in HXj by done.
           by apply (Hsizes j Xj).
      * rewrite lookup_app_r in HXj by lia. rewrite Hlen_ins in HXj.
        destruct (j - (pos st + 1)) as [|k] eqn:Hk; [|done]. simplify_eq/=.
        by apply nextChoices_size.
    + done.
    + done.
  - unfold searchMeasure, extended. fold score Xnew. simpl.
    apply weight_extend; try done; try lia.
    + intros ->. done.
    + pose proof (nextChoices_size currentTour best (pos st)
                    (currentWalk st ++ [x]) score.2 x Hx) as Hsz.
      fold Xnew in Hsz. lia.
Qed.

(** Backtracking keeps the invariant and lowers the measure. *)
Lemma backtracked_inv currentTour st :
  Inv currentTour st -> pos st <> 0 ->
  Inv currentTour (backtracked st)
  /\ mu currentTour (backtracked st) < mu currentTour st.
Proof.
  intros [Hvs Hwalk Hrange Hnd Hchoices Hsizes Hgain Hbest] Hpos.
  set (i' := Nat.min (pos st - 1) backtrackingDepth).
  assert (Hi' : i' < pos st) by (subst i'; lia).
  split.
  - unfold backtracked. fold i'. constructor; simpl.
    + rewrite length_take. lia.
    + rewrite length_take. lia.
    + by apply Forall_take.
    + by apply nodup_edges_take.
    + intros j Xj x HXj Hx.
      apply lookup_take_Some in HXj as [HXj Hj].
      rewrite take_take, Nat.min_l by lia.
      by apply (Hchoices j Xj x).
    + intros j Xj HXj. apply lookup_take_Some in HXj as [HXj Hj].
      by apply (Hsizes j Xj).
    + done.
    + done.
  - unfold searchMeasure, backtracked. fold i'. simpl.
    apply weight_take; lia.
Qed.

Hypothesis size_ok : (Z.of_nat (N * N + 2) < 2 ^ 64)%Z.

Lemma innerStep_progress currentTour best st :
  valid currentTour -> Inv currentTour st ->
  exists out,
    innerStep tsplibProblem candidateEdges currentTour best st = Ok out /\
    stepPost tsplibProblem candidateEdges currentTour st out.
Proof.
  intros Hvalid Hinv.
  pose proof (inv_choices_length _ _ _ _ Hinv) as Hvs.
  pose proof (inv_walk_length _ _ _ _ Hinv) as Hwalk.
  pose proof (inv_depth _ _ Hinv) as Hdepth.
  destruct (lookup_lt_is_Some_2 (vertexChoices st) (pos st)) as [Xi HXi];
    [lia|].
  destruct (last Xi) as [x|] eqn:Hlast.
  - exists (Continue (extended tsplibProblem candidateEdges currentTour best
                        st Xi x)).
    split; [|by apply extended_inv].
    apply innerStep_extend; try done; [lia|].
    intros _. destruct candidates_wf as [-> _].
    apply (inv_choices _ _ _ _ Hinv (pos st) Xi x HXi).
    apply last_Some in Hlast as [l' ->]. set_solver.
  - apply last_None in Hlast. subst Xi.
    rewrite (innerStep_empty _ _ _ _ _ Hvs Hwalk HXi).
    eexists. split; [reflexivity|].
    destruct (Z.ltb_spec 0 (highestGain st)) as [Hpos|Hzero].
    + simpl. destruct (inv_best _ _ _ _ Hinv Hpos) as [Htour Hgain].
      split; [done | lia].
    + destruct (Nat.eqb_spec (pos st) 0) as [|Hne]; [done|].
      by apply backtracked_inv.
Qed.

(** The inner loop ends, with the same outcome for every budget above
    the measure of its start state. *)
Lemma innerLoop_terminates currentTour best :
  valid currentTour ->
  forall m st, Inv currentTour st -> mu currentTour st <= m ->
  exists out,
    (forall fuel, mu currentTour st < fuel ->
       innerLoop tsplibProblem candidateEdges fuel currentTour best st = Ok out)
    /\ match out with
       | Some w => isTourAfterExchange currentTour w = true /\
                   (0 < exchangeGain tsplibProblem w)%Z
       | None => True
       end.
Proof.
  intros Hvalid. induction m as [|m IH]; intros st Hinv Hmu;
    destruct (innerStep_progress currentTour best st Hvalid Hinv)
      as (out & Hstep & Hpost);
    destruct out as [st'|w|]; simpl in Hpost.
  - lia.
  - exists (Some w). split; [|done].
    intros [|fuel] Hfuel; [lia|]. simpl. by rewrite Hstep.
  - exists None. split; [|done].
    intros [|fuel] Hfuel; [lia|]. simpl. by rewrite Hstep.
  - destruct Hpost as [Hinv' Hless].
    destruct (IH st' Hinv' ltac:(lia)) as (out & Hrun & Hout).
    exists out. split; [|done].
    intros [|fuel] Hfuel; [lia|]. simpl. rewrite Hstep. simpl.
    apply Hrun. lia.
  - exists (Some w). split; [|done].
    intros [|fuel] Hfuel; [lia|]. simpl. by rewrite Hstep.
  - exists None. split; [|done].
    intros [|fuel] Hfuel; [lia|]. simpl. by rewrite Hstep.
Qed.

(** Whatever the budget, a round that ends in an exchange commits a walk
    that passed the feasibility test and has positive gain. *)
Lemma innerLoop_exchange currentTour best :
  valid currentTour ->
  forall fuel st w, Inv currentTour st ->
    innerLoop tsplibProblem candidateEdges fuel currentTour best st
    = Ok (Some w) ->
    isTourAfterExchange currentTour w = true /\
    (0 < exchangeGain tsplibProblem w)%Z.
Proof.
  intros Hvalid. induction fuel as [|fuel IH]; intros st w Hinv Hrun;
    [done|].
  simpl in Hrun.
  destruct (innerStep_progress currentTour best st Hvalid Hinv)
    as (out & Hstep & Hpost).
  rewrite Hstep in Hrun. simpl in Hrun.
  destruct out as [st'|w'|]; simpl in Hpost.
  - destruct Hpost as [Hinv' _]. by apply (IH st').
  - by simplify_eq.
  - done.
Qed.

Lemma initialState_inv currentTour :
  Inv currentTour (initialState tsplibProblem).
Proof.
  constructor; simpl; try done.
  - apply NoDup_nil_2.
  - intros [|j] Xj x HXj Hx; [|done]. simplify_eq/=.
    apply elem_of_seq in Hx. split; [lia | done].
  - intros [|j] Xj HXj; [|done]. simplify_eq/=.
    rewrite length_seq. unfold branching. lia.
Qed.

(** The outer loop ends: every round that commits an exchange shortens
    the tour, and lengths are not negative. *)
Lemma improveRounds_terminates best :
  forall n currentTour,
    valid currentTour ->
    (tourLength tsplibProblem currentTour <= Z.of_nat n)%Z ->
    exists T f0,
      valid T /\
      (tourLength tsplibProblem T <= tourLength tsplibProblem currentTour)%Z /\
      forall rounds steps, f0 <= rounds -> f0 <= steps ->
        improveRounds tsplibProblem candidateEdges rounds steps best currentTour
        = Ok T.
Proof.
  induction n as [|n IH]; intros currentTour Hvalid Hlen;
    destruct (innerLoop_terminates currentTour best Hvalid _ _
                (initialState_inv currentTour) (le_n _))
      as (out & Hrun & Hout);
    set (m := mu currentTour (initialState tsplibProblem)) in *;
    destruct out as [w|].
  - destruct Hout as [Htour Hgain].
    pose proof (exchange_length _ _ contract currentTour w Hvalid Htour).
    pose proof (length_nonneg _ _ contract _
                  (exchange_valid _ _ contract currentTour w Hvalid Htour)).
    lia.
  - exists currentTour, (S m). split_and!; [done | lia |].
    intros [|rounds] steps Hrounds Hsteps; [lia|]. simpl.
    by rewrite Hrun by lia.
  - destruct Hout as [Htour Hgain].
    pose proof (exchange_length _ _ contract currentTour w Hvalid Htour)
      as Hshorter.
    pose proof (exchange_valid _ _ contract currentTour w Hvalid Htour)
      as Hvalid'.
    destruct (IH (exchange currentTour w) Hvalid' ltac:(lia))
      as (T & f0 & HT & HlenT & Hrest).
    exists T, (S (Nat.max m f0)). split_and!; [done | lia |].
    intros [|rounds] steps Hrounds Hsteps; [lia|]. simpl.
    rewrite Hrun by lia. simpl. apply Hrest; lia.
  - exists currentTour, (S m). split_and!; [done | lia |].
    intros [|rounds] steps Hrounds Hsteps; [lia|]. simpl.
    by rewrite Hrun by lia.
Qed.

(** Whatever the budget, a tour that the outer loop returns is valid and
    no longer than the tour it started from. *)
Lemma improveRounds_no_longer best :
  forall rounds steps currentTour T,
    valid currentTour ->
    improveRounds tsplibProblem candidateEdges rounds steps best currentTour
    = Ok T ->
    valid T /\
    (tourLength tsplibProblem T <= tourLength tsplibProblem currentTour)%Z.
Proof.
  induction rounds as [|rounds IH]; intros steps currentTour T Hvalid Hrun;
    [done|].
  simpl in Hrun.
  destruct (innerLoop _ _ steps currentTour best _) as [[w|]|e] eqn:Hround;
    simpl in Hrun; [| |done].
  - destruct (innerLoop_exchange currentTour best Hvalid steps _ w
                (initialState_inv currentTour) Hround) as [Htour Hgain].
    pose proof (exchange_length _ _ contract currentTour w Hvalid Htour)
      as Hshorter.
    pose proof (exchange_valid _ _ contract currentTour w Hvalid Htour)
      as Hvalid'.
    destruct (IH steps _ T Hvalid' Hrun) as [HT Hlen]. split; [done | lia].
  - simplify_eq. split; [done | lia].
Qed.

(** Whatever the budget, the loops of [improveTour] never leave a vector:
    a run ends with a tour or with the budget used up. *)
Lemma innerLoop_safe currentTour best :
  valid currentTour ->
  forall fuel st, Inv currentTour st ->
    (exists out,
       innerLoop tsplibProblem candidateEdges fuel currentTour best st = Ok out)
    \/ innerLoop tsplibProblem candidateEdges fuel currentTour best st
       = Fail OutOfFuel.
Proof.
  intros Hvalid. induction fuel as [|fuel IH]; intros st Hinv; [by right|].
  simpl.
  destruct (innerStep_progress currentTour best st Hvalid Hinv)
    as (out & -> & Hpost).
  simpl. destruct out as [st'|w|]; simpl in Hpost.
  - destruct Hpost as [Hinv' _]. by apply IH.
  - left. by eexists.
  - left. by eexists.
Qed.

Lemma improveRounds_safe best :
  forall rounds steps currentTour,
    valid currentTour ->
    (exists T,
       improveRounds tsplibProblem candidateEdges rounds steps best currentTour
       = Ok T)
    \/ improveRounds tsplibProblem candidateEdges rounds steps best currentTour
       = Fail OutOfFuel.
Proof.
  induction rounds as [|rounds IH]; intros steps currentTour Hvalid;
    [by right|].
  simpl.
  destruct (innerLoop_safe currentTour best Hvalid steps _
              (initialState_inv currentTour)) as [[out Hround]|Hround];
    rewrite Hround; simpl; [|by right].
  destruct out as [w|]; [|left; by eexists].
  destruct (innerLoop_exchange currentTour best Hvalid steps _ w
              (initialState_inv currentTour) Hround) as [Htour _].
  apply IH. by apply (exchange_valid _ _ contract).
Qed.

Lemma improveTour_terminates best startTour :
  valid startTour ->
  exists T f0,
    valid T /\
    (tourLength tsplibProblem T <= tourLength tsplibProblem startTour)%Z /\
    forall fuel, f0 <= fuel ->
      improveTour tsplibProblem candidateEdges fuel best startTour = Ok T.
Proof.
  intros Hvalid.
  destruct (improveRounds_terminates best
              (Z.to_nat (tourLength tsplibProblem startTour)) startTour Hvalid)
    as (T & f0 & HT & Hlen & Hrun).
  { pose proof (length_nonneg _ _ contract _ Hvalid). lia. }
  exists T, f0. split_and!; [done | done |].
  intros fuel Hfuel. by apply Hrun.
Qed.

End SearchFacts.

(** ** The random tour generator *)

Section GeneratorFacts.

Context {Tour : Type} `{TourOps Tour}.
Variable tsplibProblem : TsplibProblem Tour.
Variable candidateEdges : CandidateEdges.
Variable device : nat -> nat.

Local Abbreviation N := (getDimension tsplibProblem).
Local Abbreviation choose := (chooseRandomElement device).

Implicit Types (remaining order row log : list nat).

Lemma chooseRandomElement_nonempty (elements : list vertex_t) log :
  elements <> [] ->
  exists v, choose elements log = Ok (v, log ++ [length elements])
            /\ v ∈ elements.
Proof.
  intros Hne. unfold chooseRandomElement.
  assert (Hlen : 1 <= length elements)
    by (destruct elements; simpl; [done|lia]).
  set (hi := size_wrap (Z.of_nat (length elements) - 1)).
  assert (Hhi : (0 <= hi <= Z.of_nat (length elements) - 1)%Z).
  { subst hi. unfold size_wrap. split.
    - apply Z.mod_pos_bound. lia.
    - apply Z.mod_le; lia. }
  pose proof (Z.mod_pos_bound (Z.of_nat (device (length log))) (hi + 1)
                ltac:(lia)) as Hindex.
  destruct (lookup_lt_is_Some_2 elements
              (Z.to_nat (Z.of_nat (device (length log)) mod (hi + 1))))
    as [v Hv]; [lia|].
  exists v. rewrite (idxAt_Some _ _ _ _ Hv). simpl.
  split; [done | by eapply list_elem_of_lookup_2].
Qed.

Lemma chooseRandomElement_empty log :
  choose [] log = Fail (UndefinedBehaviour VectorAccess).
Proof. reflexivity. Qed.

Lemma categories_subset best currentVertex remaining row :
  Forall (fun x => x ∈ remaining)
    (categories best currentVertex remaining row).1 /\
  Forall (fun x => x ∈ remaining)
    (categories best currentVertex remaining row).2.
Proof.
  unfold categories.
  set (f := fun '(candidatesInBestTour, candidates) otherVertex => _).
  assert (Hgen : forall acc : list vertex_t * list vertex_t,
    Forall (fun x => x ∈ remaining) acc.1 /\
    Forall (fun x => x ∈ remaining) acc.2 ->
    Forall (fun x => x ∈ remaining) (foldl f acc row).1 /\
    Forall (fun x => x ∈ remaining) (foldl f acc row).2).
  { induction row as [|x row IH]; intros [a b] [Ha Hb]; simpl; [done|].
    apply IH. simpl in *.
    destruct (bool_decide_reflect (x ∈ remaining)) as [Hx|Hx]; simpl; [|done].
    split.
    - destruct (_ && _); [|done]. apply Forall_app. split; [done|].
      by constructor.
    - apply Forall_app. split; [done | by constructor]. }
  apply Hgen. simpl. split; constructor.
Qed.

Lemma chosenFrom_spec best currentVertex remaining row :
  remaining <> [] ->
  chosenFrom best currentVertex remaining row <> [] /\
  Forall (fun x => x ∈ remaining)
    (chosenFrom best currentVertex remaining row).
Proof.
  intros Hne. unfold chosenFrom.
  destruct (categories_subset best currentVertex remaining row) as [Ha Hb].
  destruct (categories _ _ _ _) as [[|a la] [|b lb]]; simpl in *.
  - split; [done|]. apply Forall_forall. auto.
  - done.
  - done.
  - done.
Qed.

Hypothesis candidates_rows : length candidateEdges = N.

(** The loop consumes [remaining] one vertex per pass; each pass draws
    from a non-empty vector. *)
Lemma generateLoop_runs best :
  forall m remaining currentVertex order log,
    length remaining <= m -> currentVertex < N ->
    NoDup remaining -> Forall (fun x => x < N) remaining ->
    exists order' log',
      (forall fuel, length remaining <= fuel ->
         generateLoop candidateEdges device fuel best currentVertex
           remaining order log = Ok (order', log ++ log')) /\
      order' ≡ₚ order ++ remaining /\
      Forall (fun size => 1 <= size) log' /\
      length log' = length remaining.
Proof.
  induction m as [|m IH];
    intros remaining currentVertex order log Hm Hcur Hnd Hrange.
  { destruct remaining; [|simpl in Hm; lia].
    exists order, []. rewrite !app_nil_r. split_and!; try done.
    by intros [|fuel] _. }
  destruct remaining as [|r0 rest] eqn:Hrem.
  { exists order, []. rewrite !app_nil_r. split_and!; try done.
    by intros [|fuel] _. }
  rewrite <- Hrem in *.
  assert (Hne : remaining <> []) by (by rewrite Hrem).
  destruct (lookup_lt_is_Some_2 candidateEdges currentVertex) as [row Hrow];
    [lia|].
  destruct (chosenFrom_spec best currentVertex remaining row Hne)
    as [Hsrc_ne Hsrc_sub].
  destruct (chooseRandomElement_nonempty _ log Hsrc_ne)
    as (next & Hchoose & Hin).
  rewrite Forall_forall in Hsrc_sub. pose proof (Hsrc_sub next Hin) as Hnext.
  set (remaining' := filter (fun w => w ≠ next) remaining).
  assert (Hshrink : length remaining' < length remaining).
  { subst remaining'. by apply (length_filter_lt _ _ next); [|intros Hc]. }
  destruct (IH remaining' next (order ++ [next])
              (log ++ [length (chosenFrom best currentVertex remaining row)]))
    as (order' & log' & Hrun & Hperm & Hlog & Hlen).
  { lia. }
  { rewrite Forall_forall in Hrange. by apply Hrange. }
  { by apply NoDup_filter. }
  { rewrite Forall_forall in Hrange |- *.
    intros x [_ Hx]%list_elem_of_filter. by apply Hrange. }
  exists order',
    (length (chosenFrom best currentVertex remaining row) :: log').
  split_and!.
  - intros fuel Hfuel. rewrite Hrem. destruct fuel as [|fuel].
    { rewrite Hrem in Hfuel. simpl in Hfuel. lia. }
    simpl. rewrite <- Hrem. rewrite (idxAt_Some _ _ _ _ Hrow). simpl.
    unfold chosenFrom in Hchoose, Hrun |- *.
    destruct (categories best currentVertex remaining row)
      as [[|a la] [|b lb]]; rewrite Hchoose; simpl;
      rewrite Hrun by (fold remaining'; lia);
      by rewrite <- app_assoc.
  - rewrite Hperm, <- app_assoc. apply Permutation_app_head.
    subst remaining'. rewrite Permutation_app_comm.
    by apply filter_ne_snoc.
  - constructor; [|done].
    destruct (chosenFrom best currentVertex remaining row); simpl; [done|lia].
  - simpl. rewrite Hlen.
    assert (Hall : length remaining' + 1 = length remaining); [|lia].
    pose proof (filter_ne_snoc remaining next Hnd Hnext) as Hp.
    apply Permutation_length in Hp. rewrite length_app in Hp. done.
Qed.

Hypothesis dimension_pos : 1 <= N.

(** [generateRandomTour] returns an order of all vertices, and each of its
    [N] calls of [chooseRandomElement] receives a non-empty vector. *)
Lemma generateRandomTour_runs best log :
  exists order log',
    (forall fuel, N <= fuel ->
       generateRandomTour tsplibProblem candidateEdges device fuel best log
       = Ok (mkTour order, log ++ log')) /\
    order ≡ₚ seq 0 N /\
    Forall (fun size => 1 <= size) log' /\
    length log' = N.
Proof.
  unfold generateRandomTour.
  assert (Hne : seq 0 N <> []) by (destruct N; [lia | done]).
  destruct (chooseRandomElement_nonempty _ log Hne) as (v & Hchoose & Hin).
  rewrite length_seq in Hchoose.
  pose proof Hin as Hv. apply elem_of_seq in Hv.
  set (remaining := take v (seq 0 N) ++ drop (S v) (seq 0 N)).
  assert (Hsplit : seq 0 N = take v (seq 0 N) ++ v :: drop (S v) (seq 0 N)).
  { rewrite <- (take_drop v (seq 0 N)) at 1. f_equal.
    apply drop_S. rewrite lookup_seq. split; [done | lia]. }
  assert (Hperm : v :: remaining ≡ₚ seq 0 N).
  { subst remaining. rewrite Permutation_middle. by rewrite <- Hsplit. }
  assert (Hnd : NoDup (v :: remaining)) by (rewrite Hperm; apply NoDup_seq).
  assert (Hrange : Forall (fun x => x < N) remaining).
  { apply Forall_forall. intros x Hx.
    assert (Hx' : x ∈ seq 0 N) by (rewrite <- Hperm; set_solver).
    apply elem_of_seq in Hx'. lia. }
  assert (Hlen : length remaining = N - 1).
  { apply Permutation_length in Hperm. rewrite length_seq in Hperm.
    simpl in Hperm. lia. }
  destruct (generateLoop_runs best (N - 1) remaining v [v] (log ++ [N]))
    as (order & log' & Hrun & Hord & Hlog & Hcount);
    [lia | lia | by apply NoDup_cons in Hnd as [_ ?] | done |].
  exists order, (N :: log'). split_and!.
  - intros fuel Hfuel. rewrite Hchoose. simpl.
    unfold eraseAt. rewrite length_seq.
    rewrite (proj2 (Nat.ltb_lt v N)) by lia. simpl.
    fold remaining. rewrite Hrun by lia. simpl.
    by rewrite <- app_assoc.
  - by rewrite Hord.
  - constructor; [lia | done].
  - simpl. lia.
Qed.

End GeneratorFacts.

(** ** The list-based tour meets the contract *)

Module ListTourFacts.

Section Sums.

Variable d : vertex_t -> vertex_t -> Z.
Hypothesis d_sym : forall u v, d u v = d v u.
Hypothesis d_nonneg : forall u v, (0 <= d u v)%Z.

Lemma sumDist_app es1 es2 :
  ListTour.sumDist d (es1 ++ es2)
  = (ListTour.sumDist d es1 + ListTour.sumDist d es2)%Z.
Proof. induction es1 as [|e es1 IH]; simpl; [done|]. rewrite IH. lia. Qed.

Lemma sumDist_nonneg es : (0 <= ListTour.sumDist d es)%Z.
Proof.
  induction es as [|e es IH]; simpl; [done|].
  pose proof (d_nonneg e.1 e.2). lia.
Qed.

Lemma sameEdge_dist u v e :
  Walk.sameEdge u v e = true -> d e.1 e.2 = d u v.
Proof.
  unfold Walk.sameEdge. intros [Hsame|Hsame]%orb_true_iff;
    apply andb_true_iff in Hsame as [H1 H2];
    apply Nat.eqb_eq in H1, H2; rewrite H1, H2; [done | apply d_sym].
Qed.

Lemma removeEdge_sum e es rest :
  ListTour.removeEdge e es = Some rest ->
  ListTour.sumDist d es = (d e.1 e.2 + ListTour.sumDist d rest)%Z.
Proof.
  revert rest. induction es as [|e' es IH]; intros rest Hrem; [done|].
  simpl in Hrem. destruct (Walk.sameEdge e.1 e.2 e') eqn:Hsame.
  - simplify_eq. simpl. by rewrite (sameEdge_dist _ _ _ Hsame).
  - destruct (ListTour.removeEdge e es) as [rest'|]; [|done]. simplify_eq/=.
    rewrite (IH rest' eq_refl). lia.
Qed.

Lemma removeAll_sum gone es rest :
  ListTour.removeAll gone es = Some rest ->
  ListTour.sumDist d es = (ListTour.sumDist d gone + ListTour.sumDist d rest)%Z.
Proof.
  revert es. induction gone as [|e gone IH]; intros es Hrem.
  - simpl in *. simplify_eq. lia.
  - simpl in Hrem.
    destruct (ListTour.removeEdge e es) as [es'|] eqn:Hone; [|done].
    simpl in Hrem. rewrite (removeEdge_sum _ _ _ Hone), (IH _ Hrem).
    simpl. lia.
Qed.

Lemma exchangeResult_length n T W T' :
  ListTour.exchangeResult T W = Some T' ->
  tourLength (ListTour.problem n d) T'
  = (tourLength (ListTour.problem n d) T
     - exchangeGain (ListTour.problem n d) W)%Z.
Proof.
  unfold ListTour.exchangeResult. simpl.
  destruct (ListTour.alternate (Walk.edges W)) as [removed added].
  destruct (ListTour.removeAll removed (ListTour.cycleEdges T)) as [rest|]
    eqn:Hrest; [|done].
  simpl.
  destruct (ListTour.validOrder _ _); [|done]. simpl.
  set (T1 := ListTour.follow (length T) (rest ++ added) (hd 0 T) (hd 0 T)).
  destruct (bool_decide_reflect
              (ListTour.removeAll (ListTour.cycleEdges T1) (rest ++ added)
               = Some [])) as [Hback|]; [|done].
  intros [= <-].
  apply removeAll_sum in Hrest, Hback.
  rewrite sumDist_app in Hback. simpl in Hback. lia.
Qed.

End Sums.

Lemma exchangeResult_valid T W T' :
  ListTour.exchangeResult T W = Some T' -> ListTour.valid (length T) T'.
Proof.
  unfold ListTour.exchangeResult, ListTour.valid.
  destruct (ListTour.alternate (Walk.edges W)) as [removed added].
  destruct (ListTour.removeAll removed (ListTour.cycleEdges T)) as [rest|];
    [|done].
  simpl.
  destruct (ListTour.validOrder _ _) eqn:Hvalid; [|done]. simpl.
  destruct (bool_decide _); [|done]. by intros [= <-].
Qed.

Lemma valid_spec n T :
  ListTour.valid n T <-> length T = n /\ Forall (fun v => v < n) T /\ NoDup T.
Proof.
  unfold ListTour.valid, ListTour.validOrder. apply bool_decide_eq_true.
Qed.

Lemma valid_perm n order : order ≡ₚ seq 0 n -> ListTour.valid n order.
Proof.
  intros Hperm. apply valid_spec. split_and!.
  - by rewrite (Permutation_length Hperm), length_seq.
  - rewrite Hperm. apply Forall_forall. intros x Hx%elem_of_seq. lia.
  - rewrite Hperm. apply NoDup_seq.
Qed.

Lemma valid_order n T : ListTour.valid n T -> T ≡ₚ seq 0 n.
Proof.
  intros (Hlen & Hall & Hnd)%valid_spec.
  apply submseteq_length_Permutation; [|by rewrite length_seq, Hlen].
  apply NoDup_submseteq; [done|].
  intros x Hx. rewrite Forall_forall in Hall. apply elem_of_seq.
  specialize (Hall x Hx). lia.
Qed.

Lemma nth_range n T k v :
  Forall (fun u => u < n) T -> v < n -> nth k T v < n.
Proof.
  intros Hall Hv. revert k.
  induction Hall as [|a T Ha _ IH]; intros [|k]; simpl; auto.
Qed.

Lemma neighbors_range n T v u :
  ListTour.valid n T -> v < n -> u ∈ ListTour.getNeighbors T v -> u < n.
Proof.
  intros (_ & Hall & _)%valid_spec Hv Hu.
  unfold ListTour.getNeighbors, ListTour.predecessor, ListTour.successor in Hu.
  destruct (ListTour.indexOf v T);
    repeat (apply elem_of_cons in Hu as [->|Hu]);
    try (by apply nth_range); try done; by apply elem_of_nil in Hu.
Qed.

(** The contract of section 3 for symmetric, non-negative distances. *)
Lemma listTour_contract n d :
  (forall u v, d u v = d v u) -> (forall u v, (0 <= d u v)%Z) ->
  TourContract (ListTour.problem n d) (ListTour.valid n).
Proof.
  intros Hsym Hnonneg. constructor.
  - intros T v u. apply neighbors_range.
  - intros T W HT Htour.
    change (exchange T W) with (ListTour.exchange T W).
    change (isTourAfterExchange T W) with (ListTour.isTourAfterExchange T W)
      in Htour.
    unfold ListTour.isTourAfterExchange in Htour.
    apply bool_decide_eq_true in Htour as [T' HT'].
    unfold ListTour.exchange. rewrite HT'. simpl.
    apply valid_spec in HT as (Hlen & _). rewrite <- Hlen.
    by eapply exchangeResult_valid.
  - intros T W HT Htour.
    change (exchange T W) with (ListTour.exchange T W).
    change (isTourAfterExchange T W) with (ListTour.isTourAfterExchange T W)
      in Htour.
    unfold ListTour.isTourAfterExchange in Htour.
    apply bool_decide_eq_true in Htour as [T' HT'].
    unfold ListTour.exchange. rewrite HT'.
    by apply exchangeResult_length.
  - intros T _. apply sumDist_nonneg. done.
  - intros order. apply valid_perm.
Qed.

End ListTourFacts.

Module Line4Facts.

Import Line4.

Lemma d_sym u v : d u v = d v u.
Proof. unfold d. lia. Qed.

Lemma d_nonneg u v : (0 <= d u v)%Z.
Proof. unfold d. lia. Qed.

Lemma line4_contract : TourContract problem (ListTour.valid 4).
Proof.
  apply ListTourFacts.listTour_contract; [apply d_sym | apply d_nonneg].
Qed.

Lemma candidates_wf : wfCandidates 4 allCandidates.
Proof. split; [done|]. repeat constructor. Qed.

Lemma crossed_valid : ListTour.valid 4 crossed.
Proof. reflexivity. Qed.

Lemma size_ok : (Z.of_nat (4 * 4 + 2) < 2 ^ 64)%Z.
Proof. reflexivity. Qed.

(** No tour of the four cities is shorter than 6. *)
Lemma optimum T : ListTour.valid 4 T -> (6 <= tourLength problem T)%Z.
Proof.
  intros Hvalid.
  assert (Hperm : T ≡ₚ seq 0 4) by (by apply ListTourFacts.valid_order).
  assert (Hin : T ∈ permutations (seq 0 4))
    by (by apply permutations_Permutation).
  assert (Hall6 : Forall (fun T' => (6 <= tourLength problem T')%Z)
                    (permutations (seq 0 4))).
  { vm_compute. repeat constructor; discriminate. }
  rewrite Forall_forall in Hall6. by apply Hall6.
Qed.

End Line4Facts.

(** ** improveTour: termination and the length of its result *)

(** C1: every exchange a round commits has positive gain and shortens the
    tour by that gain; [improveTour] returns a tour, and the tour it
    returns is no longer than the start tour. *)
Theorem improveTour_never_longer {Tour : Type} `{TourOps Tour}
    (tsplibProblem : TsplibProblem Tour) (candidateEdges : CandidateEdges)
    (valid : Tour -> Prop) (best startTour : Tour) :
  TourContract tsplibProblem valid ->
  wfCandidates (getDimension tsplibProblem) candidateEdges ->
  (Z.of_nat (getDimension tsplibProblem * getDimension tsplibProblem + 2)
   < 2 ^ 64)%Z ->
  valid startTour ->
  (forall currentTour fuel w,
     valid currentTour ->
     innerLoop tsplibProblem candidateEdges fuel currentTour best
       (initialState tsplibProblem) = Ok (Some w) ->
     (0 < exchangeGain tsplibProblem w)%Z /\
     tourLength tsplibProblem (exchange currentTour w)
     = (tourLength tsplibProblem currentTour - exchangeGain tsplibProblem w)%Z)
  /\
  (exists T f0,
     forall fuel, f0 <= fuel ->
       improveTour tsplibProblem candidateEdges fuel best startTour = Ok T)
  /\
  (forall fuel T,
     improveTour tsplibProblem candidateEdges fuel best startTour = Ok T ->
     (tourLength tsplibProblem T <= tourLength tsplibProblem startTour)%Z).
Proof.
  intros Hcontract Hwf Hsize Hstart. split_and!.
  - intros currentTour fuel w Hvalid Hrun.
    destruct (innerLoop_exchange tsplibProblem candidateEdges valid Hcontract
                Hwf Hsize currentTour best Hvalid fuel _ w
                (initialState_inv tsplibProblem candidateEdges Hsize
                   currentTour) Hrun)
      as [Htour Hgain].
    split; [done|]. by apply (exchange_length _ _ Hcontract).
  - destruct (improveTour_terminates tsplibProblem candidateEdges valid
                Hcontract Hwf Hsize best startTour Hstart)
      as (T & f0 & _ & _ & Hrun).
    by exists T, f0.
  - intros fuel T Hrun.
    by destruct (improveRounds_no_longer tsplibProblem candidateEdges valid
                   Hcontract Hwf Hsize best fuel fuel startTour T Hstart Hrun).
Qed.

Lemma improveTour_never_longer_witness :
  (forall currentTour fuel w,
     ListTour.valid 4 currentTour ->
     innerLoop Line4.problem Line4.allCandidates fuel currentTour []
       (initialState Line4.problem) = Ok (Some w) ->
     (0 < exchangeGain Line4.problem w)%Z /\
     tourLength Line4.problem (exchange currentTour w)
     = (tourLength Line4.problem currentTour - exchangeGain Line4.problem w)%Z)
  /\
  (exists T f0,
     forall fuel, f0 <= fuel ->
       improveTour Line4.problem Line4.allCandidates fuel [] Line4.crossed
       = Ok T)
  /\
  (forall fuel T,
     improveTour Line4.problem Line4.allCandidates fuel [] Line4.crossed
     = Ok T ->
     (tourLength Line4.problem T <= tourLength Line4.problem Line4.crossed)%Z).
Proof.
  apply (improveTour_never_longer Line4.problem Line4.allCandidates
           (ListTour.valid 4) [] Line4.crossed).
  - apply Line4Facts.line4_contract.
  - apply Line4Facts.candidates_wf.
  - reflexivity.
  - reflexivity.
Defined.

(** The same run evaluated: the crossed tour of length 8 becomes a
    tour of length 6. *)
Example improveTour_crossed :
  improveTour Line4.problem Line4.allCandidates 100 [] Line4.crossed
  = Ok [0; 2; 3; 1]
  /\ tourLength Line4.problem Line4.crossed = 8%Z
  /\ tourLength Line4.problem [0; 2; 3; 1] = 6%Z.
Proof. vm_compute. done. Qed.

(** C2: [improveTour] terminates.  Every round ends (each pass of the
    inner loop lowers [searchMeasure]; a pass that finds [X_i] empty without
    a gain moves to a lower position), and the rounds end because each
    committed exchange shortens the tour. *)
Theorem improveTour_halts {Tour : Type} `{TourOps Tour}
    (tsplibProblem : TsplibProblem Tour) (candidateEdges : CandidateEdges)
    (valid : Tour -> Prop) (best startTour : Tour) :
  TourContract tsplibProblem valid ->
  wfCandidates (getDimension tsplibProblem) candidateEdges ->
  (Z.of_nat (getDimension tsplibProblem * getDimension tsplibProblem + 2)
   < 2 ^ 64)%Z ->
  valid startTour ->
  (forall currentTour, valid currentTour ->
     exists out, forall fuel,
       searchMeasure tsplibProblem candidateEdges currentTour
         (initialState tsplibProblem) < fuel ->
       innerLoop tsplibProblem candidateEdges fuel currentTour best
         (initialState tsplibProblem) = Ok out)
  /\
  (forall currentTour st,
     searchInv tsplibProblem candidateEdges currentTour st ->
     vertexChoices st !! pos st = Some [] ->
     (highestGain st <= 0)%Z -> pos st <> 0 ->
     exists st',
       innerStep tsplibProblem candidateEdges currentTour best st
       = Ok (Continue st') /\
       pos st' < pos st /\
       searchInv tsplibProblem candidateEdges currentTour st')
  /\
  exists T f0,
    forall fuel, f0 <= fuel ->
      improveTour tsplibProblem candidateEdges fuel best startTour = Ok T.
Proof.
  intros Hcontract Hwf Hsize Hstart. split_and!.
  - intros currentTour Hvalid.
    destruct (innerLoop_terminates tsplibProblem candidateEdges valid Hcontract
                Hwf Hsize currentTour best Hvalid _ _
                (initialState_inv tsplibProblem candidateEdges Hsize
                   currentTour)
                (le_n _)) as (out & Hrun & _).
    by exists out.
  - intros currentTour st Hinv Hempty Hgain Hpos.
    exists (backtracked st). split_and!.
    + rewrite (innerStep_empty tsplibProblem candidateEdges currentTour best st
                 (inv_choices_length _ _ _ _ Hinv)
                 (inv_walk_length _ _ _ _ Hinv) Hempty).
      rewrite (proj2 (Z.ltb_ge _ _)) by done.
      by rewrite (proj2 (Nat.eqb_neq _ _)).
    + unfold backtracked. simpl. lia.
    + by apply (backtracked_inv tsplibProblem candidateEdges).
  - destruct (improveTour_terminates tsplibProblem candidateEdges valid
                Hcontract Hwf Hsize best startTour Hstart)
      as (T & f0 & _ & _ & Hrun).
    by exists T, f0.
Qed.

Lemma improveTour_halts_witness :
  (forall currentTour, ListTour.valid 4 currentTour ->
     exists out, forall fuel,
       searchMeasure Line4.problem Line4.allCandidates currentTour
         (initialState Line4.problem) < fuel ->
       innerLoop Line4.problem Line4.allCandidates fuel currentTour
         [0; 1; 2; 3] (initialState Line4.problem) = Ok out)
  /\
  (forall currentTour st,
     searchInv Line4.problem Line4.allCandidates currentTour st ->
     vertexChoices st !! pos st = Some [] ->
     (highestGain st <= 0)%Z -> pos st <> 0 ->
     exists st',
       innerStep Line4.problem Line4.allCandidates currentTour [0; 1; 2; 3] st
       = Ok (Continue st') /\
       pos st' < pos st /\
       searchInv Line4.problem Line4.allCandidates currentTour st')
  /\
  exists T f0,
    forall fuel, f0 <= fuel ->
      improveTour Line4.problem Line4.allCandidates fuel [0; 1; 2; 3]
        Line4.crossed = Ok T.
Proof.
  apply (improveTour_halts Line4.problem Line4.allCandidates
           (ListTour.valid 4) [0; 1; 2; 3] Line4.crossed).
  - apply Line4Facts.line4_contract.
  - apply Line4Facts.candidates_wf.
  - reflexivity.
  - reflexivity.
Defined.

(** ** The choice set built at an odd position *)

(** C6: at an odd position [i], after [xi] entered the walk, a vertex is in
    [X_(i+1)] exactly when it is a candidate of [xi], differs from [x0],
    is not joined to [xi] by a tour edge or by an edge of the walk, and
    leaves a gain above [highestGain].  The code tests the tour edge
    through the predecessor and the successor of [xi]. *)
Theorem odd_position_choices {Tour : Type} `{TourOps Tour}
    (tsplibProblem : TsplibProblem Tour) (candidateEdges : CandidateEdges)
    (currentTour best : Tour) (st : SearchState)
    (Xi row : list vertex_t) (xi x0 : vertex_t) :
  length (vertexChoices st) = pos st + 1 ->
  length (currentWalk st) = pos st ->
  (Z.of_nat (pos st) + 1 < 2 ^ 64)%Z ->
  Nat.odd (pos st) = true ->
  vertexChoices st !! pos st = Some Xi ->
  last Xi = Some xi ->
  candidateEdges !! xi = Some row ->
  currentWalk st !! 0 = Some x0 ->
  (forall x, tourContainsEdge currentTour xi x = true
             <-> x = predecessor currentTour xi
                 \/ x = successor currentTour xi) ->
  exists st' Xnext,
    innerStep tsplibProblem candidateEdges currentTour best st
    = Ok (Continue st') /\
    pos st' = pos st + 1 /\
    currentWalk st' = currentWalk st ++ [xi] /\
    vertexChoices st' !! (pos st + 1) = Some Xnext /\
    forall x,
      x ∈ Xnext <->
      x ∈ row /\ x ≠ x0 /\
      tourContainsEdge currentTour xi x = false /\
      Walk.hasEdge (currentWalk st') xi x = false /\
      (highestGain st'
       < exchangeGain tsplibProblem (currentWalk st')
         - dist tsplibProblem xi x)%Z.
Proof.
  intros Hvs Hwalk Hsize Hodd HXi Hlast Hrow Hx0 Hedge.
  eexists _, _. split.
  { apply (innerStep_extend _ _ _ _ _ Xi xi); try done.
    intros _. by eapply lookup_lt_Some. }
  unfold extended. simpl. split_and!; [done | done | |].
  { rewrite lookup_app_r by (rewrite length_insert; lia).
    rewrite length_insert.
    by replace (pos st + 1 - length (vertexChoices st)) with 0 by lia. }
  intros x. unfold nextChoices. rewrite Hodd.
  rewrite (list_lookup_total_correct _ _ _ Hrow).
  rewrite (list_lookup_total_correct (currentWalk st ++ [xi]) 0 x0)
    by (by apply lookup_app_l_Some).
  rewrite elem_of_filter_bool. unfold inEdgeOk.
  rewrite !andb_true_iff, !negb_true_iff, !Nat.eqb_neq, Z.ltb_lt.
  assert (Hnot : tourContainsEdge currentTour xi x = false
                 <-> x ≠ predecessor currentTour xi
                     /\ x ≠ successor currentTour xi).
  { rewrite <- not_true_iff_false, Hedge. tauto. }
  rewrite Hnot. tauto.
Qed.

Lemma odd_position_choices_witness :
  exists st' Xnext,
    innerStep Line4.problem Line4.allCandidates Line4.crossed []
      {| vertexChoices := [[0; 1; 2]; [1; 0]]; currentWalk := [3];
         bestAlternatingWalk := []; highestGain := 0; pos := 1 |}
    = Ok (Continue st') /\
    pos st' = 2 /\
    currentWalk st' = [3; 0] /\
    vertexChoices st' !! 2 = Some Xnext /\
    forall x,
      x ∈ Xnext <->
      x ∈ [1; 2; 3] /\ x ≠ 3 /\
      tourContainsEdge Line4.crossed 0 x = false /\
      Walk.hasEdge (currentWalk st') 0 x = false /\
      (highestGain st'
       < exchangeGain Line4.problem (currentWalk st')
         - dist Line4.problem 0 x)%Z.
Proof.
  apply (odd_position_choices Line4.problem Line4.allCandidates Line4.crossed []
           {| vertexChoices := [[0; 1; 2]; [1; 0]]; currentWalk := [3];
              bestAlternatingWalk := []; highestGain := 0; pos := 1 |}
           [1; 0] [1; 2; 3] 0 3); try reflexivity.
  intros x.
  do 4 (destruct x as [|x];
        [vm_compute; intuition (discriminate || lia)|]).
  vm_compute. intuition (discriminate || lia).
Defined.

(** ** Safety of [AlternatingWalk::containsEdge] *)

Lemma walkSafe_Ok {A : Type} (a : A) : walkSafe (Ok a).
Proof. done. Qed.

Lemma walkSafe_bind {A B : Type} (r : result A) (k : A -> result B) :
  walkSafe r -> (forall a, walkSafe (k a)) -> walkSafe (r ≫= k).
Proof.
  intros Hr Hk. destruct r as [a|e]; simpl; [apply Hk|].
  unfold walkSafe in *. congruence.
Qed.

Lemma walkSafe_idx {A : Type} (l : list A) (i : nat) : walkSafe (idx l i).
Proof. unfold walkSafe, idxAt. by destruct (l !! i). Qed.

Lemma walkSafe_at {A : Type} (l : list A) (i : nat) : walkSafe (at_ l i).
Proof. unfold walkSafe, at_. by destruct (l !! i). Qed.

Lemma walkSafe_back {A : Type} (l : list A) : walkSafe (back l).
Proof. unfold walkSafe, back. by destruct (last l). Qed.

Lemma walkSafe_eraseFrom {A : Type} (l : list A) (n : nat) :
  walkSafe (eraseFrom l n).
Proof. unfold walkSafe, eraseFrom. by destruct (n <=? length l). Qed.

Lemma walkSafe_forEach {A S : Type} (xs : list A) (body : A -> S -> result S)
    (s : S) :
  (forall x s', walkSafe (body x s')) -> walkSafe (forEach xs body s).
Proof.
  intros Hbody. revert s. induction xs as [|x xs IH]; intros s; simpl.
  - done.
  - apply walkSafe_bind; [apply Hbody | apply IH].
Qed.

Lemma walkSafe_containsEdge (w : AlternatingWalk) (u v : vertex_t) :
  w <> [] -> (Z.of_nat (length w) < 2 ^ 64)%Z ->
  walkSafe (Walk.containsEdge w u v).
Proof. intros Hne Hsize. by rewrite containsEdge_hasEdge. Qed.

Lemma walkSafe_pushAt vs j x : walkSafe (pushAt vs j x).
Proof. unfold pushAt. apply walkSafe_bind; [apply walkSafe_idx | done]. Qed.

Lemma walkSafe_close w : walkSafe (Walk.close w).
Proof. unfold Walk.close. apply walkSafe_bind; [apply walkSafe_at | done]. Qed.

Lemma walkSafe_appendAndClose w v : walkSafe (Walk.appendAndClose w v).
Proof.
  unfold Walk.appendAndClose. apply walkSafe_bind; [apply walkSafe_at | done].
Qed.

Ltac walk_safe :=
  repeat first
    [ apply walkSafe_Ok
    | apply walkSafe_idx
    | apply walkSafe_at
    | apply walkSafe_back
    | apply walkSafe_eraseFrom
    | apply walkSafe_pushAt
    | apply walkSafe_close
    | apply walkSafe_appendAndClose
    | apply walkSafe_containsEdge; [assumption | assumption]
    | apply walkSafe_bind; [|intros ?]
    | apply walkSafe_forEach; intros ? ?
    | match goal with
      | |- walkSafe (if ?b then _ else _) => destruct b
      | |- walkSafe (match ?x with _ => _ end) => destruct x
      end ].

Section StepSafety.

Context {Tour : Type} `{TourOps Tour}.
Variable tsplibProblem : TsplibProblem Tour.
Variable candidateEdges : CandidateEdges.

Lemma walkSafe_innerStep currentTour best st :
  (Z.of_nat (length (currentWalk st)) + 1 < 2 ^ 64)%Z ->
  walkSafe (innerStep tsplibProblem candidateEdges currentTour best st).
Proof.
  intros Hsize. unfold innerStep.
  apply walkSafe_bind; [apply walkSafe_idx|]. intros Xi.
  destruct Xi as [|a Xi']; [walk_safe|].
  apply walkSafe_bind; [apply walkSafe_back|]. intros x.
  assert (Hne : currentWalk st ++ [x] <> []) by (by destruct (currentWalk st)).
  assert (Hlen : (Z.of_nat (length (currentWalk st ++ [x])) < 2 ^ 64)%Z).
  { rewrite length_app. simpl. lia. }
  unfold scoreClosure, inEdges, outEdges. walk_safe.
Qed.

End StepSafety.

(** C9: on a non-empty walk [containsEdge] stays inside the walk and answers
    whether two neighbouring elements are [u] and [v] in either order; the
    walk that a pass of the inner loop of [improveTour] hands to it has just
    received an element, so no such pass ends in an access outside a walk. *)
Theorem containsEdge_safe_on_nonempty {Tour : Type} `{TourOps Tour}
    (tsplibProblem : TsplibProblem Tour) (candidateEdges : CandidateEdges)
    (currentTour best : Tour) (st : SearchState)
    (w : AlternatingWalk) (u v : vertex_t) :
  w <> [] ->
  (Z.of_nat (length w) < 2 ^ 64)%Z ->
  (Z.of_nat (length (currentWalk st)) + 1 < 2 ^ 64)%Z ->
  (exists b,
     Walk.containsEdge w u v = Ok b /\
     (b = true <->
      exists i a c, w !! i = Some a /\ w !! (i + 1) = Some c
                    /\ ((a = u /\ c = v) \/ (a = v /\ c = u))))
  /\ innerStep tsplibProblem candidateEdges currentTour best st
     <> Fail (UndefinedBehaviour WalkAccess).
Proof.
  intros Hne Hsize Hwalk. split.
  - exists (Walk.hasEdge w u v). split.
    + by apply containsEdge_hasEdge.
    + apply hasEdge_true.
  - by apply walkSafe_innerStep.
Qed.

Lemma containsEdge_safe_on_nonempty_witness :
  (exists b,
     Walk.containsEdge [3; 0; 2] 2 0 = Ok b /\
     (b = true <->
      exists i a c, [3; 0; 2] !! i = Some a /\ [3; 0; 2] !! (i + 1) = Some c
                    /\ ((a = 2 /\ c = 0) \/ (a = 0 /\ c = 2))))
  /\ innerStep Line4.problem Line4.allCandidates Line4.crossed []
       (initialState Line4.problem)
     <> Fail (UndefinedBehaviour WalkAccess).
Proof.
  apply (containsEdge_safe_on_nonempty Line4.problem Line4.allCandidates
           Line4.crossed [] (initialState Line4.problem) [3; 0; 2] 2 0);
    [discriminate | reflexivity | reflexivity].
Defined.

(** The case the precondition excludes: on the empty walk the bound
    [size() - 1] wraps around and the first read is outside the walk. *)
Example containsEdge_on_empty_walk :
  size_wrap (Z.of_nat (length (@nil vertex_t)) - 1) = (2 ^ 64 - 1)%Z /\
  Walk.containsEdge [] 0 1 = Fail (UndefinedBehaviour WalkAccess).
Proof. split; reflexivity. Qed.

(** ** Calls of [chooseRandomElement] *)



(** The same run evaluated, and the first call on a problem without
    vertices. *)
Example generateRandomTour_line4 :
  generateRandomTour Line4.problem Line4.allCandidates (fun n => 2 * n) 4 [] []
  = Ok ([0; 3; 1; 2], [4; 3; 2; 1]).
Proof. reflexivity. Qed.

Example generateRandomTour_no_vertices :
  generateRandomTour (ListTour.problem 0 Line4.d) [] (fun n => 2 * n) 4 [] []
  = Fail (UndefinedBehaviour VectorAccess).
Proof. reflexivity. Qed.

(** ** The trial loop *)

Lemma withinAcceptableError_zero (len optimumTourLength : Z) :
  withinAcceptableError len optimumTourLength 0
  = (len <? optimumTourLength)%Z.
Proof.
  unfold withinAcceptableError.
  destruct (Z.ltb_spec len optimumTourLength) as [Hlt|Hge].
  - apply negb_true_iff, not_true_iff_false. intros Hle%Qle_bool_iff.
    unfold Qle in Hle. simpl in Hle. lia.
  - apply negb_false_iff, Qle_bool_iff. unfold Qle. simpl. lia.
Qed.

Section TrialFacts.

Context {Tour : Type} `{TourOps Tour}.
Variable tsplibProblem : TsplibProblem Tour.
Variable candidateEdges : CandidateEdges.
Variable device : nat -> nat.
Variable distance_max : Z.
Variable valid : Tour -> Prop.

Hypothesis contract : TourContract tsplibProblem valid.
Hypothesis candidates_wf :
  wfCandidates (getDimension tsplibProblem) candidateEdges.
Hypothesis size_ok :
  (Z.of_nat (getDimension tsplibProblem * getDimension tsplibProblem + 2)
   < 2 ^ 64)%Z.
Hypothesis dimension_pos : 1 <= getDimension tsplibProblem.

Variable numberOfTrials : nat.
Variable optimumTourLength : Z.

(** No valid tour is shorter than [optimumTourLength], and the length
    of a valid tour fits [distance_t]. *)
Hypothesis optimum_is_lower_bound :
  forall T, valid T -> (optimumTourLength <= tourLength tsplibProblem T)%Z.
Hypothesis lengths_fit :
  forall T, valid T -> (tourLength tsplibProblem T < distance_max)%Z.

Local Abbreviation loop :=
  (fun fuel => trialLoop tsplibProblem candidateEdges device fuel
                 numberOfTrials optimumTourLength 0).

Lemma trialLoop_runs_all :
  forall k st,
    numberOfTrials - trialCount st = k -> trialInv valid distance_max st ->
    exists st' f0,
      (forall fuel, f0 <= fuel -> loop fuel st = Ok st') /\
      length (trials st') = length (trials st) + k.
Proof.
  induction k as [|k IH]; intros st Hk Hinv.
  { eexists _, 0. split.
    - intros fuel _. destruct fuel; simpl;
        rewrite (proj2 (Nat.ltb_ge _ _)) by lia; reflexivity.
    - simpl. lia. }
  destruct candidates_wf as [Hrows _].
  destruct (generateRandomTour_runs tsplibProblem candidateEdges device
              Hrows dimension_pos (currentBestTour st) (randomLog st))
    as (order & log' & Hgen & Hperm & _ & _).
  pose proof (mkTour_valid _ _ contract order Hperm) as Hstart.
  destruct (improveTour_terminates tsplibProblem candidateEdges valid
              contract candidates_wf size_ok (currentBestTour st)
              (mkTour order) Hstart) as (T & f1 & HT & _ & Himprove).
  set (improves := (tourLength tsplibProblem T <? currentBestLength st)%Z).
  set (bestTour := if improves then T else currentBestTour st).
  set (st1 := {| currentBestTour := bestTour;
                 currentBestLength :=
                   if improves then tourLength tsplibProblem bestTour
                   else currentBestLength st;
                 trialCount := trialCount st + 1;
                 randomLog := randomLog st ++ log';
                 trials := trials st ++ [T] |}).
  assert (Hbest : valid bestTour).
  { subst bestTour improves.
    destruct (Z.ltb_spec (tourLength tsplibProblem T) (currentBestLength st))
      as [|Hge]; [done|].
    destruct Hinv as [|Hmax]; [done|].
    pose proof (lengths_fit T HT). lia. }
  destruct (IH st1) as (st' & f2 & Hrest & Hcount).
  { simpl. lia. }
  { by left. }
  exists st', (S (Nat.max (getDimension tsplibProblem) (Nat.max f1 f2))).
  split.
  - intros [|fuel] Hfuel; [lia|]. simpl.
    rewrite (proj2 (Nat.ltb_lt _ _)) by lia.
    rewrite Hgen by lia. simpl. rewrite Himprove by lia. simpl.
    fold improves. fold bestTour.
    rewrite withinAcceptableError_zero.
    rewrite (proj2 (Z.ltb_ge _ _)) by (by apply optimum_is_lower_bound).
    fold st1. apply Hrest. lia.
  - rewrite Hcount. simpl. rewrite length_app. simpl. lia.
Qed.

End TrialFacts.

(** C3, as the code behaves: the loop is left early only when the best
    length is strictly below [(1 + acceptableError) * optimumTourLength].
    With [acceptableError = 0] and no tour shorter than
    [optimumTourLength] that never happens, and all [numberOfTrials]
    trials are run. *)
Theorem zero_error_runs_all_trials {Tour : Type} `{TourOps Tour}
    (tsplibProblem : TsplibProblem Tour) (candidateEdges : CandidateEdges)
    (device : nat -> nat) (distance_max : Z) (valid : Tour -> Prop)
    (memberBestTour : Tour) (numberOfTrials : nat) (optimumTourLength : Z) :
  TourContract tsplibProblem valid ->
  wfCandidates (getDimension tsplibProblem) candidateEdges ->
  (Z.of_nat (getDimension tsplibProblem * getDimension tsplibProblem + 2)
   < 2 ^ 64)%Z ->
  1 <= getDimension tsplibProblem ->
  (forall T, valid T -> (optimumTourLength <= tourLength tsplibProblem T)%Z) ->
  (forall T, valid T -> (tourLength tsplibProblem T < distance_max)%Z) ->
  1 <= numberOfTrials ->
  exists st f0,
    (forall fuel, f0 <= fuel ->
       runTrials tsplibProblem candidateEdges device distance_max fuel
         memberBestTour numberOfTrials optimumTourLength 0 = Ok st) /\
    length (trials st) = numberOfTrials.
Proof.
  intros Hcontract Hwf Hsize Hpos Hopt Hfit Htrials.
  destruct (trialLoop_runs_all tsplibProblem candidateEdges device distance_max
              valid Hcontract Hwf Hsize Hpos numberOfTrials optimumTourLength
              Hopt Hfit numberOfTrials
              (initialTrialState distance_max memberBestTour []))
    as (st & f0 & Hrun & Hcount).
  { simpl. lia. }
  { by right. }
  exists st, f0. split; [|by rewrite Hcount].
  intros fuel Hfuel. unfold runTrials.
  rewrite (proj2 (Nat.ltb_ge _ _)) by lia. by apply Hrun.
Qed.

Lemma zero_error_runs_all_trials_witness :
  exists st f0,
    (forall fuel, f0 <= fuel ->
       runTrials Line4.problem Line4.allCandidates (fun _ => 0) 1000 fuel
         emptyTour 3 6 0 = Ok st) /\
    length (trials st) = 3.
Proof.
  apply (zero_error_runs_all_trials Line4.problem Line4.allCandidates
           (fun _ => 0) 1000 (ListTour.valid 4) emptyTour 3 6).
  - apply Line4Facts.line4_contract.
  - apply Line4Facts.candidates_wf.
  - reflexivity.
  - vm_compute. lia.
  - apply Line4Facts.optimum.
  - intros T HT. apply ListTourFacts.valid_order in HT.
    assert (Hin : T ∈ permutations (seq 0 4))
      by (by apply permutations_Permutation).
    assert (Hall : Forall (fun T' => (tourLength Line4.problem T' < 1000)%Z)
                     (permutations (seq 0 4)))
      by (vm_compute; repeat constructor).
    rewrite Forall_forall in Hall. by apply Hall.
  - lia.
Defined.

(** C3 at a concrete input: four cities on a line, optimum 6,
    [acceptableError = 0], three trials.  The first trial already returns
    a tour of length 6, and two more trials are run. *)
Lemma optimum_reached_loop_continues :
  (forall T, ListTour.valid 4 T -> (6 <= tourLength Line4.problem T)%Z) /\
  exists st t1 t2 t3,
    runTrials Line4.problem Line4.allCandidates (fun _ => 0) 1000 100
      emptyTour 3 6 0
    = Ok st /\
    trials st = [t1; t2; t3] /\
    tourLength Line4.problem t1 = 6%Z.
Proof.
  split; [apply Line4Facts.optimum|].
  eexists _, _, _, _. vm_compute. done.
Qed.

(** ** Dependence on the random device *)

Section DeviceFacts.

Context {Tour : Type} `{TourOps Tour}.
Variable tsplibProblem : TsplibProblem Tour.
Variable candidateEdges : CandidateEdges.

Implicit Types (device : nat -> nat) (log : list nat).

Lemma chooseRandomElement_log device elements log v log' :
  chooseRandomElement device elements log = Ok (v, log') ->
  log' = log ++ [length elements].
Proof.
  unfold chooseRandomElement. destruct (idx elements _); simpl; congruence.
Qed.

(** A call reads the device once, at the draw numbered by the log. *)
Lemma chooseRandomElement_agree device1 device2 elements log :
  device1 (length log) = device2 (length log) ->
  chooseRandomElement device1 elements log
  = chooseRandomElement device2 elements log.
Proof. intros Hsame. unfold chooseRandomElement. by rewrite Hsame. Qed.

Lemma generateLoop_step device fuel best currentVertex r rest order log :
  generateLoop candidateEdges device (S fuel) best currentVertex (r :: rest)
    order log
  = row ← idx candidateEdges currentVertex;
    '(next, log') ← chooseRandomElement device
                      (chosenFrom best currentVertex (r :: rest) row) log;
    generateLoop candidateEdges device fuel best next
      (filter (fun w => w ≠ next) (r :: rest)) (order ++ [next]) log'.
Proof.
  simpl. destruct (idx candidateEdges currentVertex) as [row|e]; [|done].
  simpl. unfold chosenFrom.
  by destruct (categories best currentVertex (r :: rest) row)
    as [[|a la] [|b lb]].
Qed.

Lemma generateLoop_log device best :
  forall fuel currentVertex remaining order log order' log',
    generateLoop candidateEdges device fuel best currentVertex remaining
      order log = Ok (order', log') ->
    length log <= length log'.
Proof.
  induction fuel as [|fuel IH];
    intros currentVertex [|r rest] order log order' log' Hrun;
    try (simpl in Hrun; simplify_eq; done).
  rewrite generateLoop_step in Hrun.
  destruct (idx candidateEdges currentVertex) as [row|e]; [|done].
  simpl in Hrun.
  destruct (chooseRandomElement device _ log) as [[next log1]|e] eqn:Hchoose;
    [|done].
  simpl in Hrun. apply chooseRandomElement_log in Hchoose. subst log1.
  apply IH in Hrun. rewrite length_app in Hrun. simpl in Hrun. lia.
Qed.

Lemma generateLoop_agree device1 device2 best :
  forall fuel currentVertex remaining order log order' log',
    generateLoop candidateEdges device1 fuel best currentVertex remaining
      order log = Ok (order', log') ->
    (forall n, length log <= n < length log' -> device1 n = device2 n) ->
    generateLoop candidateEdges device2 fuel best currentVertex remaining
      order log = Ok (order', log').
Proof.
  induction fuel as [|fuel IH];
    intros currentVertex [|r rest] order log order' log' Hrun Hsame;
    try (simpl in Hrun |- *; simplify_eq; done).
  rewrite generateLoop_step in Hrun |- *.
  destruct (idx candidateEdges currentVertex) as [row|e]; [|done].
  simpl in Hrun |- *.
  destruct (chooseRandomElement device1 _ log) as [[next log1]|e] eqn:Hchoose;
    [|done].
  simpl in Hrun.
  pose proof (chooseRandomElement_log _ _ _ _ _ Hchoose) as Hlog1.
  pose proof (generateLoop_log _ _ _ _ _ _ _ _ _ Hrun) as Hgrow.
  rewrite Hlog1, length_app in Hgrow. simpl in Hgrow.
  rewrite <- (chooseRandomElement_agree device1 device2) by (apply Hsame; lia).
  rewrite Hchoose. simpl. apply IH; [done|].
  intros n Hn. apply Hsame. rewrite Hlog1, length_app in Hn. simpl in Hn. lia.
Qed.

Lemma generateRandomTour_log device fuel best log startTour log' :
  generateRandomTour tsplibProblem candidateEdges device fuel best log
  = Ok (startTour, log') ->
  length log < length log'.
Proof.
  unfold generateRandomTour. intros Hrun.
  destruct (chooseRandomElement device _ log) as [[v log1]|e] eqn:Hchoose;
    [|done].
  simpl in Hrun. apply chooseRandomElement_log in Hchoose.
  destruct (eraseAt _ v) as [remaining|e]; [|done]. simpl in Hrun.
  destruct (generateLoop _ _ _ _ _ _ _ _) as [[order log2]|e] eqn:Hloop;
    [|done].
  simpl in Hrun. simplify_eq. apply generateLoop_log in Hloop.
  rewrite length_app in Hloop. simpl in Hloop. lia.
Qed.

Lemma generateRandomTour_agree device1 device2 fuel best log startTour log' :
  generateRandomTour tsplibProblem candidateEdges device1 fuel best log
  = Ok (startTour, log') ->
  (forall n, length log <= n < length log' -> device1 n = device2 n) ->
  generateRandomTour tsplibProblem candidateEdges device2 fuel best log
  = Ok (startTour, log').
Proof.
  intros Hrun Hsame.
  pose proof (generateRandomTour_log _ _ _ _ _ _ Hrun) as Hgrow.
  unfold generateRandomTour in Hrun |- *.
  rewrite <- (chooseRandomElement_agree device1 device2) by (apply Hsame; lia).
  destruct (chooseRandomElement device1 _ log) as [[v log1]|e] eqn:Hchoose;
    [|done].
  simpl in Hrun |- *. apply chooseRandomElement_log in Hchoose.
  destruct (eraseAt _ v) as [remaining|e]; [|done]. simpl in Hrun |- *.
  destruct (generateLoop _ device1 _ _ _ _ _ _) as [[order log2]|e] eqn:Hloop;
    [|done].
  simpl in Hrun. simplify_eq.
  rewrite (generateLoop_agree device1 device2 _ _ _ _ _ _ _ _ Hloop); [done|].
  intros n Hn. apply Hsame. rewrite length_app in Hn. simpl in Hn. lia.
Qed.

Lemma trialLoop_log device numberOfTrials optimumTourLength acceptableError :
  forall fuel st st',
    trialLoop tsplibProblem candidateEdges device fuel numberOfTrials
      optimumTourLength acceptableError st = Ok st' ->
    length (randomLog st) <= length (randomLog st').
Proof.
  induction fuel as [|fuel IH]; intros st st' Hrun; simpl in Hrun;
    (destruct (trialCount st <? numberOfTrials);
     [|simplify_eq; simpl; lia]); [done|].
  destruct (generateRandomTour _ _ _ _ _ _) as [[startTour log]|e] eqn:Hgen;
    [|done].
  simpl in Hrun. apply generateRandomTour_log in Hgen.
  destruct (improveTour _ _ _ _ _) as [currentTour|e]; [|done].
  simpl in Hrun. destruct (withinAcceptableError _ _ _).
  - simplify_eq. simpl. lia.
  - apply IH in Hrun. simpl in Hrun. lia.
Qed.

Lemma trialLoop_agree device1 device2 numberOfTrials optimumTourLength
    acceptableError :
  forall fuel st st',
    trialLoop tsplibProblem candidateEdges device1 fuel numberOfTrials
      optimumTourLength acceptableError st = Ok st' ->
    (forall n, length (randomLog st) <= n < length (randomLog st') ->
               device1 n = device2 n) ->
    trialLoop tsplibProblem candidateEdges device2 fuel numberOfTrials
      optimumTourLength acceptableError st = Ok st'.
Proof.
  induction fuel as [|fuel IH]; intros st st' Hrun Hsame;
    simpl in Hrun |- *;
    (destruct (trialCount st <? numberOfTrials); [|done]); [done|].
  destruct (generateRandomTour _ _ device1 _ _ _) as [[startTour log]|e]
    eqn:Hgen; [|done].
  simpl in Hrun.
  pose proof (generateRandomTour_log _ _ _ _ _ _ Hgen) as Hgrow.
  assert (Hrest : length log <= length (randomLog st')).
  { destruct (improveTour _ _ _ _ _) as [currentTour|e]; [|done].
    simpl in Hrun. destruct (withinAcceptableError _ _ _).
    - simplify_eq. simpl. lia.
    - apply trialLoop_log in Hrun. simpl in Hrun. lia. }
  rewrite (generateRandomTour_agree device1 device2 _ _ _ _ _ Hgen)
    by (intros n Hn; apply Hsame; lia).
  simpl. destruct (improveTour _ _ _ _ _) as [currentTour|e]; [|done].
  simpl in Hrun |- *. destruct (withinAcceptableError _ _ _); [done|].
  apply IH; [done|]. intros n Hn. apply Hsame. simpl in Hn. lia.
Qed.

End DeviceFacts.

(** C4, as the code behaves: the program has no seed; its only source of
    randomness is the device read by [chooseRandomElement].  A second run
    with the same problem, candidate edges and arguments in which the
    device returns the same values as in the first run, draw by draw,
    returns the same tour. *)
Theorem findBestTour_same_draws {Tour : Type} `{TourOps Tour}
    (tsplibProblem : TsplibProblem Tour) (candidateEdges : CandidateEdges)
    (device1 device2 : nat -> nat) (distance_max : Z)
    (fuel : nat) (memberBestTour : Tour) (numberOfTrials : nat)
    (optimumTourLength : Z) (acceptableError : Q) (st : TrialState Tour) :
  runTrials tsplibProblem candidateEdges device1 distance_max fuel
    memberBestTour numberOfTrials optimumTourLength acceptableError = Ok st ->
  (forall n, n < length (randomLog st) -> device1 n = device2 n) ->
  findBestTour tsplibProblem candidateEdges device1 distance_max fuel
    memberBestTour numberOfTrials optimumTourLength acceptableError
  = Ok (currentBestTour st)
  /\
  findBestTour tsplibProblem candidateEdges device2 distance_max fuel
    memberBestTour numberOfTrials optimumTourLength acceptableError
  = Ok (currentBestTour st).
Proof.
  intros Hrun Hsame. unfold findBestTour. rewrite Hrun. split; [done|].
  unfold runTrials in Hrun |- *.
  destruct (numberOfTrials <? 1); [done|].
  rewrite (trialLoop_agree tsplibProblem candidateEdges device1 device2
             _ _ _ _ _ _ Hrun); [done|].
  intros n Hn. apply Hsame. lia.
Qed.

Lemma findBestTour_same_draws_witness :
  findBestTour Line4.problem Line4.allCandidates (fun _ => 0) 1000 100
    emptyTour 1 6 0
  = Ok [0; 1; 2; 3]
  /\
  findBestTour Line4.problem Line4.allCandidates
    (fun n => if n <? 4 then 0 else 7) 1000 100 emptyTour 1 6 0
  = Ok [0; 1; 2; 3].
Proof.
  apply (findBestTour_same_draws Line4.problem Line4.allCandidates
           (fun _ => 0) (fun n => if n <? 4 then 0 else 7) 1000 100
           emptyTour 1 6 0
           {| currentBestTour := [0; 1; 2; 3]; currentBestLength := 6;
              trialCount := 2; randomLog := [4; 3; 2; 1];
              trials := [[0; 1; 2; 3]] |}).
  - reflexivity.
  - intros n Hn. simpl in Hn.
    do 4 (destruct n as [|n]; [reflexivity|]). lia.
Defined.

(** C4 at a concrete input: the same problem, candidate edges
    and arguments, two runs of one trial.  The device returns a different
    value at the third draw, the start tours are the two different
    shortest tours of the four cities, and so are the results: the first
    uses the edge between the cities 0 and 3, the second does not. *)
Lemma findBestTour_two_runs_differ :
  exists T1 T2,
    findBestTour Line4.problem Line4.allCandidates (fun _ => 0) 1000 100
      emptyTour 1 6 0 = Ok T1 /\
    findBestTour Line4.problem Line4.allCandidates
      (fun n => if n =? 2 then 1 else 0) 1000 100 emptyTour 1 6 0 = Ok T2 /\
    T1 <> T2 /\
    tourContainsEdge T1 0 3 = true /\
    tourContainsEdge T2 0 3 = false.
Proof.
  exists [0; 1; 2; 3], [0; 1; 3; 2]. vm_compute. split_and!; done.
Qed.

(** * Further properties *)

(** ** More on [AlternatingWalk] *)

Lemma sameEdge_sym (u v : vertex_t) (e : vertex_t * vertex_t) :
  Walk.sameEdge u v e = Walk.sameEdge v u e.
Proof. unfold Walk.sameEdge. apply orb_comm. Qed.

(** X1: [containsEdge] treats an edge as an unordered pair: swapping the two
    vertices changes neither the answer nor, on a walk where the loop
    leaves the vector, the failure. *)
Theorem containsEdge_symmetric (w : AlternatingWalk) (u v : vertex_t) :
  Walk.containsEdge w u v = Walk.containsEdge w v u.
Proof.
  unfold Walk.containsEdge. generalize (S (length w)) 0.
  intros fuel. induction fuel as [|fuel IH]; intros i; [done|].
  cbn [Walk.containsEdgeFrom].
  case_match; [|done].
  destruct (idxAt WalkAccess w i) as [a|e] eqn:Ha; [|done].
  cbn [mbind result_bind].
  destruct (idxAt WalkAccess w (i + 1)) as [b|e] eqn:Hb.
  - cbn [mbind result_bind].
    destruct (a =? u) eqn:Hau, (a =? v) eqn:Hav; cbn [mbind result_bind];
      destruct (b =? u) eqn:Hbu, (b =? v) eqn:Hbv; cbn [mbind result_bind];
      try done; apply IH.
  - destruct (a =? u) eqn:Hau, (a =? v) eqn:Hav; cbn [mbind result_bind];
      try done; apply IH.
Qed.

(** X2: after [push_back(x)] the walk contains the edges it contained before
    and the edge from its former last vertex to [x], and no other. *)
Theorem containsEdge_push_back (w : AlternatingWalk) (y x u v : vertex_t) :
  last w = Some y ->
  (Z.of_nat (length w) + 1 < 2 ^ 64)%Z ->
  Walk.containsEdge (w ++ [x]) u v
  = (b ← Walk.containsEdge w u v; Ok (b || Walk.sameEdge u v (y, x))).
Proof.
  intros Hlast Hsize.
  assert (w <> []) as Hw by (by intros ->).
  rewrite !containsEdge_hasEdge; [|done|lia| |].
  - cbn [mbind result_bind]. f_equal. unfold Walk.hasEdge.
    rewrite (edges_snoc _ _ _ Hlast), existsb_app. simpl.
    by rewrite orb_false_r.
  - by destruct w.
  - rewrite length_app. simpl. lia.
Qed.

Lemma containsEdge_push_back_witness :
  Walk.containsEdge ([3; 0] ++ [2]) 2 0
  = (b ← Walk.containsEdge [3; 0] 2 0; Ok (b || Walk.sameEdge 2 0 (0, 2))).
Proof.
  apply (containsEdge_push_back [3; 0] 0 2 2 0);
    [reflexivity | vm_compute; reflexivity].
Defined.

(** ** Printing a walk *)

Lemma string_append_assoc (a b c : String.string) :
  String.append (String.append a b) c = String.append a (String.append b c).
Proof. induction a as [|ch a IH]; simpl; [done | by rewrite IH]. Qed.

Lemma string_append_nil (a : String.string) : String.append a ""%string = a.
Proof. induction a as [|ch a IH]; simpl; [done | by rewrite IH]. Qed.

Lemma string_length_append (a b : String.string) :
  String.length (String.append a b) = String.length a + String.length b.
Proof. induction a as [|ch a IH]; simpl; [done | by rewrite IH]. Qed.

Lemma string_substring_prefix (a b : String.string) :
  String.substring 0 (String.length a) (String.append a b) = a.
Proof.
  induction a as [|ch a IH]; simpl.
  - by destruct b.
  - by rewrite IH.
Qed.

Lemma print_output (walk : AlternatingWalk) (acc : String.string) :
  foldl (fun output vertex =>
           String.append output
             (String.append (WalkOutput.to_string vertex) ", "%string))
    acc walk
  = String.append acc
      (match walk with
       | [] => ""%string
       | _ :: _ =>
           String.append
             (String.concat ", "%string (map WalkOutput.to_string walk))
             ", "%string
       end).
Proof.
  revert acc. induction walk as [|v walk IH]; intros acc.
  - simpl. by rewrite string_append_nil.
  - cbn [foldl]. rewrite IH. destruct walk as [|v' walk].
    + simpl. by rewrite string_append_nil.
    + rewrite string_append_assoc. f_equal.
      change (map WalkOutput.to_string (v :: v' :: walk))
        with (WalkOutput.to_string v :: map WalkOutput.to_string (v' :: walk)).
      cbn [String.concat map]. by rewrite !string_append_assoc.
Qed.

(** X3: [operator<<] writes the vertices in decimal, separated by a comma and
    a space, with nothing after the last one; for the empty walk it writes
    nothing, the wrapped [length() - 2] being cut to the length of the
    string by [substr].  It never throws. *)
Theorem print_joins (walk : AlternatingWalk) :
  (Z.of_nat (String.length
               (String.concat ", "%string (map WalkOutput.to_string walk)))
   + 2 < 2 ^ 64)%Z ->
  WalkOutput.print walk
  = Ok (String.concat ", "%string (map WalkOutput.to_string walk)).
Proof.
  intros Hsize. unfold WalkOutput.print. rewrite print_output.
  destruct walk as [|v walk].
  - reflexivity.
  - cbn [String.append].
    set (J := String.concat _ _) in *.
    unfold WalkOutput.substr.
    rewrite string_length_append. cbn [String.length].
    destruct (Z.ltb_spec (Z.of_nat (String.length J + 2)) 0%Z); [lia|].
    f_equal.
    replace (Z.of_nat (String.length J + 2) - 2)%Z
      with (Z.of_nat (String.length J)) by lia.
    rewrite size_wrap_small by lia.
    rewrite Z.sub_0_r, Z.min_l by lia. rewrite Nat2Z.id.
    apply string_substring_prefix.
Qed.

Lemma print_joins_witness :
  WalkOutput.print [3; 0; 12] = Ok "3, 0, 12"%string.
Proof. apply (print_joins [3; 0; 12]). vm_compute. reflexivity. Defined.

(** ** The rows of [CandidateEdges] *)

Lemma filter_Forall {A : Type} (P : A -> Prop) `{forall x, Decision (P x)}
    (l : list A) :
  Forall P l -> filter P l = l.
Proof.
  induction 1 as [|x l Hx Hl IH]; [done|]. by rewrite filter_cons_True, IH.
Qed.

Lemma filter_ne_seq (n v : nat) :
  v < n ->
  filter (fun w => w ≠ v) (seq 0 n) = seq 0 v ++ seq (S v) (n - S v).
Proof.
  intros Hv.
  replace n with (v + (1 + (n - S v))) at 1 by lia.
  rewrite !seq_app, !filter_app. cbn [seq].
  rewrite filter_cons_False by (intros Hne; by apply Hne).
  cbn [filter list_filter app]. replace (0 + v + 1) with (S v) by lia.
  rewrite !filter_Forall; [done| |];
    apply Forall_forall; intros x Hx; apply elem_of_seq in Hx; lia.
Qed.

(** X4: with [ALL_NEIGHBORS], whatever [k] is, [create] returns one row per
    vertex, and the row of [v] lists every other vertex in ascending
    order. *)
Theorem allNeighbors_every_other_vertex {Tour} (oracle : AlphaOracle)
    (problem : TsplibProblem Tour) (k : nat) :
  exists table,
    Candidates.create oracle problem Candidates.ALL_NEIGHBORS k = Ok table /\
    length table = getDimension problem /\
    forall v, v < getDimension problem ->
      table !! v
      = Some (seq 0 v ++ seq (S v) (getDimension problem - S v)).
Proof.
  destruct (allNeighbors_rows problem) as (table & Hcreate & Hlen & Hrows).
  exists table. split; [exact Hcreate|]. split; [exact Hlen|].
  intros v Hv. rewrite (Hrows v Hv). f_equal. by apply filter_ne_seq.
Qed.

Lemma rawRow_range n k lt v row :
  v < n -> rawRow n k lt v row -> Forall (fun x => x < n) row.
Proof.
  intros Hv (others & Hperm & ->). unfold Candidates.partial_sort_copy.
  apply Forall_app. split.
  - apply Forall_forall. intros x Hx.
    apply (subseteq_take _ _ x) in Hx.
    rewrite sortBy_perm, Hperm in Hx.
    apply list_elem_of_filter in Hx as [_ Hx]. apply elem_of_seq in Hx. lia.
  - apply Forall_forall. intros x Hx.
    apply (subseteq_drop _ _ x) in Hx.
    apply elem_of_replicate in Hx as [-> _]. lia.
Qed.

(** X5: [create] returns for every strategy and every [k], and what it
    returns is a table with one row per vertex whose entries are all
    vertices of the problem; such a table is what [improveTour] needs. *)
Theorem create_well_formed {Tour} (oracle : AlphaOracle)
    (problem : TsplibProblem Tour) (ty : Candidates.Type_) (k : nat) :
  exists table,
    Candidates.create oracle problem ty k = Ok table /\
    wfCandidates (getDimension problem) table.
Proof.
  assert (ty = Candidates.ALL_NEIGHBORS \/ ty <> Candidates.ALL_NEIGHBORS)
    as [->|Hty] by (destruct ty; auto).
  - destruct (allNeighbors_rows problem) as (table & Hcreate & Hlen & Hrows).
    exists table. split; [exact Hcreate|]. split; [exact Hlen|].
    apply Forall_lookup. intros v row Hrow.
    assert (v < getDimension problem) as Hv
      by (rewrite <- Hlen; by eapply lookup_lt_Some).
    rewrite (Hrows v Hv) in Hrow. injection Hrow as <-.
    apply Forall_forall. intros x Hx.
    apply list_elem_of_filter in Hx as [_ Hx]. apply elem_of_seq in Hx. lia.
  - destruct (create_raw oracle problem ty k Hty) as [cmp ->].
    destruct (rawNearestNeighbors_rows (getDimension problem) k cmp)
      as (table & Hcreate & Hlen & Hrows).
    exists table. split; [exact Hcreate|]. split; [exact Hlen|].
    apply Forall_lookup. intros v row Hrow.
    assert (v < getDimension problem) as Hv
      by (rewrite <- Hlen; by eapply lookup_lt_Some).
    destruct (Hrows v Hv) as (row' & Hrow' & Hraw). simplify_eq.
    by eapply rawRow_range.
Qed.

Section SortFacts.

Variable lt : vertex_t -> vertex_t -> bool.
Hypothesis lt_asym : forall a b, lt a b = true -> lt b a = false.
Hypothesis le_trans :
  forall a b c, lt b a = false -> lt c b = false -> lt c a = false.

Local Abbreviation le := (fun a b => lt b a = false).

Lemma insertSorted_sorted x l :
  StronglySorted le l -> StronglySorted le (Candidates.insertSorted lt x l).
Proof.
  induction 1 as [|y rest Hrest IH Hy]; cbn [Candidates.insertSorted].
  - repeat constructor.
  - destruct (lt x y) eqn:Hxy.
    + constructor; [by constructor|].
      constructor; [by apply lt_asym|].
      eapply Forall_impl; [exact Hy|]. intros z Hz. cbv beta in *.
      eapply le_trans; [|exact Hz]. by apply lt_asym.
    + constructor; [exact IH|].
      rewrite (insertSorted_perm lt x rest). by constructor.
Qed.

Lemma sortBy_sorted l : StronglySorted le (Candidates.sortBy lt l).
Proof.
  induction l as [|x l IH]; [constructor|]. by apply insertSorted_sorted.
Qed.

Lemma rawRow_sorted n k v row :
  k < n -> v < n -> rawRow n k lt v row ->
  StronglySorted le row /\
  (forall a w, a ∈ row -> w < n -> w <> v -> w ∉ row -> lt w a = false).
Proof.
  intros Hk Hv (others & Hperm & ->).
  assert (length others = n - 1) as Hlen
    by (by rewrite Hperm, others_length).
  rewrite partial_sort_copy_short by lia.
  pose proof (sortBy_sorted others) as Hsorted.
  rewrite <- (take_drop k (Candidates.sortBy lt others)) in Hsorted.
  split; [by eapply StronglySorted_app_1_l|].
  intros a w Ha Hw Hwv Hnot.
  eapply (StronglySorted_app_1_elem_of _ _ _ a w Hsorted); [done|].
  assert (w ∈ Candidates.sortBy lt others) as Hin.
  { rewrite sortBy_perm, Hperm. apply list_elem_of_filter. split; [done|].
    apply elem_of_seq. lia. }
  rewrite <- (take_drop k (Candidates.sortBy lt others)) in Hin.
  apply elem_of_app in Hin as [?|?]; done.
Qed.

End SortFacts.

Lemma rawNearestNeighbors_order n k cmp table v row :
  (forall a b, cmp v a b = true -> cmp v b a = false) ->
  (forall a b c, cmp v b a = false -> cmp v c b = false -> cmp v c a = false) ->
  k < n ->
  Candidates.rawNearestNeighbors n k cmp = Ok table ->
  table !! v = Some row ->
  (forall i j a b, row !! i = Some a -> row !! j = Some b -> i <= j ->
                   cmp v b a = false) /\
  (forall a w, a ∈ row -> w < n -> w <> v -> w ∉ row -> cmp v w a = false).
Proof.
  intros Hasym Htrans Hk Hraw Hrow.
  destruct (rawNearestNeighbors_rows n k cmp) as (res & Hres & Hlen & Hrows).
  rewrite Hraw in Hres. injection Hres as <-.
  assert (v < n) as Hv by (rewrite <- Hlen; by eapply lookup_lt_Some).
  destruct (Hrows v Hv) as (row' & Hrow' & Hraw'). simplify_eq.
  destruct (rawRow_sorted (cmp v) Hasym Htrans _ k v row Hk Hv Hraw')
    as [Hsorted Hnearest].
  split; [|exact Hnearest].
  intros i j a b Hi Hj Hij.
  destruct (decide (i = j)) as [->|Hne].
  - rewrite Hi in Hj. injection Hj as ->.
    destruct (cmp v b b) eqn:Hbb; [|done].
    by rewrite (Hasym _ _ Hbb) in Hbb.
  - rewrite <- (take_drop_middle row j b Hj) in Hsorted, Hi.
    rewrite lookup_app_l in Hi
      by (rewrite length_take; apply lookup_lt_Some in Hj; lia).
    apply (StronglySorted_app_1_elem_of _ _ _ a b Hsorted).
    + by eapply list_elem_of_lookup_2.
    + apply list_elem_of_here.
Qed.

(** X6: a row written by [nearestNeighbors] lists its vertices by ascending
    distance from the row's vertex, and no vertex left out of the row is
    strictly closer than one in it. *)
Theorem nearestNeighbors_nearest {Tour} (problem : TsplibProblem Tour)
    (k : nat) (table : CandidateEdges) (v : vertex_t) (row : list vertex_t) :
  k < getDimension problem ->
  Candidates.nearestNeighbors problem k = Ok table ->
  table !! v = Some row ->
  (forall i j a b, row !! i = Some a -> row !! j = Some b -> i <= j ->
                   (dist problem v a <= dist problem v b)%Z) /\
  (forall a w, a ∈ row -> w < getDimension problem -> w <> v -> w ∉ row ->
               (dist problem v a <= dist problem v w)%Z).
Proof.
  intros Hk Hraw Hrow.
  unfold Candidates.nearestNeighbors in Hraw.
  eapply rawNearestNeighbors_order in Hraw as [Hsorted Hnearest];
    [| | |exact Hk|exact Hrow]; cbv beta.
  - split.
    + intros i j a b Hi Hj Hij. specialize (Hsorted i j a b Hi Hj Hij). lia.
    + intros a w Ha Hw Hwv Hnot. specialize (Hnearest a w Ha Hw Hwv Hnot). lia.
  - intros a b. lia.
  - intros a b c. lia.
Qed.

Lemma nearestNeighbors_nearest_witness :
  (forall i j a b, [2; 1] !! i = Some a -> [2; 1] !! j = Some b -> i <= j ->
                   (dist Line4.problem 3 a <= dist Line4.problem 3 b)%Z) /\
  (forall a w, a ∈ [2; 1] -> w < 4 -> w <> 3 -> w ∉ [2; 1] ->
               (dist Line4.problem 3 a <= dist Line4.problem 3 w)%Z).
Proof.
  apply (nearestNeighbors_nearest Line4.problem 2
           [[1; 2]; [0; 2]; [1; 3]; [2; 1]] 3 [2; 1]);
    [simpl; lia | vm_compute; reflexivity | reflexivity].
Defined.

Lemma tupleLt_le (a1 d1 a2 d2 : Z) :
  Candidates.tupleLt a2 d2 a1 d1 = false <-> tupleLe a1 d1 a2 d2.
Proof. unfold Candidates.tupleLt, tupleLe. lia. Qed.

Lemma tupleLt_order (alpha d : vertex_t -> Z) :
  (forall a b, Candidates.tupleLt (alpha a) (d a) (alpha b) (d b) = true ->
               Candidates.tupleLt (alpha b) (d b) (alpha a) (d a) = false) /\
  (forall a b c,
     Candidates.tupleLt (alpha b) (d b) (alpha a) (d a) = false ->
     Candidates.tupleLt (alpha c) (d c) (alpha b) (d b) = false ->
     Candidates.tupleLt (alpha c) (d c) (alpha a) (d a) = false).
Proof. unfold Candidates.tupleLt. split; intros; lia. Qed.

(** X7: both alpha strategies rank by the pair (alpha value, distance): a row
    is ascending in that order, and no vertex left out of the row comes
    strictly before one in it. *)
Theorem alphaNearestNeighbors_nearest {Tour} (oracle : AlphaOracle)
    (problem : TsplibProblem Tour) (ty : Candidates.Type_) (k : nat)
    (table : CandidateEdges) (v : vertex_t) (row : list vertex_t) :
  ty = Candidates.ALPHA_NEAREST_NEIGHBORS
  \/ ty = Candidates.OPTIMIZED_ALPHA_NEAREST_NEIGHBORS ->
  k < getDimension problem ->
  Candidates.create oracle problem ty k = Ok table ->
  table !! v = Some row ->
  let alpha := alphaTable oracle problem ty in
  (forall i j a b, row !! i = Some a -> row !! j = Some b -> i <= j ->
     tupleLe (alpha v a) (dist problem v a) (alpha v b) (dist problem v b)) /\
  (forall a w, a ∈ row -> w < getDimension problem -> w <> v -> w ∉ row ->
     tupleLe (alpha v a) (dist problem v a) (alpha v w) (dist problem v w)).
Proof.
  intros Hty Hk Hraw Hrow alpha.
  assert (Candidates.rawNearestNeighbors (getDimension problem) k
            (fun v w1 w2 =>
               Candidates.tupleLt (alpha v w1) (dist problem v w1)
                 (alpha v w2) (dist problem v w2)) = Ok table) as Hraw'.
  { destruct Hty as [-> | ->]; exact Hraw. }
  destruct (tupleLt_order (alpha v) (dist problem v)) as [Hasym Htrans].
  eapply rawNearestNeighbors_order in Hraw' as [Hsorted Hnearest];
    [|exact Hasym|exact Htrans|exact Hk|exact Hrow].
  split.
  - intros i j a b Hi Hj Hij. apply tupleLt_le. by eapply Hsorted.
  - intros a w Ha Hw Hwv Hnot. apply tupleLt_le. by eapply Hnearest.
Qed.

Lemma alphaNearestNeighbors_nearest_witness :
  let alpha := alphaTable Line4.oracle Line4.problem
                 Candidates.ALPHA_NEAREST_NEIGHBORS in
  (forall i j a b, [2; 1] !! i = Some a -> [2; 1] !! j = Some b -> i <= j ->
     tupleLe (alpha 3 a) (dist Line4.problem 3 a)
       (alpha 3 b) (dist Line4.problem 3 b)) /\
  (forall a w, a ∈ [2; 1] -> w < 4 -> w <> 3 -> w ∉ [2; 1] ->
     tupleLe (alpha 3 a) (dist Line4.problem 3 a)
       (alpha 3 w) (dist Line4.problem 3 w)).
Proof.
  apply (alphaNearestNeighbors_nearest Line4.oracle Line4.problem
           Candidates.ALPHA_NEAREST_NEIGHBORS 2
           [[1; 2]; [0; 2]; [1; 3]; [2; 1]] 3 [2; 1]);
    [by left | simpl; lia | vm_compute; reflexivity | reflexivity].
Defined.

(** ** More on the random tour generator *)

(** X8: [generateRandomTour] returns the tour of an order in which every
    vertex occurs exactly once, whatever the candidate rows contain, so
    that [improveTour] starts from a valid tour. *)
Theorem generateRandomTour_visits_all {Tour : Type} `{TourOps Tour}
    (tsplibProblem : TsplibProblem Tour) (candidateEdges : CandidateEdges)
    (valid : Tour -> Prop) (device : nat -> nat) (best : Tour)
    (log : list nat) :
  TourContract tsplibProblem valid ->
  1 <= getDimension tsplibProblem ->
  length candidateEdges = getDimension tsplibProblem ->
  exists order log',
    (forall fuel, getDimension tsplibProblem <= fuel ->
       generateRandomTour tsplibProblem candidateEdges device fuel best log
       = Ok (mkTour order, log ++ log')) /\
    order ≡ₚ seq 0 (getDimension tsplibProblem) /\
    NoDup order /\
    valid (mkTour order).
Proof.
  intros Hcontract Hpos Hrows.
  destruct (generateRandomTour_runs tsplibProblem candidateEdges device
              Hrows Hpos best log) as (order & log' & Hrun & Hperm & _ & _).
  exists order, log'. split_and!; [done | done | |].
  - rewrite Hperm. apply NoDup_seq.
  - by apply (mkTour_valid _ _ Hcontract).
Qed.

Lemma generateRandomTour_visits_all_witness :
  exists order log',
    (forall fuel, 4 <= fuel ->
       generateRandomTour Line4.problem Line4.allCandidates
         (fun n => 2 * n + 7) fuel [0; 1; 2; 3] []
       = Ok (mkTour order, [] ++ log')) /\
    order ≡ₚ seq 0 4 /\
    NoDup order /\
    ListTour.valid 4 (mkTour order).
Proof.
  apply (generateRandomTour_visits_all Line4.problem Line4.allCandidates
           (ListTour.valid 4) (fun n => 2 * n + 7) [0; 1; 2; 3] []);
    [apply Line4Facts.line4_contract | vm_compute; lia | reflexivity].
Defined.

Section GeneratorPriority.

Context {Tour : Type} `{TourOps Tour}.
Variable candidateEdges : CandidateEdges.
Variable device : nat -> nat.

Lemma categories_fold best currentVertex
    (remaining row acc1 acc2 : list vertex_t) :
  foldl
    (fun '(candidatesInBestTour, candidates) otherVertex =>
       if bool_decide (otherVertex ∈ remaining) then
         ((if negb (tourDimension best =? 0)
               && tourContainsEdge best currentVertex otherVertex
           then candidatesInBestTour ++ [otherVertex]
           else candidatesInBestTour),
          candidates ++ [otherVertex])
       else (candidatesInBestTour, candidates))
    (acc1, acc2) row
  = (acc1 ++ List.filter
               (fun w => bool_decide (w ∈ remaining)
                         && (negb (tourDimension best =? 0)
                             && tourContainsEdge best currentVertex w)) row,
     acc2 ++ List.filter (fun w => bool_decide (w ∈ remaining)) row).
Proof.
  revert acc1 acc2. induction row as [|w row IH]; intros acc1 acc2.
  - by rewrite !app_nil_r.
  - cbn [foldl List.filter].
    destruct (bool_decide (w ∈ remaining)); cbn [andb].
    + destruct (negb (tourDimension best =? 0)
                && tourContainsEdge best currentVertex w);
        rewrite IH; by rewrite <- ?app_assoc.
    + apply IH.
Qed.

Lemma categories_filter best currentVertex (remaining row : list vertex_t) :
  categories best currentVertex remaining row
  = (List.filter
       (fun w => bool_decide (w ∈ remaining)
                 && (negb (tourDimension best =? 0)
                     && tourContainsEdge best currentVertex w)) row,
     List.filter (fun w => bool_decide (w ∈ remaining)) row).
Proof. exact (categories_fold best currentVertex remaining row [] []). Qed.

End GeneratorPriority.

(** X9: one pass of the loop of [generateRandomTour] takes the next vertex
    from the remaining ones, and in the order of preference of the three
    categories: whenever some remaining vertex of the current row is
    joined to the current vertex in the best tour, so is the vertex taken;
    whenever some vertex of the current row remains, the vertex taken is
    from that row. *)
Theorem generateLoop_prefers_candidates {Tour : Type} `{TourOps Tour}
    (candidateEdges : CandidateEdges) (device : nat -> nat) (fuel : nat)
    (best : Tour) (currentVertex : vertex_t)
    (remaining order : list vertex_t) (log : list nat)
    (row : list vertex_t) :
  remaining <> [] ->
  candidateEdges !! currentVertex = Some row ->
  exists next size,
    generateLoop candidateEdges device (S fuel) best currentVertex remaining
      order log
    = generateLoop candidateEdges device fuel best next
        (filter (fun w => w ≠ next) remaining) (order ++ [next])
        (log ++ [size]) /\
    (next ∈ remaining) /\
    forall w, w ∈ row -> w ∈ remaining ->
      (next ∈ row) /\
      (tourDimension best <> 0 ->
       tourContainsEdge best currentVertex w = true ->
       tourContainsEdge best currentVertex next = true).
Proof.
  intros Hrem Hrow.
  destruct remaining as [|r rest]; [done|].
  rewrite generateLoop_step. unfold idxAt. rewrite Hrow.
  cbn [mbind result_bind].
  destruct (chosenFrom_spec best currentVertex (r :: rest) row Hrem)
    as [Hne Hsub].
  destruct (chooseRandomElement_nonempty device _ log Hne)
    as (next & Hchoose & Hnext).
  rewrite Hchoose. cbn [mbind result_bind].
  exists next, (length (chosenFrom best currentVertex (r :: rest) row)).
  split; [done|].
  split; [by eapply (proj1 (Forall_forall _ _) Hsub)|].
  intros w Hw Hwrem.
  revert Hnext. unfold chosenFrom. rewrite categories_filter.
  set (f1 := fun w => _ && _). set (f2 := fun w => bool_decide _).
  assert (w ∈ List.filter f2 row) as Hw2.
  { apply elem_of_filter_bool. split; [done|]. unfold f2.
    by apply bool_decide_eq_true. }
  destruct (List.filter f1 row) as [|c1 cs1] eqn:H1.
  - destruct (List.filter f2 row) as [|c2 cs2] eqn:H2.
    { by apply elem_of_nil in Hw2. }
    intros Hnext. rewrite <- H2 in Hnext.
    apply elem_of_filter_bool in Hnext as [Hnext _].
    split; [done|]. intros Hdim Hedge.
    assert (w ∈ List.filter f1 row) as Hw1.
    { apply elem_of_filter_bool. split; [done|]. unfold f1.
      rewrite bool_decide_eq_true_2 by done. rewrite Hedge.
      by destruct (Nat.eqb_spec (tourDimension best) 0). }
    rewrite H1 in Hw1. by apply elem_of_nil in Hw1.
  - intros Hnext. rewrite <- H1 in Hnext.
    apply elem_of_filter_bool in Hnext as [Hnext Hf1].
    split; [done|]. intros _ _. unfold f1 in Hf1.
    by apply andb_prop in Hf1 as [_ [_ ?]%andb_prop].
Qed.

Lemma generateLoop_prefers_candidates_witness :
  exists next size,
    generateLoop Line4.allCandidates (fun n => 2 * n) 3 [0; 1; 2; 3] 0
      [1; 2; 3] [0] [4]
    = generateLoop Line4.allCandidates (fun n => 2 * n) 2 [0; 1; 2; 3] next
        (filter (fun w => w ≠ next) [1; 2; 3]) ([0] ++ [next]) ([4] ++ [size])
    /\ (next ∈ [1; 2; 3]) /\
    forall w, w ∈ [1; 2; 3] -> w ∈ [1; 2; 3] ->
      (next ∈ [1; 2; 3]) /\
      (tourDimension [0; 1; 2; 3] <> 0 ->
       tourContainsEdge [0; 1; 2; 3] 0 w = true ->
       tourContainsEdge [0; 1; 2; 3] 0 next = true).
Proof.
  apply (generateLoop_prefers_candidates Line4.allCandidates (fun n => 2 * n)
           2 [0; 1; 2; 3] 0 [1; 2; 3] [0] [4] [1; 2; 3]);
    [done | reflexivity].
Defined.

(** ** More on [improveTour] *)

(** X10: at an even position [i], after [xi] entered the walk, the scoring of
    lines 249-257 is skipped, and a vertex is in [X_(i+1)] exactly when it
    is a tour neighbour of [xi] other than [x0] that passes the test of its
    depth: at [i = 0] with a best tour, not to be a neighbour of [x0] in
    the best tour; otherwise, not to be joined to [xi] by an edge of the
    walk and, beyond [infeasibilityDepth], to differ from [x1] and to close
    the walk into a tour. *)
Theorem even_position_choices {Tour : Type} `{TourOps Tour}
    (tsplibProblem : TsplibProblem Tour) (candidateEdges : CandidateEdges)
    (currentTour best : Tour) (st : SearchState)
    (Xi : list vertex_t) (xi : vertex_t) :
  length (vertexChoices st) = pos st + 1 ->
  length (currentWalk st) = pos st ->
  (Z.of_nat (pos st) + 1 < 2 ^ 64)%Z ->
  Nat.odd (pos st) = false ->
  vertexChoices st !! pos st = Some Xi ->
  last Xi = Some xi ->
  exists st' Xnext x0,
    innerStep tsplibProblem candidateEdges currentTour best st
    = Ok (Continue st') /\
    pos st' = pos st + 1 /\
    currentWalk st' = currentWalk st ++ [xi] /\
    currentWalk st' !! 0 = Some x0 /\
    bestAlternatingWalk st' = bestAlternatingWalk st /\
    highestGain st' = highestGain st /\
    vertexChoices st' !! (pos st + 1) = Some Xnext /\
    forall x,
      x ∈ Xnext <->
      x ∈ getNeighbors currentTour xi /\ x ≠ x0 /\
      if (pos st =? 0) && negb (tourDimension best =? 0)
      then x ≠ predecessor best x0 /\ x ≠ successor best x0
      else Walk.hasEdge (currentWalk st') xi x = false /\
           (infeasibilityDepth < pos st ->
            x ≠ currentWalk st' !!! 1 /\
            isTourAfterExchange currentTour
              ((currentWalk st' ++ [x]) ++ [x0]) = true).
Proof.
  intros Hvs Hwalk Hsize Heven HXi Hlast.
  destruct (lookup_lt_is_Some_2 (currentWalk st ++ [xi]) 0) as [x0 Hx0].
  { rewrite length_app. simpl. lia. }
  eexists _, _, x0. split.
  { apply (innerStep_extend _ _ _ _ _ Xi xi); try done.
    rewrite Heven. done. }
  unfold extended. cbn [pos currentWalk bestAlternatingWalk highestGain
                         vertexChoices].
  assert (Hscore : scored tsplibProblem currentTour (pos st)
                     (currentWalk st ++ [xi]) (bestAlternatingWalk st)
                     (highestGain st)
                   = (bestAlternatingWalk st, highestGain st)).
  { unfold scored. by rewrite Heven. }
  rewrite Hscore. cbn [fst snd].
  split_and!; [done | done | done | done | done | |].
  { rewrite lookup_app_r by (rewrite length_insert; lia).
    rewrite length_insert.
    by replace (pos st + 1 - length (vertexChoices st)) with 0 by lia. }
  intros x. unfold nextChoices. rewrite Heven.
  rewrite (list_lookup_total_correct _ _ _ Hx0).
  destruct ((pos st =? 0) && negb (tourDimension best =? 0)).
  - rewrite elem_of_filter_bool. unfold firstOutEdgeOk.
    rewrite !andb_true_iff, !negb_true_iff, !Nat.eqb_neq. tauto.
  - destruct (Nat.leb_spec (pos st) infeasibilityDepth) as [Hle|Hgt].
    + rewrite elem_of_filter_bool. unfold shallowOutEdgeOk.
      rewrite !andb_true_iff, !negb_true_iff, !Nat.eqb_neq.
      split; [|tauto]. intros (? & ? & ?). split_and!; try done. lia.
    + rewrite elem_of_filter_bool. unfold deepOutEdgeOk.
      rewrite !andb_true_iff, !negb_true_iff, !Nat.eqb_neq.
      split; [tauto|]. intros (? & ? & ? & Hdeep).
      destruct (Hdeep Hgt). tauto.
Qed.

Lemma even_position_choices_witness :
  exists st' Xnext x0,
    innerStep Line4.problem Line4.allCandidates Line4.crossed []
      {| vertexChoices := [[0; 1; 2]; [1]; [1]]; currentWalk := [3; 0];
         bestAlternatingWalk := []; highestGain := 0; pos := 2 |}
    = Ok (Continue st') /\
    pos st' = 2 + 1 /\
    currentWalk st' = [3; 0] ++ [1] /\
    currentWalk st' !! 0 = Some x0 /\
    bestAlternatingWalk st' = [] /\
    highestGain st' = 0%Z /\
    vertexChoices st' !! (2 + 1) = Some Xnext /\
    forall x,
      x ∈ Xnext <->
      x ∈ getNeighbors Line4.crossed 1 /\ x ≠ x0 /\
      if (2 =? 0) && negb (tourDimension ([] : ListTour.t) =? 0)
      then x ≠ predecessor ([] : ListTour.t) x0
           /\ x ≠ successor ([] : ListTour.t) x0
      else Walk.hasEdge (currentWalk st') 1 x = false /\
           (infeasibilityDepth < 2 ->
            x ≠ currentWalk st' !!! 1 /\
            isTourAfterExchange Line4.crossed
              ((currentWalk st' ++ [x]) ++ [x0]) = true).
Proof.
  apply (even_position_choices Line4.problem Line4.allCandidates Line4.crossed
           []
           {| vertexChoices := [[0; 1; 2]; [1]; [1]]; currentWalk := [3; 0];
              bestAlternatingWalk := []; highestGain := 0; pos := 2 |}
           [1] 1); reflexivity.
Defined.

(** X11: a pass of the inner loop never lowers [highestGain], and it replaces
    [bestAlternatingWalk] only at an odd position from 3 on, by the closed
    current walk, when that walk passed [isTourAfterExchange] and its gain
    is strictly above the gain recorded so far. *)
Theorem highestGain_only_rises {Tour : Type} `{TourOps Tour}
    (tsplibProblem : TsplibProblem Tour) (candidateEdges : CandidateEdges)
    (currentTour best : Tour) (st st' : SearchState) :
  innerStep tsplibProblem candidateEdges currentTour best st
  = Ok (Continue st') ->
  (bestAlternatingWalk st' = bestAlternatingWalk st /\
   highestGain st' = highestGain st)
  \/ ((highestGain st < highestGain st')%Z /\
      Nat.odd (pos st) = true /\ 3 <= pos st /\
      Walk.close (currentWalk st') = Ok (bestAlternatingWalk st') /\
      highestGain st' = exchangeGain tsplibProblem (bestAlternatingWalk st') /\
      isTourAfterExchange currentTour (bestAlternatingWalk st') = true).
Proof.
  unfold innerStep. intros Hstep.
  apply bind_Ok in Hstep as (Xi & HXi & Hstep).
  destruct Xi as [|c Xi].
  - left. destruct (0 <? highestGain st)%Z; [done|].
    destruct (pos st =? 0); [done|].
    apply bind_Ok in Hstep as (vs & _ & Hstep).
    apply bind_Ok in Hstep as (walk & _ & Hstep).
    by simplify_eq.
  - apply bind_Ok in Hstep as (x & _ & Hstep).
    apply bind_Ok in Hstep as ([bestWalk gain] & Hscore & Hstep).
    apply bind_Ok in Hstep as (xi & _ & Hstep).
    apply bind_Ok in Hstep as (vs' & _ & Hstep).
    injection Hstep as <-. cbn [bestAlternatingWalk highestGain currentWalk].
    unfold scoreClosure in Hscore.
    destruct (Nat.odd (pos st) && (3 <=? pos st)) eqn:Hpos;
      [|left; by simplify_eq].
    apply andb_prop in Hpos as [Hodd Hge%Nat.leb_le].
    apply bind_Ok in Hscore as (closedWalk & Hclose & Hscore).
    destruct ((highestGain st <? exchangeGain tsplibProblem closedWalk)%Z
              && isTourAfterExchange currentTour closedWalk) eqn:Hbetter;
      [|left; by simplify_eq].
    apply andb_prop in Hbetter as [Hgain%Z.ltb_lt Htour].
    right. by simplify_eq.
Qed.

Lemma highestGain_only_rises_witness :
  let st := {| vertexChoices := [[0; 1; 2]; [1]; [2]; [2]];
               currentWalk := [3; 0; 1]; bestAlternatingWalk := [];
               highestGain := 0; pos := 3 |} in
  let st' := {| vertexChoices := [[0; 1; 2]; [1]; [2]; []; []];
                currentWalk := [3; 0; 1; 2];
                bestAlternatingWalk := [3; 0; 1; 2; 3];
                highestGain := 2; pos := 4 |} in
  (bestAlternatingWalk st' = bestAlternatingWalk st /\
   highestGain st' = highestGain st)
  \/ ((highestGain st < highestGain st')%Z /\
      Nat.odd (pos st) = true /\ 3 <= pos st /\
      Walk.close (currentWalk st') = Ok (bestAlternatingWalk st') /\
      highestGain st' = exchangeGain Line4.problem (bestAlternatingWalk st') /\
      isTourAfterExchange Line4.crossed (bestAlternatingWalk st') = true).
Proof.
  intros st st'.
  apply (highestGain_only_rises Line4.problem Line4.allCandidates
           Line4.crossed [] st st').
  vm_compute. reflexivity.
Defined.

Section AlternationFacts.

Context {Tour : Type} `{TourOps Tour}.
Variable tsplibProblem : TsplibProblem Tour.
Variable candidateEdges : CandidateEdges.
Variable valid : Tour -> Prop.

Hypothesis contract : TourContract tsplibProblem valid.
Hypothesis candidates_wf :
  wfCandidates (getDimension tsplibProblem) candidateEdges.
Hypothesis size_ok :
  (Z.of_nat (getDimension tsplibProblem * getDimension tsplibProblem + 2)
   < 2 ^ 64)%Z.

Local Abbreviation Inv := (searchInv tsplibProblem candidateEdges).
Local Abbreviation Alt := (altInv candidateEdges).

Lemma nextChoices_stepOk currentTour best i walk gain xi x :
  x ∈ nextChoices tsplibProblem candidateEdges currentTour best i walk gain
        xi ->
  stepOk candidateEdges currentTour (walk !!! 0) i xi x.
Proof.
  unfold nextChoices, stepOk. destruct (Nat.odd i).
  - rewrite elem_of_filter_bool. unfold inEdgeOk.
    rewrite !andb_true_iff, !negb_true_iff, !Nat.eqb_neq. tauto.
  - destruct ((i =? 0) && negb (tourDimension best =? 0));
      [|destruct (i <=? infeasibilityDepth)];
      rewrite elem_of_filter_bool;
      unfold firstOutEdgeOk, shallowOutEdgeOk, deepOutEdgeOk;
      rewrite !andb_true_iff, !negb_true_iff, !Nat.eqb_neq; tauto.
Qed.

Lemma nextChoices_closable currentTour best i walk gain xi x :
  Nat.odd i = false -> infeasibilityDepth < i ->
  x ∈ nextChoices tsplibProblem candidateEdges currentTour best i walk gain
        xi ->
  isTourAfterExchange currentTour ((walk ++ [x]) ++ [walk !!! 0]) = true.
Proof.
  intros Heven Hdeep. unfold nextChoices. rewrite Heven.
  rewrite (proj2 (Nat.eqb_neq i 0)) by (unfold infeasibilityDepth in *; lia).
  rewrite (proj2 (Nat.leb_gt i infeasibilityDepth)) by lia.
  cbn [andb]. rewrite elem_of_filter_bool. unfold deepOutEdgeOk.
  rewrite !andb_true_iff. tauto.
Qed.

Lemma snoc_first (walk : AlternatingWalk) (x : vertex_t) :
  walk <> [] -> (walk ++ [x]) !!! 0 = walk !!! 0.
Proof. by destruct walk. Qed.

Lemma extended_alt currentTour best st Xi x :
  length (vertexChoices st) = pos st + 1 ->
  length (currentWalk st) = pos st ->
  vertexChoices st !! pos st = Some Xi -> last Xi = Some x ->
  Alt currentTour st ->
  Alt currentTour
    (extended tsplibProblem candidateEdges currentTour best st Xi x).
Proof.
  intros Hvs Hwalk HXi Hlast [Halt Hchoices Hclos Hchoices_clos Hbest].
  assert (HXi_eq : Xi = removelast Xi ++ [x]).
  { apply last_Some in Hlast as [l' ->]. by rewrite removelast_last. }
  assert (Hx_in : x ∈ Xi) by (rewrite HXi_eq; set_solver).
  assert (Hwalk' : alternating candidateEdges currentTour
                     (currentWalk st ++ [x])).
  { intros j a b Ha Hb.
    assert (j + 1 < length (currentWalk st ++ [x])) as Hj
      by (by eapply lookup_lt_Some).
    rewrite length_app in Hj. simpl in Hj.
    assert (currentWalk st <> []) as Hne by (intros Hnil; rewrite Hnil in Hj;
                                             simpl in Hj; lia).
    rewrite (snoc_first _ _ Hne).
    rewrite lookup_app_l in Ha by lia.
    destruct (decide (j + 1 < length (currentWalk st))) as [Hin|Hout].
    - rewrite lookup_app_l in Hb by lia. by apply Halt.
    - rewrite lookup_app_r in Hb by lia.
      replace (j + 1 - length (currentWalk st)) with 0 in Hb by lia.
      injection Hb as <-.
      apply (Hchoices j Xi x a); [|done|done].
      by replace (j + 1) with (pos st) by lia. }
  assert (Hclos' : closable currentTour (currentWalk st ++ [x])).
  { intros j Heven Hdeep Hj. rewrite length_app in Hj. simpl in Hj.
    assert (currentWalk st <> []) as Hne by (intros Hnil; rewrite Hnil in Hj;
                                             simpl in Hj; lia).
    rewrite (snoc_first _ _ Hne).
    destruct (decide (j + 1 < length (currentWalk st))) as [Hin|Hout].
    - rewrite take_app_le by lia. by apply Hclos.
    - rewrite take_ge by (rewrite length_app; simpl; lia).
      replace (currentWalk st) with (take (j + 1) (currentWalk st)) at 1
        by (apply take_ge; lia).
      apply (Hchoices_clos j Xi x); try done; [|lia].
      by replace (j + 1) with (pos st) by lia. }
  constructor; cbn [extended currentWalk vertexChoices highestGain
                             bestAlternatingWalk].
  - exact Hwalk'.
  - intros j Xj x' y HXj Hx' Hy.
    assert (j < length (currentWalk st ++ [x])) as Hj
      by (by eapply lookup_lt_Some).
    rewrite length_app in Hj. simpl in Hj.
    destruct (decide (j = pos st)) as [->|Hne].
    + rewrite lookup_app_r in HXj by (rewrite length_insert; lia).
      rewrite length_insert in HXj.
      replace (pos st + 1 - length (vertexChoices st)) with 0 in HXj by lia.
      injection HXj as <-.
      rewrite lookup_app_r in Hy by lia.
      replace (pos st - length (currentWalk st)) with 0 in Hy by lia.
      injection Hy as <-.
      by eapply nextChoices_stepOk.
    + assert (currentWalk st <> []) as Hnil
        by (intros Hnil; rewrite Hnil in Hwalk, Hj; simpl in Hwalk, Hj; lia).
      rewrite (snoc_first _ _ Hnil).
      rewrite lookup_app_l in Hy by lia.
      rewrite lookup_app_l in HXj by (rewrite length_insert; lia).
      destruct (decide (j + 1 = pos st)) as [Heq|Hneq].
      * rewrite Heq in HXj.
        rewrite list_lookup_insert_eq in HXj by lia. injection HXj as <-.
        apply (Hchoices j Xi x' y); [by rewrite Heq| |done].
        rewrite HXi_eq. set_solver.
      * rewrite list_lookup_insert_ne in HXj by lia.
        by apply (Hchoices j Xj x' y).
  - exact Hclos'.
  - intros j Xj x' Heven Hdeep HXj Hx' Hj.
    rewrite length_app in Hj. simpl in Hj.
    destruct (decide (j = pos st)) as [->|Hne].
    + rewrite lookup_app_r in HXj by (rewrite length_insert; lia).
      rewrite length_insert in HXj.
      replace (pos st + 1 - length (vertexChoices st)) with 0 in HXj by lia.
      injection HXj as <-.
      rewrite take_ge by (rewrite length_app; simpl; lia).
      by eapply nextChoices_closable.
    + assert (currentWalk st <> []) as Hnil
        by (intros Hnil; rewrite Hnil in Hwalk, Hj; simpl in Hwalk, Hj; lia).
      rewrite (snoc_first _ _ Hnil).
      rewrite take_app_le by lia.
      rewrite lookup_app_l in HXj by (rewrite length_insert; lia).
      destruct (decide (j + 1 = pos st)) as [Heq|Hneq].
      * rewrite Heq in HXj.
        rewrite list_lookup_insert_eq in HXj by lia. injection HXj as <-.
        apply (Hchoices_clos j Xi x'); try done; [by rewrite Heq| |lia].
        rewrite HXi_eq. set_solver.
      * rewrite list_lookup_insert_ne in HXj by lia.
        apply (Hchoices_clos j Xj x'); try done. lia.
  - unfold scored.
    match goal with
    | |- context [if ?b then _ else _] => destruct b eqn:Hbetter
    end;
      cbn [fst snd]; [|exact Hbest].
    intros _.
    apply andb_prop in Hbetter as [[Hodd Hge%Nat.leb_le]%andb_prop _].
    exists (currentWalk st ++ [x]), ((currentWalk st ++ [x]) !!! 0).
    split_and!; [done| | | |done|done].
    + apply list_lookup_lookup_total_lt. rewrite length_app. simpl. lia.
    + rewrite length_app, Hwalk. simpl.
      rewrite Nat.add_1_r, Nat.even_succ. done.
    + rewrite length_app. simpl. lia.
Qed.

Lemma backtracked_alt currentTour st :
  Alt currentTour st -> Alt currentTour (backtracked st).
Proof.
  intros [Halt Hchoices Hclos Hchoices_clos Hbest].
  set (i' := Nat.min (pos st - 1) backtrackingDepth).
  assert (Hfirst : forall j y, take i' (currentWalk st) !! j = Some y ->
                     take i' (currentWalk st) !!! 0 = currentWalk st !!! 0).
  { intros j y Hy. apply lookup_take_Some in Hy as [_ Hj].
    destruct i' as [|i']; [lia|]. by destruct (currentWalk st). }
  constructor; unfold backtracked; fold i';
    cbn [currentWalk vertexChoices highestGain bestAlternatingWalk].
  - intros j a b Ha Hb. rewrite (Hfirst _ _ Ha).
    apply lookup_take_Some in Ha as [Ha _].
    apply lookup_take_Some in Hb as [Hb _]. by apply Halt.
  - intros j Xj x y HXj Hx Hy. rewrite (Hfirst _ _ Hy).
    apply lookup_take_Some in HXj as [HXj _].
    apply lookup_take_Some in Hy as [Hy _]. by apply (Hchoices j Xj x y).
  - intros j Heven Hdeep Hj. rewrite length_take in Hj.
    assert (take i' (currentWalk st) !!! 0 = currentWalk st !!! 0) as ->.
    { destruct i' as [|i'']; [lia|]. by destruct (currentWalk st). }
    rewrite take_take. replace (Nat.min (j + 2) i') with (j + 2) by lia.
    apply Hclos; try done. lia.
  - intros j Xj x Heven Hdeep HXj Hx Hj. rewrite length_take in Hj.
    assert (take i' (currentWalk st) !!! 0 = currentWalk st !!! 0) as ->.
    { destruct i' as [|i'']; [lia|]. by destruct (currentWalk st). }
    rewrite take_take. replace (Nat.min (j + 1) i') with (j + 1) by lia.
    apply lookup_take_Some in HXj as [HXj _].
    apply (Hchoices_clos j Xj x); try done. lia.
  - exact Hbest.
Qed.

Lemma initialState_alt currentTour :
  Alt currentTour (initialState tsplibProblem).
Proof.
  constructor; cbn [initialState currentWalk vertexChoices highestGain].
  - intros j a b Ha. done.
  - intros j Xj x y _ _ Hy. done.
  - intros j _ _ Hj. simpl in Hj. lia.
  - intros j Xj x _ _ _ _ Hj. simpl in Hj. lia.
  - lia.
Qed.

Lemma innerStep_cases currentTour best st :
  valid currentTour -> Inv currentTour st ->
  (exists Xi x,
     vertexChoices st !! pos st = Some Xi /\ last Xi = Some x /\
     innerStep tsplibProblem candidateEdges currentTour best st
     = Ok (Continue
             (extended tsplibProblem candidateEdges currentTour best st Xi x)))
  \/ (vertexChoices st !! pos st = Some [] /\
      innerStep tsplibProblem candidateEdges currentTour best st
      = Ok (if (0 <? highestGain st)%Z then Exchange (bestAlternatingWalk st)
            else if pos st =? 0 then Finished
                 else Continue (backtracked st))).
Proof.
  intros Hvalid Hinv.
  pose proof (inv_choices_length _ _ _ _ Hinv) as Hvs.
  pose proof (inv_walk_length _ _ _ _ Hinv) as Hwalk.
  pose proof (inv_depth _ _ _ _ Hinv) as Hdepth.
  destruct (lookup_lt_is_Some_2 (vertexChoices st) (pos st)) as [Xi HXi];
    [lia|].
  destruct (last Xi) as [x|] eqn:Hlast.
  - left. exists Xi, x. split_and!; [done | done |].
    apply innerStep_extend; try done; [lia|].
    intros _. destruct candidates_wf as [-> _].
    apply (inv_choices _ _ _ _ Hinv (pos st) Xi x HXi).
    apply last_Some in Hlast as [l' ->]. set_solver.
  - right. apply last_None in Hlast. subst Xi. split; [done|].
    by apply innerStep_empty.
Qed.

Lemma innerLoop_alternating currentTour best :
  valid currentTour ->
  forall fuel st w,
    Inv currentTour st -> Alt currentTour st ->
    innerLoop tsplibProblem candidateEdges fuel currentTour best st
    = Ok (Some w) ->
    closedAlternating candidateEdges currentTour w.
Proof.
  intros Hvalid. induction fuel as [|fuel IH]; intros st w Hinv Halt Hrun;
    [done|].
  cbn [innerLoop] in Hrun.
  destruct (innerStep_cases currentTour best st Hvalid Hinv)
    as [(Xi & x & HXi & Hlast & Hstep)|[HXi Hstep]];
    rewrite Hstep in Hrun; cbn [mbind result_bind] in Hrun.
  - destruct (extended_inv tsplibProblem candidateEdges valid contract
                candidates_wf currentTour best st Xi x Hvalid Hinv HXi Hlast)
      as [Hinv' _].
    apply (IH _ w Hinv'); [|done].
    apply extended_alt; try done; apply Hinv.
  - destruct (Z.ltb_spec 0 (highestGain st)) as [Hpos|Hzero].
    + injection Hrun as <-. by apply (alt_best _ _ _ Halt).
    + destruct (Nat.eqb_spec (pos st) 0) as [|Hne]; [done|].
      destruct (backtracked_inv tsplibProblem candidateEdges currentTour st
                  Hinv Hne) as [Hinv' _].
      apply (IH _ w Hinv'); [|done]. by apply backtracked_alt.
Qed.

End AlternationFacts.

(** X12: the walk a round hands to [exchange] is a closed alternating walk:
    an even number of vertices, at least four, followed by the first one
    again; no vertex after the first equals the first; every edge starting
    at an even position joins two neighbours of the current tour, every
    edge starting at an odd position leads to a candidate that is not a
    tour neighbour; and beyond [infeasibilityDepth] the walk can be closed
    into a tour after each edge that starts at an even position. *)
Theorem exchanged_walk_alternates {Tour : Type} `{TourOps Tour}
    (tsplibProblem : TsplibProblem Tour) (candidateEdges : CandidateEdges)
    (valid : Tour -> Prop) (fuel : nat) (currentTour best : Tour)
    (w : AlternatingWalk) :
  TourContract tsplibProblem valid ->
  wfCandidates (getDimension tsplibProblem) candidateEdges ->
  (Z.of_nat (getDimension tsplibProblem * getDimension tsplibProblem + 2)
   < 2 ^ 64)%Z ->
  valid currentTour ->
  innerLoop tsplibProblem candidateEdges fuel currentTour best
    (initialState tsplibProblem) = Ok (Some w) ->
  exists walk x0,
    w = walk ++ [x0] /\ walk !! 0 = Some x0 /\
    Nat.even (length walk) = true /\ 4 <= length walk /\
    forall j a b,
      walk !! j = Some a -> walk !! (j + 1) = Some b ->
      b ≠ x0 /\
      if Nat.odd j
      then b ∈ candidateEdges !!! a /\
           b ≠ predecessor currentTour a /\ b ≠ successor currentTour a
      else b ∈ getNeighbors currentTour a /\
           (infeasibilityDepth < j ->
            isTourAfterExchange currentTour (take (j + 2) walk ++ [x0])
            = true).
Proof.
  intros Hcontract Hwf Hsize Hvalid Hrun.
  assert (closedAlternating candidateEdges currentTour w)
    as (walk & x0 & Hw & Hx0 & Heven & Hlen & Halt & Hclos).
  { eapply innerLoop_alternating; [exact Hcontract | exact Hwf | exact Hsize
                                   | exact Hvalid | | | exact Hrun].
    - by apply initialState_inv.
    - by eapply initialState_alt. }
  exists walk, x0. split_and!; try done.
  intros j a b Ha Hb. specialize (Halt j a b Ha Hb).
  specialize (Hclos j).
  rewrite (list_lookup_total_correct _ _ _ Hx0) in Halt, Hclos.
  destruct Halt as [Hne Hstep]. split; [done|].
  destruct (Nat.odd j); [done|]. split; [done|].
  intros Hdeep. apply Hclos; [done | done |]. by eapply lookup_lt_Some.
Qed.

Lemma exchanged_walk_alternates_witness :
  exists walk x0,
    [3; 1; 0; 2; 3] = walk ++ [x0] /\ walk !! 0 = Some x0 /\
    Nat.even (length walk) = true /\ 4 <= length walk /\
    forall j a b,
      walk !! j = Some a -> walk !! (j + 1) = Some b ->
      b ≠ x0 /\
      if Nat.odd j
      then b ∈ Line4.allCandidates !!! a /\
           b ≠ predecessor Line4.crossed a /\ b ≠ successor Line4.crossed a
      else b ∈ getNeighbors Line4.crossed a /\
           (infeasibilityDepth < j ->
            isTourAfterExchange Line4.crossed (take (j + 2) walk ++ [x0])
            = true).
Proof.
  apply (exchanged_walk_alternates Line4.problem Line4.allCandidates
           (ListTour.valid 4) 100 Line4.crossed [0; 1; 2; 3]).
  - apply Line4Facts.line4_contract.
  - apply Line4Facts.candidates_wf.
  - reflexivity.
  - reflexivity.
  - vm_compute. reflexivity.
Defined.

Section BudgetFacts.

Context {Tour : Type} `{TourOps Tour}.
Variable tsplibProblem : TsplibProblem Tour.
Variable candidateEdges : CandidateEdges.

(** A larger budget does not change the outcome of a round. *)
Lemma innerLoop_more_fuel currentTour best :
  forall fuel fuel' st out,
    innerLoop tsplibProblem candidateEdges fuel currentTour best st = Ok out ->
    fuel <= fuel' ->
    innerLoop tsplibProblem candidateEdges fuel' currentTour best st = Ok out.
Proof.
  induction fuel as [|fuel IH]; intros fuel' st out Hrun Hle; [done|].
  destruct fuel' as [|fuel']; [lia|].
  cbn [innerLoop] in *.
  destruct (innerStep _ _ currentTour best st) as [step|e]; [|done].
  cbn [mbind result_bind] in *.
  destruct step as [st'|w|]; [|done|done].
  apply (IH fuel' st' out Hrun). lia.
Qed.

(** The tour returned by the outer loop is one on which a round finds no
    exchange. *)
Lemma improveRounds_last_round best :
  forall rounds steps currentTour T,
    improveRounds tsplibProblem candidateEdges rounds steps best currentTour
    = Ok T ->
    innerLoop tsplibProblem candidateEdges steps T best
      (initialState tsplibProblem) = Ok None.
Proof.
  induction rounds as [|rounds IH]; intros steps currentTour T Hrun; [done|].
  cbn [improveRounds] in Hrun.
  destruct (innerLoop _ _ steps currentTour best _) as [[w|]|e] eqn:Hround;
    cbn [mbind result_bind] in Hrun; [| |done].
  - exact (IH steps _ T Hrun).
  - by simplify_eq.
Qed.

End BudgetFacts.

(** X13: whatever the budget, [improveTour] on a valid tour makes no access
    outside a vector and throws nothing: the run ends with a valid tour,
    no longer than the start tour, or the budget of the model is used
    up. *)
Theorem improveTour_never_fails {Tour : Type} `{TourOps Tour}
    (tsplibProblem : TsplibProblem Tour) (candidateEdges : CandidateEdges)
    (valid : Tour -> Prop) (fuel : nat) (best startTour : Tour) :
  TourContract tsplibProblem valid ->
  wfCandidates (getDimension tsplibProblem) candidateEdges ->
  (Z.of_nat (getDimension tsplibProblem * getDimension tsplibProblem + 2)
   < 2 ^ 64)%Z ->
  valid startTour ->
  (exists T,
     improveTour tsplibProblem candidateEdges fuel best startTour = Ok T /\
     valid T /\
     (tourLength tsplibProblem T <= tourLength tsplibProblem startTour)%Z)
  \/ improveTour tsplibProblem candidateEdges fuel best startTour
     = Fail OutOfFuel.
Proof.
  intros Hcontract Hwf Hsize Hvalid. unfold improveTour.
  destruct (improveRounds_safe tsplibProblem candidateEdges valid Hcontract
              Hwf Hsize best fuel fuel startTour Hvalid) as [[T HT]|Hout];
    [left|by right].
  exists T. split; [done|].
  by eapply improveRounds_no_longer.
Qed.

Lemma improveTour_never_fails_witness :
  (exists T,
     improveTour Line4.problem Line4.allCandidates 3 [] Line4.crossed = Ok T /\
     ListTour.valid 4 T /\
     (tourLength Line4.problem T <= tourLength Line4.problem Line4.crossed)%Z)
  \/ improveTour Line4.problem Line4.allCandidates 3 [] Line4.crossed
     = Fail OutOfFuel.
Proof.
  apply (improveTour_never_fails Line4.problem Line4.allCandidates
           (ListTour.valid 4) 3 [] Line4.crossed).
  - apply Line4Facts.line4_contract.
  - apply Line4Facts.candidates_wf.
  - reflexivity.
  - reflexivity.
Defined.

(** X14: [improveTour] is stable on its own result: run again on the tour it
    returned (with the same best tour), it returns that tour unchanged
    after a single round. *)
Theorem improveTour_fixed_point {Tour : Type} `{TourOps Tour}
    (tsplibProblem : TsplibProblem Tour) (candidateEdges : CandidateEdges)
    (fuel fuel' : nat) (best startTour T : Tour) :
  improveTour tsplibProblem candidateEdges fuel best startTour = Ok T ->
  fuel <= fuel' ->
  improveTour tsplibProblem candidateEdges fuel' best T = Ok T /\
  improveRounds tsplibProblem candidateEdges 1 fuel' best T = Ok T.
Proof.
  intros Hrun Hle. unfold improveTour in *.
  pose proof (improveRounds_last_round _ _ _ _ _ _ _ Hrun) as Hlast.
  pose proof (innerLoop_more_fuel _ _ _ _ _ _ _ _ Hlast Hle) as Hlast'.
  destruct fuel as [|fuel]; [done|].
  destruct fuel' as [|fuel']; [lia|].
  cbn [improveRounds]. by rewrite Hlast'.
Qed.

Lemma improveTour_fixed_point_witness :
  improveTour Line4.problem Line4.allCandidates 120 [] [0; 2; 3; 1]
  = Ok [0; 2; 3; 1] /\
  improveRounds Line4.problem Line4.allCandidates 1 120 [] [0; 2; 3; 1]
  = Ok [0; 2; 3; 1].
Proof.
  apply (improveTour_fixed_point Line4.problem Line4.allCandidates 100 120 []
           Line4.crossed [0; 2; 3; 1]); [vm_compute; reflexivity | lia].
Defined.

Section RoundFacts.

Context {Tour : Type} `{TourOps Tour}.
Variable tsplibProblem : TsplibProblem Tour.
Variable candidateEdges : CandidateEdges.
Variable valid : Tour -> Prop.

Hypothesis contract : TourContract tsplibProblem valid.
Hypothesis candidates_wf :
  wfCandidates (getDimension tsplibProblem) candidateEdges.
Hypothesis size_ok :
  (Z.of_nat (getDimension tsplibProblem * getDimension tsplibProblem + 2)
   < 2 ^ 64)%Z.

Lemma runSteps_inv currentTour best :
  valid currentTour ->
  forall n st st',
    searchInv tsplibProblem candidateEdges currentTour st ->
    runSteps tsplibProblem candidateEdges n currentTour best st
    = Ok (Continue st') ->
    searchInv tsplibProblem candidateEdges currentTour st'.
Proof.
  intros Hvalid. induction n as [|n IH]; intros st st' Hinv Hrun.
  - by simplify_eq/=.
  - cbn [runSteps] in Hrun.
    destruct (innerStep_progress tsplibProblem candidateEdges valid contract
                candidates_wf size_ok currentTour best st Hvalid Hinv)
      as (out & Hstep & Hpost).
    rewrite Hstep in Hrun. cbn [mbind result_bind] in Hrun.
    destruct out as [st1|w|]; [|done|done].
    destruct Hpost as [Hinv1 _]. by apply (IH st1).
Qed.

(** A tour returned by the outer loop is the tour it started from or a
    strictly shorter one. *)
Lemma improveRounds_same_or_shorter best :
  forall rounds steps currentTour T,
    valid currentTour ->
    improveRounds tsplibProblem candidateEdges rounds steps best currentTour
    = Ok T ->
    T = currentTour
    \/ (tourLength tsplibProblem T < tourLength tsplibProblem currentTour)%Z.
Proof.
  induction rounds as [|rounds IH]; intros steps currentTour T Hvalid Hrun;
    [done|].
  cbn [improveRounds] in Hrun.
  destruct (innerLoop _ _ steps currentTour best _) as [[w|]|e] eqn:Hround;
    cbn [mbind result_bind] in Hrun; [| |done].
  - right.
    destruct (innerLoop_exchange tsplibProblem candidateEdges valid contract
                candidates_wf size_ok currentTour best Hvalid steps _ w
                (initialState_inv tsplibProblem candidateEdges size_ok
                   currentTour) Hround) as [Htour Hgain].
    pose proof (exchange_length _ _ contract currentTour w Hvalid Htour)
      as Hshorter.
    pose proof (exchange_valid _ _ contract currentTour w Hvalid Htour)
      as Hvalid'.
    destruct (IH steps _ T Hvalid' Hrun) as [->|Hlt]; lia.
  - left. by simplify_eq.
Qed.

End RoundFacts.

(** X15: in every state the inner loop reaches, [currentWalk] has [i]
    vertices and [vertexChoices] has [i + 1] sets, all vertices of the walk
    and of the sets are vertices of the problem, no edge occurs twice in
    the walk (in either direction), and the depth [i] is at most
    [N * N + 1]. *)
Theorem search_never_repeats_an_edge {Tour : Type} `{TourOps Tour}
    (tsplibProblem : TsplibProblem Tour) (candidateEdges : CandidateEdges)
    (valid : Tour -> Prop) (n : nat) (currentTour best : Tour)
    (st : SearchState) :
  TourContract tsplibProblem valid ->
  wfCandidates (getDimension tsplibProblem) candidateEdges ->
  (Z.of_nat (getDimension tsplibProblem * getDimension tsplibProblem + 2)
   < 2 ^ 64)%Z ->
  valid currentTour ->
  runSteps tsplibProblem candidateEdges n currentTour best
    (initialState tsplibProblem) = Ok (Continue st) ->
  length (currentWalk st) = pos st /\
  length (vertexChoices st) = pos st + 1 /\
  Forall (fun v => v < getDimension tsplibProblem) (currentWalk st) /\
  Forall (Forall (fun v => v < getDimension tsplibProblem))
    (vertexChoices st) /\
  NoDup (map edgeCode (Walk.edges (currentWalk st))) /\
  pos st <= getDimension tsplibProblem * getDimension tsplibProblem + 1.
Proof.
  intros Hcontract Hwf Hsize Hvalid Hrun.
  pose proof (runSteps_inv tsplibProblem candidateEdges valid Hcontract Hwf
                Hsize currentTour best Hvalid n _ st
                (initialState_inv tsplibProblem candidateEdges Hsize
                   currentTour) Hrun) as Hinv.
  pose proof (inv_depth _ _ _ _ Hinv) as Hdepth.
  destruct Hinv as [Hvs Hwalk Hrange Hnd Hchoices _ _ _].
  split_and!; try done.
  apply Forall_lookup. intros j Xj HXj. apply Forall_forall. intros x Hx.
  by destruct (Hchoices j Xj x HXj Hx).
Qed.

Lemma search_never_repeats_an_edge_witness :
  let st := {| vertexChoices := [[0; 1; 2]; [1]; []; [2]];
               currentWalk := [3; 0; 1]; bestAlternatingWalk := [];
               highestGain := 0; pos := 3 |} in
  length (currentWalk st) = pos st /\
  length (vertexChoices st) = pos st + 1 /\
  Forall (fun v => v < 4) (currentWalk st) /\
  Forall (Forall (fun v => v < 4)) (vertexChoices st) /\
  NoDup (map edgeCode (Walk.edges (currentWalk st))) /\
  pos st <= 4 * 4 + 1.
Proof.
  intros st.
  apply (search_never_repeats_an_edge Line4.problem Line4.allCandidates
           (ListTour.valid 4) 3 Line4.crossed [] st).
  - apply Line4Facts.line4_contract.
  - apply Line4Facts.candidates_wf.
  - reflexivity.
  - reflexivity.
  - vm_compute. reflexivity.
Defined.

(** X16: [improveTour] returns the start tour itself or a strictly shorter
    tour: every exchange it commits has a positive gain. *)
Theorem improveTour_same_or_shorter {Tour : Type} `{TourOps Tour}
    (tsplibProblem : TsplibProblem Tour) (candidateEdges : CandidateEdges)
    (valid : Tour -> Prop) (fuel : nat) (best startTour T : Tour) :
  TourContract tsplibProblem valid ->
  wfCandidates (getDimension tsplibProblem) candidateEdges ->
  (Z.of_nat (getDimension tsplibProblem * getDimension tsplibProblem + 2)
   < 2 ^ 64)%Z ->
  valid startTour ->
  improveTour tsplibProblem candidateEdges fuel best startTour = Ok T ->
  T = startTour
  \/ (tourLength tsplibProblem T < tourLength tsplibProblem startTour)%Z.
Proof.
  intros Hcontract Hwf Hsize Hvalid Hrun.
  by eapply improveRounds_same_or_shorter.
Qed.

Lemma improveTour_same_or_shorter_witness :
  [0; 2; 3; 1] = Line4.crossed
  \/ (tourLength Line4.problem [0; 2; 3; 1]%nat
      < tourLength Line4.problem Line4.crossed)%Z.
Proof.
  apply (improveTour_same_or_shorter Line4.problem Line4.allCandidates
           (ListTour.valid 4) 100 [] Line4.crossed [0; 2; 3; 1]).
  - apply Line4Facts.line4_contract.
  - apply Line4Facts.candidates_wf.
  - reflexivity.
  - reflexivity.
  - vm_compute. reflexivity.
Defined.

Section NoCandidates.

Context {Tour : Type} `{TourOps Tour}.
Variable tsplibProblem : TsplibProblem Tour.
Variable candidateEdges : CandidateEdges.
Variable valid : Tour -> Prop.

Hypothesis contract : TourContract tsplibProblem valid.
Hypothesis candidates_wf :
  wfCandidates (getDimension tsplibProblem) candidateEdges.
Hypothesis size_ok :
  (Z.of_nat (getDimension tsplibProblem * getDimension tsplibProblem + 2)
   < 2 ^ 64)%Z.
Hypothesis rows_empty : Forall (fun row => row = []) candidateEdges.

Lemma empty_row xi : candidateEdges !!! xi = [].
Proof.
  destruct (candidateEdges !! xi) as [row|] eqn:Hrow.
  - rewrite (list_lookup_total_correct _ _ _ Hrow).
    by apply (proj1 (Forall_lookup _ _) rows_empty xi row).
  - by rewrite list_lookup_total_alt, Hrow.
Qed.

Lemma extended_shallow currentTour best st Xi x :
  length (vertexChoices st) = pos st + 1 ->
  vertexChoices st !! pos st = Some Xi -> last Xi = Some x ->
  shallow st ->
  shallow (extended tsplibProblem candidateEdges currentTour best st Xi x).
Proof.
  intros Hvs HXi Hlast (Hgain & Hpos & Hsecond).
  assert (pos st <> 2) as Hne.
  { intros Heq. rewrite Heq in HXi. rewrite (Hsecond Heq) in HXi.
    by simplify_eq. }
  assert (Hscore : scored tsplibProblem currentTour (pos st)
                     (currentWalk st ++ [x]) (bestAlternatingWalk st)
                     (highestGain st)
                   = (bestAlternatingWalk st, highestGain st)).
  { unfold scored. rewrite (proj2 (Nat.leb_gt 3 (pos st))) by lia.
    by rewrite andb_false_r. }
  unfold shallow, extended.
  cbn [highestGain pos vertexChoices]. rewrite Hscore. cbn [fst snd].
  split_and!; [done | lia |].
  intros Hnext. assert (pos st = 1) as Hone by lia.
  rewrite lookup_app_r by (rewrite length_insert; lia).
  rewrite length_insert.
  replace (2 - length (vertexChoices st)) with 0 by lia.
  cbn [lookup list_lookup]. f_equal.
  unfold nextChoices. rewrite Hone. cbn [Nat.odd Nat.even negb].
  by rewrite empty_row.
Qed.

Lemma backtracked_shallow st :
  shallow st -> pos st <> 0 -> shallow (backtracked st).
Proof.
  intros (Hgain & Hpos & _) Hne. unfold shallow, backtracked.
  cbn [highestGain pos vertexChoices]. split_and!; [done | lia | lia].
Qed.

Lemma innerLoop_shallow currentTour best :
  valid currentTour ->
  forall fuel st w,
    searchInv tsplibProblem candidateEdges currentTour st -> shallow st ->
    innerLoop tsplibProblem candidateEdges fuel currentTour best st
    <> Ok (Some w).
Proof.
  intros Hvalid. induction fuel as [|fuel IH]; intros st w Hinv Hsh Hrun;
    [done|].
  cbn [innerLoop] in Hrun.
  destruct (innerStep_cases tsplibProblem candidateEdges valid contract
              candidates_wf size_ok currentTour best st Hvalid Hinv)
    as [(Xi & x & HXi & Hlast & Hstep)|[HXi Hstep]];
    rewrite Hstep in Hrun; cbn [mbind result_bind] in Hrun.
  - destruct (extended_inv tsplibProblem candidateEdges valid contract
                candidates_wf currentTour best st Xi x Hvalid Hinv HXi Hlast)
      as [Hinv' _].
    apply (IH _ w Hinv'); [|done].
    apply extended_shallow; try done. apply Hinv.
  - destruct Hsh as (Hgain & Hpos & Hsecond).
    rewrite Hgain in Hrun. cbn [Z.ltb Z.compare] in Hrun.
    destruct (Nat.eqb_spec (pos st) 0) as [|Hne]; [done|].
    destruct (backtracked_inv tsplibProblem candidateEdges currentTour st
                Hinv Hne) as [Hinv' _].
    apply (IH _ w Hinv'); [|done]. by apply backtracked_shallow.
Qed.

Lemma improveTour_no_candidates best startTour :
  valid startTour ->
  exists f0, forall fuel, f0 <= fuel ->
    improveTour tsplibProblem candidateEdges fuel best startTour
    = Ok startTour.
Proof.
  intros Hvalid.
  pose proof (initialState_inv tsplibProblem candidateEdges size_ok startTour)
    as Hinv.
  destruct (innerLoop_terminates tsplibProblem candidateEdges valid contract
              candidates_wf size_ok startTour best Hvalid _ _ Hinv (le_n _))
    as (out & Hrun & _).
  set (m := searchMeasure tsplibProblem candidateEdges startTour
              (initialState tsplibProblem)) in *.
  exists (S m). intros fuel Hfuel. unfold improveTour.
  destruct fuel as [|fuel]; [lia|]. cbn [improveRounds].
  rewrite Hrun by lia. cbn [mbind result_bind].
  destruct out as [w|]; [|done].
  exfalso.
  apply (innerLoop_shallow startTour best Hvalid (S m) _ w Hinv).
  - unfold shallow. cbn [initialState highestGain pos].
    split_and!; [done | lia | lia].
  - apply Hrun. lia.
Qed.

End NoCandidates.

Lemma create_zero_rows {Tour} (oracle : AlphaOracle)
    (problem : TsplibProblem Tour) (ty : Candidates.Type_) :
  ty <> Candidates.ALL_NEIGHBORS ->
  exists table,
    Candidates.create oracle problem ty 0 = Ok table /\
    length table = getDimension problem /\
    Forall (fun row => row = []) table.
Proof.
  intros Hty. destruct (create_raw oracle problem ty 0 Hty) as [cmp ->].
  destruct (rawNearestNeighbors_rows (getDimension problem) 0 cmp)
    as (table & Hcreate & Hlen & Hrows).
  exists table. split_and!; [done | done |].
  apply Forall_lookup. intros v row Hrow.
  assert (v < getDimension problem) as Hv
    by (rewrite <- Hlen; by eapply lookup_lt_Some).
  destruct (Hrows v Hv) as (row' & Hrow' & others & _ & Hraw). simplify_eq.
  unfold Candidates.partial_sort_copy. cbn [replicate length].
  by rewrite Nat.min_0_r.
Qed.

(** X17: with [k = 0] the nearest-neighbour strategies give every vertex an
    empty row, and with such a table [improveTour] finds no exchange: it
    returns every valid start tour unchanged. *)
Theorem improveTour_without_candidates {Tour : Type} `{TourOps Tour}
    (oracle : AlphaOracle) (tsplibProblem : TsplibProblem Tour)
    (ty : Candidates.Type_) (valid : Tour -> Prop) (best startTour : Tour) :
  TourContract tsplibProblem valid ->
  (Z.of_nat (getDimension tsplibProblem * getDimension tsplibProblem + 2)
   < 2 ^ 64)%Z ->
  ty <> Candidates.ALL_NEIGHBORS ->
  valid startTour ->
  exists table f0,
    Candidates.create oracle tsplibProblem ty 0 = Ok table /\
    Forall (fun row => row = []) table /\
    forall fuel, f0 <= fuel ->
      improveTour tsplibProblem table fuel best startTour = Ok startTour.
Proof.
  intros Hcontract Hsize Hty Hvalid.
  destruct (create_zero_rows oracle tsplibProblem ty Hty)
    as (table & Hcreate & Hlen & Hrows).
  assert (wfCandidates (getDimension tsplibProblem) table) as Hwf.
  { split; [done|]. eapply Forall_impl; [exact Hrows|].
    intros row ->. constructor. }
  destruct (improveTour_no_candidates tsplibProblem table valid Hcontract Hwf
              Hsize Hrows best startTour Hvalid) as [f0 Hrun].
  by exists table, f0.
Qed.

Lemma improveTour_without_candidates_witness :
  exists table f0,
    Candidates.create Line4.oracle Line4.problem
      Candidates.NEAREST_NEIGHBORS 0 = Ok table /\
    Forall (fun row => row = []) table /\
    forall fuel, f0 <= fuel ->
      improveTour Line4.problem table fuel [] Line4.crossed
      = Ok Line4.crossed.
Proof.
  apply (improveTour_without_candidates Line4.oracle Line4.problem
           Candidates.NEAREST_NEIGHBORS (ListTour.valid 4) [] Line4.crossed).
  - apply Line4Facts.line4_contract.
  - reflexivity.
  - discriminate.
  - reflexivity.
Defined.

(** ** More on [findBestTour] *)

Lemma withinAcceptableError_antitone (len1 len2 optimumTourLength : Z)
    (acceptableError : Q) :
  (len1 <= len2)%Z ->
  withinAcceptableError len2 optimumTourLength acceptableError = true ->
  withinAcceptableError len1 optimumTourLength acceptableError = true.
Proof.
  unfold withinAcceptableError. intros Hle Hwithin.
  apply negb_true_iff, not_true_iff_false in Hwithin.
  apply negb_true_iff, not_true_iff_false. intros Hthr. apply Hwithin.
  apply Qle_bool_iff in Hthr. apply Qle_bool_iff.
  eapply Qle_trans; [exact Hthr|]. unfold Qle. simpl. lia.
Qed.

Section TrialRuns.

Context {Tour : Type} `{TourOps Tour}.
Variable tsplibProblem : TsplibProblem Tour.
Variable candidateEdges : CandidateEdges.
Variable device : nat -> nat.
Variable distance_max : Z.
Variable valid : Tour -> Prop.

Hypothesis contract : TourContract tsplibProblem valid.
Hypothesis candidates_wf :
  wfCandidates (getDimension tsplibProblem) candidateEdges.
Hypothesis size_ok :
  (Z.of_nat (getDimension tsplibProblem * getDimension tsplibProblem + 2)
   < 2 ^ 64)%Z.
Hypothesis dimension_pos : 1 <= getDimension tsplibProblem.
Hypothesis lengths_fit :
  forall T, valid T -> (tourLength tsplibProblem T < distance_max)%Z.

Variable numberOfTrials : nat.
Variable optimumTourLength : Z.
Variable acceptableError : Q.

Local Abbreviation N := (getDimension tsplibProblem).
Local Abbreviation loop :=
  (fun fuel => trialLoop tsplibProblem candidateEdges device fuel
                 numberOfTrials optimumTourLength acceptableError).
Local Abbreviation Best := (bestOfTrials tsplibProblem distance_max).

Lemma trialLoop_runs :
  forall k st,
    numberOfTrials - trialCount st = k ->
    Best st -> Forall valid (trials st) ->
    exists st' f0,
      (forall fuel, f0 <= fuel -> loop fuel st = Ok st') /\
      Best st' /\ Forall valid (trials st') /\
      length (trials st) + Nat.min 1 k <= length (trials st') /\
      length (trials st') <= length (trials st) + k /\
      (length (trials st') < length (trials st) + k ->
       withinAcceptableError (tourLength tsplibProblem (currentBestTour st'))
         optimumTourLength acceptableError = true) /\
      length (randomLog st')
      = length (randomLog st)
        + N * (length (trials st') - length (trials st)) /\
      (exists rest, trials st' = trials st ++ rest) /\
      (forall i T,
         trials st' !! i = Some T ->
         length (trials st) <= i -> i + 1 < length (trials st') ->
         withinAcceptableError (tourLength tsplibProblem T)
           optimumTourLength acceptableError = false).
Proof.
  induction k as [|k IH]; intros st Hk Hbest Hvalid.
  { eexists _, 0. split_and!.
    - intros fuel _. destruct fuel; simpl;
        rewrite (proj2 (Nat.ltb_ge _ _)) by lia; reflexivity.
    - done.
    - done.
    - simpl. lia.
    - simpl. lia.
    - simpl. lia.
    - simpl. lia.
    - exists []. simpl. by rewrite app_nil_r.
    - simpl. intros i T _ Hlow Hhigh. lia. }
  destruct candidates_wf as [Hrows _].
  destruct (generateRandomTour_runs tsplibProblem candidateEdges device
              Hrows dimension_pos (currentBestTour st) (randomLog st))
    as (order & log' & Hgen & Hperm & _ & Hdraws).
  pose proof (mkTour_valid _ _ contract order Hperm) as Hstart.
  destruct (improveTour_terminates tsplibProblem candidateEdges valid
              contract candidates_wf size_ok (currentBestTour st)
              (mkTour order) Hstart) as (T & f1 & HT & _ & Himprove).
  set (improves := (tourLength tsplibProblem T <? currentBestLength st)%Z).
  set (bestTour := if improves then T else currentBestTour st).
  set (st1 := {| currentBestTour := bestTour;
                 currentBestLength :=
                   if improves then tourLength tsplibProblem bestTour
                   else currentBestLength st;
                 trialCount := trialCount st + 1;
                 randomLog := randomLog st ++ log';
                 trials := trials st ++ [T] |}).
  assert (Hbest1 : Best st1).
  { unfold bestOfTrials in *. subst st1 bestTour improves.
    cbn [trials currentBestTour currentBestLength].
    destruct (trials st) as [|T0 Ts] eqn:Htrials.
    - cbn [app]. rewrite Hbest.
      rewrite (proj2 (Z.ltb_lt _ _)) by (by apply lengths_fit).
      split_and!; [apply list_elem_of_here | done |].
      constructor; [lia | constructor].
    - destruct Hbest as (Hin & Hlen & Hmin). cbn [app].
      change (T0 :: Ts ++ [T]) with ((T0 :: Ts) ++ [T]).
      destruct (Z.ltb_spec (tourLength tsplibProblem T) (currentBestLength st))
        as [Hlt|Hge].
      + split_and!; [set_solver | done |].
        apply Forall_app. split; [|constructor; [lia | constructor]].
        eapply Forall_impl; [exact Hmin|]. intros T' HT'. cbv beta in *. lia.
      + split_and!; [set_solver | done |].
        apply Forall_app. split; [done|]. constructor; [lia | constructor]. }
  assert (Hvalid1 : Forall valid (trials st1)).
  { apply Forall_app. split; [done | by constructor]. }
  assert (Hlen1 : length (trials st1) = length (trials st) + 1).
  { cbn [st1 trials]. rewrite length_app. simpl. lia. }
  assert (Hlog1 : length (randomLog st1) = length (randomLog st) + N).
  { cbn [st1 randomLog]. rewrite length_app. lia. }
  assert (Hstep : forall fuel st',
            Nat.max N f1 <= fuel ->
            (if withinAcceptableError (tourLength tsplibProblem bestTour)
                  optimumTourLength acceptableError
             then Ok st1 else loop fuel st1) = Ok st' ->
            loop (S fuel) st = Ok st').
  { intros fuel st' Hfuel Hrest. cbn [trialLoop].
    rewrite (proj2 (Nat.ltb_lt _ _)) by lia.
    rewrite Hgen by lia. cbn [mbind result_bind].
    rewrite Himprove by lia. cbn [mbind result_bind].
    fold improves. fold bestTour. fold st1. exact Hrest. }
  destruct (withinAcceptableError (tourLength tsplibProblem bestTour)
              optimumTourLength acceptableError) eqn:Hwithin.
  - exists st1, (S (Nat.max N f1)). split_and!; try done.
    + intros [|fuel] Hfuel; [lia|]. apply Hstep; [lia | done].
    + lia.
    + lia.
    + rewrite Hlog1, Hlen1. f_equal. nia.
    + by exists [T].
    + intros i T' _ Hlow Hhigh. lia.
  - destruct (IH st1) as (st' & f2 & Hrest & Hbest' & Hvalid' & Hlow & Hhigh
                          & Hearly & Hlog & [rest Hprefix] & Hlater);
      [simpl; lia | done | done |].
    exists st', (S (Nat.max (Nat.max N f1) f2)). split_and!; try done.
    + intros [|fuel] Hfuel; [lia|]. apply Hstep; [lia|]. apply Hrest. lia.
    + lia.
    + lia.
    + intros Hfew. apply Hearly. lia.
    + rewrite Hlog, Hlog1, Hlen1. nia.
    + exists (T :: rest). rewrite Hprefix. cbn [st1 trials].
      by rewrite <- app_assoc.
    + intros i T' HT' Hge Hlt.
      destruct (decide (i = length (trials st))) as [->|Hne];
        [|apply (Hlater i T' HT'); lia].
      rewrite Hprefix in HT'. cbn [st1 trials] in HT'.
      rewrite <- app_assoc in HT'.
      rewrite lookup_app_r in HT' by lia.
      rewrite Nat.sub_diag in HT'. injection HT' as <-.
      apply not_true_iff_false. intros HwithinT.
      apply not_true_iff_false in Hwithin. apply Hwithin.
      apply (withinAcceptableError_antitone _ (tourLength tsplibProblem T));
        [|done].
      subst bestTour improves.
      destruct (Z.ltb_spec (tourLength tsplibProblem T) (currentBestLength st))
        as [Hless|Hmore]; [lia|].
      unfold bestOfTrials in Hbest.
      destruct (trials st) as [|T0 Ts].
      * rewrite Hbest in Hmore. pose proof (lengths_fit T HT). lia.
      * destruct Hbest as (_ & Hlen & _). lia.
Qed.

End TrialRuns.

Section FuelFacts.

Context {Tour : Type} `{TourOps Tour}.
Variable tsplibProblem : TsplibProblem Tour.
Variable candidateEdges : CandidateEdges.
Variable device : nat -> nat.

(** An outcome other than the end of the budget is the outcome for every
    larger budget. *)
Lemma generateLoop_stable best :
  forall fuel fuel' currentVertex remaining order log r,
    generateLoop candidateEdges device fuel best currentVertex remaining
      order log = r ->
    r <> Fail OutOfFuel -> fuel <= fuel' ->
    generateLoop candidateEdges device fuel' best currentVertex remaining
      order log = r.
Proof.
  induction fuel as [|fuel IH];
    intros fuel' currentVertex remaining order log r Hrun Hr Hle.
  - destruct remaining as [|v rest]; [|by subst r].
    by destruct fuel'.
  - destruct fuel' as [|fuel']; [lia|].
    destruct remaining as [|v rest]; [done|].
    rewrite generateLoop_step in *.
    destruct (idx candidateEdges currentVertex) as [row|e]; [|done].
    cbn [mbind result_bind] in *.
    destruct (chooseRandomElement device _ log) as [[next log']|e]; [|done].
    cbn [mbind result_bind] in *.
    apply (IH fuel' _ _ _ _ r Hrun Hr). lia.
Qed.

Lemma generateRandomTour_stable best fuel fuel' log r :
  generateRandomTour tsplibProblem candidateEdges device fuel best log = r ->
  r <> Fail OutOfFuel -> fuel <= fuel' ->
  generateRandomTour tsplibProblem candidateEdges device fuel' best log = r.
Proof.
  unfold generateRandomTour. intros Hrun Hr Hle.
  destruct (chooseRandomElement device _ log) as [[v log1]|e]; [|done].
  cbn [mbind result_bind] in *.
  destruct (eraseAt _ v) as [remaining|e]; [|done].
  cbn [mbind result_bind] in *.
  destruct (generateLoop candidateEdges device fuel best v remaining [v] log1)
    as [[order log2]|e] eqn:Hloop.
  - by rewrite (generateLoop_stable best fuel fuel' _ _ _ _ _ Hloop).
  - assert (e <> OutOfFuel) as He by (intros ->; by subst r).
    rewrite (generateLoop_stable best fuel fuel' _ _ _ _ _ Hloop);
      [done| |done].
    congruence.
Qed.

Lemma innerLoop_stable currentTour best :
  forall fuel fuel' st r,
    innerLoop tsplibProblem candidateEdges fuel currentTour best st = r ->
    r <> Fail OutOfFuel -> fuel <= fuel' ->
    innerLoop tsplibProblem candidateEdges fuel' currentTour best st = r.
Proof.
  induction fuel as [|fuel IH]; intros fuel' st r Hrun Hr Hle;
    [by subst r|].
  destruct fuel' as [|fuel']; [lia|].
  cbn [innerLoop] in *.
  destruct (innerStep _ _ currentTour best st) as [step|e]; [|done].
  cbn [mbind result_bind] in *.
  destruct step as [st'|w|]; [|done|done].
  apply (IH fuel' st' r Hrun Hr). lia.
Qed.

Lemma improveRounds_stable best :
  forall rounds rounds' steps steps' currentTour r,
    improveRounds tsplibProblem candidateEdges rounds steps best currentTour
    = r ->
    r <> Fail OutOfFuel -> rounds <= rounds' -> steps <= steps' ->
    improveRounds tsplibProblem candidateEdges rounds' steps' best currentTour
    = r.
Proof.
  induction rounds as [|rounds IH];
    intros rounds' steps steps' currentTour r Hrun Hr Hrounds Hsteps;
    [by subst r|].
  destruct rounds' as [|rounds']; [lia|].
  cbn [improveRounds] in *.
  destruct (innerLoop _ _ steps currentTour best _) as [out|e] eqn:Hround.
  - rewrite (innerLoop_stable currentTour best steps steps' _ _ Hround)
      by (done || lia).
    cbn [mbind result_bind] in *.
    destruct out as [w|]; [|done].
    apply (IH rounds' steps steps' _ r Hrun Hr); lia.
  - assert (e <> OutOfFuel) as He by (intros ->; by subst r).
    rewrite (innerLoop_stable currentTour best steps steps' _ _ Hround);
      [done | congruence | lia].
Qed.

Lemma trialLoop_stable numberOfTrials optimumTourLength acceptableError :
  forall fuel fuel' st r,
    trialLoop tsplibProblem candidateEdges device fuel numberOfTrials
      optimumTourLength acceptableError st = r ->
    r <> Fail OutOfFuel -> fuel <= fuel' ->
    trialLoop tsplibProblem candidateEdges device fuel' numberOfTrials
      optimumTourLength acceptableError st = r.
Proof.
  induction fuel as [|fuel IH]; intros fuel' st r Hrun Hr Hle.
  - cbn [trialLoop] in Hrun.
    destruct (trialCount st <? numberOfTrials) eqn:Hentered; [by subst r|].
    destruct fuel'; cbn [trialLoop]; by rewrite Hentered.
  - destruct fuel' as [|fuel']; [lia|].
    cbn [trialLoop] in *.
    destruct (trialCount st <? numberOfTrials); [|done].
    destruct (generateRandomTour _ _ _ (S fuel) _ _) as [[start log]|e]
      eqn:Hgen.
    + rewrite (generateRandomTour_stable _ (S fuel) (S fuel') _ _ Hgen)
        by (done || lia).
      cbn [mbind result_bind] in *.
      unfold improveTour in *.
      destruct (improveRounds _ _ (S fuel) (S fuel) _ start) as [T|e]
        eqn:Himprove.
      * rewrite (improveRounds_stable _ (S fuel) (S fuel') (S fuel) (S fuel')
                   _ _ Himprove) by (done || lia).
        cbn [mbind result_bind] in *.
        destruct (withinAcceptableError _ _ _); [done|].
        apply (IH fuel' _ r Hrun Hr). lia.
      * assert (e <> OutOfFuel) as He by (intros ->; by subst r).
        rewrite (improveRounds_stable _ (S fuel) (S fuel') (S fuel) (S fuel')
                   _ _ Himprove); [done | congruence | lia | lia].
    + assert (e <> OutOfFuel) as He by (intros ->; by subst r).
      rewrite (generateRandomTour_stable _ (S fuel) (S fuel') _ _ Hgen);
        [done | congruence | lia].
Qed.

End FuelFacts.

(** X18: for every [acceptableError], [findBestTour] with at least one trial
    ends, after at least one and at most [numberOfTrials] trials; every
    trial yields a valid tour, and the tour returned is one of them and no
    longer than any other, whatever tour the member [currentBestTour] held
    when the call began. *)
Theorem findBestTour_best_of_trials {Tour : Type} `{TourOps Tour}
    (tsplibProblem : TsplibProblem Tour) (candidateEdges : CandidateEdges)
    (device : nat -> nat) (distance_max : Z) (valid : Tour -> Prop)
    (memberBestTour : Tour) (numberOfTrials : nat) (optimumTourLength : Z)
    (acceptableError : Q) :
  TourContract tsplibProblem valid ->
  wfCandidates (getDimension tsplibProblem) candidateEdges ->
  (Z.of_nat (getDimension tsplibProblem * getDimension tsplibProblem + 2)
   < 2 ^ 64)%Z ->
  1 <= getDimension tsplibProblem ->
  (forall T, valid T -> (tourLength tsplibProblem T < distance_max)%Z) ->
  1 <= numberOfTrials ->
  exists st f0,
    (forall fuel, f0 <= fuel ->
       runTrials tsplibProblem candidateEdges device distance_max fuel
         memberBestTour numberOfTrials optimumTourLength acceptableError
       = Ok st /\
       findBestTour tsplibProblem candidateEdges device distance_max fuel
         memberBestTour numberOfTrials optimumTourLength acceptableError
       = Ok (currentBestTour st)) /\
    1 <= length (trials st) <= numberOfTrials /\
    Forall valid (trials st) /\
    currentBestTour st ∈ trials st /\
    Forall (fun T => (tourLength tsplibProblem (currentBestTour st)
                      <= tourLength tsplibProblem T)%Z) (trials st).
Proof.
  intros Hcontract Hwf Hsize Hpos Hfit Htrials.
  destruct (trialLoop_runs tsplibProblem candidateEdges device distance_max
              valid Hcontract Hwf Hsize Hpos Hfit numberOfTrials
              optimumTourLength acceptableError numberOfTrials
              (initialTrialState distance_max memberBestTour []))
    as (st & f0 & Hrun & Hbest & Hvalid & Hlow & Hhigh & _ & _);
    [simpl; lia | done | done |].
  cbn [initialTrialState trials length] in Hlow, Hhigh.
  assert (Hrun' : forall fuel, f0 <= fuel ->
            runTrials tsplibProblem candidateEdges device distance_max fuel
              memberBestTour numberOfTrials optimumTourLength acceptableError
            = Ok st).
  { intros fuel Hfuel. unfold runTrials.
    rewrite (proj2 (Nat.ltb_ge _ _)) by lia. by apply Hrun. }
  exists st, f0. split_and!; [|lia|lia|done| |].
  - intros fuel Hfuel. split; [by apply Hrun'|].
    unfold findBestTour. by rewrite Hrun'.
  - unfold bestOfTrials in Hbest.
    destruct (trials st); [cbn [length] in Hlow; lia | apply Hbest].
  - unfold bestOfTrials in Hbest.
    destruct (trials st); [cbn [length] in Hlow; lia | apply Hbest].
Qed.

Lemma line4_lengths_fit T :
  ListTour.valid 4 T -> (tourLength Line4.problem T < 1000)%Z.
Proof.
  intros HT. apply ListTourFacts.valid_order in HT.
  assert (Hin : T ∈ permutations (seq 0 4))
    by (by apply permutations_Permutation).
  assert (Hall : Forall (fun T' => (tourLength Line4.problem T' < 1000)%Z)
                   (permutations (seq 0 4)))
    by (vm_compute; repeat constructor).
  rewrite Forall_forall in Hall. by apply Hall.
Qed.

Lemma findBestTour_best_of_trials_witness :
  exists st f0,
    (forall fuel, f0 <= fuel ->
       runTrials Line4.problem Line4.allCandidates (fun n => 2 * n) 1000 fuel
         Line4.crossed 3 6 (1 # 2) = Ok st /\
       findBestTour Line4.problem Line4.allCandidates (fun n => 2 * n) 1000
         fuel Line4.crossed 3 6 (1 # 2) = Ok (currentBestTour st)) /\
    1 <= length (trials st) <= 3 /\
    Forall (ListTour.valid 4) (trials st) /\
    currentBestTour st ∈ trials st /\
    Forall (fun T => (tourLength Line4.problem (currentBestTour st)
                      <= tourLength Line4.problem T)%Z) (trials st).
Proof.
  apply (findBestTour_best_of_trials Line4.problem Line4.allCandidates
           (fun n => 2 * n) 1000 (ListTour.valid 4) Line4.crossed 3 6 (1 # 2)).
  - apply Line4Facts.line4_contract.
  - apply Line4Facts.candidates_wf.
  - reflexivity.
  - vm_compute. lia.
  - apply line4_lengths_fit.
  - lia.
Defined.



(** X20: [findBestTour] throws [std::runtime_error] exactly when
    [numberOfTrials] is below 1; with at least one trial it throws nothing
    and makes no access outside a vector: whatever the budget of the
    model, the run ends with one and the same valid tour or the budget is
    used up. *)
Theorem findBestTour_throws_only_without_trials {Tour : Type} `{TourOps Tour}
    (tsplibProblem : TsplibProblem Tour) (candidateEdges : CandidateEdges)
    (device : nat -> nat) (distance_max : Z) (valid : Tour -> Prop)
    (memberBestTour : Tour) (numberOfTrials : nat) (optimumTourLength : Z)
    (acceptableError : Q) :
  TourContract tsplibProblem valid ->
  wfCandidates (getDimension tsplibProblem) candidateEdges ->
  (Z.of_nat (getDimension tsplibProblem * getDimension tsplibProblem + 2)
   < 2 ^ 64)%Z ->
  1 <= getDimension tsplibProblem ->
  (forall T, valid T -> (tourLength tsplibProblem T < distance_max)%Z) ->
  (forall fuel,
     findBestTour tsplibProblem candidateEdges device distance_max fuel
       memberBestTour numberOfTrials optimumTourLength acceptableError
     = Fail RuntimeError
     <-> numberOfTrials = 0) /\
  (1 <= numberOfTrials ->
   exists T,
     valid T /\
     forall fuel,
       findBestTour tsplibProblem candidateEdges device distance_max fuel
         memberBestTour numberOfTrials optimumTourLength acceptableError
       = Ok T
       \/ findBestTour tsplibProblem candidateEdges device distance_max fuel
            memberBestTour numberOfTrials optimumTourLength acceptableError
          = Fail OutOfFuel).
Proof.
  intros Hcontract Hwf Hsize Hpos Hfit.
  assert (Hsafe : 1 <= numberOfTrials ->
    exists T,
      valid T /\
      forall fuel,
        findBestTour tsplibProblem candidateEdges device distance_max fuel
          memberBestTour numberOfTrials optimumTourLength acceptableError
        = Ok T
        \/ findBestTour tsplibProblem candidateEdges device distance_max fuel
             memberBestTour numberOfTrials optimumTourLength acceptableError
           = Fail OutOfFuel).
  { intros Htrials.
    destruct (trialLoop_runs tsplibProblem candidateEdges device distance_max
                valid Hcontract Hwf Hsize Hpos Hfit numberOfTrials
                optimumTourLength acceptableError numberOfTrials
                (initialTrialState distance_max memberBestTour []))
      as (st & f0 & Hrun & Hbest & Hvalid & Hlow & _);
      [simpl; lia | done | done |].
    cbn [initialTrialState trials length] in Hlow.
    exists (currentBestTour st). split.
    { unfold bestOfTrials in Hbest.
      destruct (trials st) as [|T0 Ts] eqn:Htr; [cbn [length] in Hlow; lia|].
      destruct Hbest as [Hin _].
      by apply (proj1 (Forall_forall _ _) Hvalid). }
    intros fuel. unfold findBestTour, runTrials.
    rewrite (proj2 (Nat.ltb_ge _ _)) by lia.
    destruct (trialLoop _ _ _ fuel _ _ _ _) as [st'|e] eqn:Hloop.
    - left. cbn [mbind result_bind].
      pose proof (trialLoop_stable tsplibProblem candidateEdges device
                    numberOfTrials optimumTourLength acceptableError
                    fuel (Nat.max fuel f0) _ _ Hloop) as Hmore.
      rewrite Hrun in Hmore by lia.
      assert (Ok st = Ok st') as Heq by (apply Hmore; [done | lia]).
      by injection Heq as <-.
    - right. cbn [mbind result_bind].
      assert (e = OutOfFuel \/ e <> OutOfFuel) as [->|He]
        by (destruct e; auto; right; discriminate); [done|].
      pose proof (trialLoop_stable tsplibProblem candidateEdges device
                    numberOfTrials optimumTourLength acceptableError
                    fuel (Nat.max fuel f0) _ _ Hloop) as Hmore.
      rewrite Hrun in Hmore by lia.
      assert (Ok st = Fail e) as Heq by (apply Hmore; [congruence | lia]).
      done. }
  split; [|exact Hsafe].
  intros fuel. split.
  - intros Hfail. destruct numberOfTrials as [|n]; [done|].
    destruct Hsafe as (T & _ & Hall); [lia|].
    destruct (Hall fuel) as [Hok|Hout]; rewrite Hfail in *; done.
  - intros ->. reflexivity.
Qed.

Lemma findBestTour_throws_only_without_trials_witness :
  (forall fuel,
     findBestTour Line4.problem Line4.allCandidates (fun n => 2 * n) 1000 fuel
       emptyTour 2 6 0 = Fail RuntimeError
     <-> 2 = 0) /\
  (1 <= 2 ->
   exists T,
     ListTour.valid 4 T /\
     forall fuel,
       findBestTour Line4.problem Line4.allCandidates (fun n => 2 * n) 1000
         fuel emptyTour 2 6 0 = Ok T
       \/ findBestTour Line4.problem Line4.allCandidates (fun n => 2 * n) 1000
            fuel emptyTour 2 6 0 = Fail OutOfFuel).
Proof.
  apply (findBestTour_throws_only_without_trials Line4.problem
           Line4.allCandidates (fun n => 2 * n) 1000 (ListTour.valid 4)
           emptyTour 2 6 0).
  - apply Line4Facts.line4_contract.
  - apply Line4Facts.candidates_wf.
  - reflexivity.
  - vm_compute. lia.
  - apply line4_lengths_fit.
Defined.

(** X21: on a problem without vertices the first trial of [findBestTour]
    reads outside a vector: [generateRandomTour] asks
    [chooseRandomElement] for an element of the empty vector of remaining
    vertices. *)
Theorem findBestTour_no_vertices {Tour : Type} `{TourOps Tour}
    (tsplibProblem : TsplibProblem Tour) (candidateEdges : CandidateEdges)
    (device : nat -> nat) (distance_max : Z) (fuel : nat)
    (memberBestTour : Tour) (numberOfTrials : nat) (optimumTourLength : Z)
    (acceptableError : Q) (log : list nat) :
  getDimension tsplibProblem = 0 ->
  1 <= numberOfTrials -> 1 <= fuel ->
  generateRandomTour tsplibProblem candidateEdges device fuel memberBestTour
    log = Fail (UndefinedBehaviour VectorAccess)
  /\
  findBestTour tsplibProblem candidateEdges device distance_max fuel
    memberBestTour numberOfTrials optimumTourLength acceptableError
  = Fail (UndefinedBehaviour VectorAccess).
Proof.
  intros Hdim Htrials Hfuel.
  assert (Hgen : forall fuel' best log',
            generateRandomTour tsplibProblem candidateEdges device fuel' best
              log' = Fail (UndefinedBehaviour VectorAccess)).
  { intros fuel' best log'. unfold generateRandomTour. rewrite Hdim.
    cbn [seq]. by rewrite chooseRandomElement_empty. }
  split; [apply Hgen|].
  unfold findBestTour, runTrials.
  rewrite (proj2 (Nat.ltb_ge _ _)) by lia.
  destruct fuel as [|fuel]; [lia|].
  cbn [trialLoop initialTrialState trialCount].
  rewrite (proj2 (Nat.ltb_lt _ _)) by lia.
  by rewrite Hgen.
Qed.

Lemma findBestTour_no_vertices_witness :
  generateRandomTour (ListTour.problem 0 Line4.d) [] (fun n => 2 * n) 5
    emptyTour [] = Fail (UndefinedBehaviour VectorAccess)
  /\
  findBestTour (ListTour.problem 0 Line4.d) [] (fun n => 2 * n) 1000 5
    emptyTour 2 0 0
  = Fail (UndefinedBehaviour VectorAccess).
Proof.
  apply (findBestTour_no_vertices (ListTour.problem 0 Line4.d) []
           (fun n => 2 * n) 1000 5 emptyTour 2 0 0 []);
    [reflexivity | lia | lia].
Defined.

(** ** The earlier version *)

Lemma checked_idxAt {A : Type} (l : list A) (i : nat) :
  at_ l i = checked (idxAt WalkAccess l i).
Proof. unfold at_, idxAt. by destruct (l !! i). Qed.

Lemma old_containsEdgeFrom_checked (w : AlternatingWalk) (u v : vertex_t) :
  forall fuel i,
    Old.containsEdgeFrom fuel w u v i
    = checked (Walk.containsEdgeFrom fuel w u v i).
Proof.
  induction fuel as [|fuel IH]; intros i; [done|].
  cbn [Old.containsEdgeFrom Walk.containsEdgeFrom].
  destruct (_ <? _)%Z; [|done].
  rewrite !checked_idxAt.
  destruct (idxAt WalkAccess w i) as [a|[| |[]|]]; try done.
  cbn [checked mbind result_bind].
  destruct (idxAt WalkAccess w (i + 1)) as [b|[| |[]|]];
    cbn [checked mbind result_bind];
    destruct (a =? u), (a =? v); cbn [checked mbind result_bind];
    try done; try apply IH;
    destruct (b =? u), (b =? v); cbn [checked mbind result_bind];
    try done; apply IH.
Qed.

(** X22: the two versions of [containsEdge] run the same loop: they return
    the same answer, and where the newer one reads outside the walk
    (the empty walk), the earlier one throws [std::out_of_range]. *)
Theorem old_containsEdge_throws (w : AlternatingWalk) (u v : vertex_t) :
  Old.containsEdge w u v = checked (Walk.containsEdge w u v)
  /\ Old.containsEdge [] u v = Fail OutOfRangeException.
Proof.
  split; [apply old_containsEdgeFrom_checked | reflexivity].
Qed.

(** X23: in the earlier version the backtracking branch never leads to
    another pass through the loop.  It erases [vertexChoices] from
    position [i] on and then reads [vertexChoices.at(i)], which throws
    [std::out_of_range]; when it backtracks to [i = 0], or the walk is
    shorter than [i], the erase on [currentWalk] already leaves the
    vector. *)
Theorem old_backtracking_fails (vertexChoices : list (list vertex_t))
    (currentWalk : AlternatingWalk) (i : nat) :
  i <> 0 -> vertexChoices !! i = Some [] ->
  Old.loopHead vertexChoices currentWalk 0 i
  = Fail (UndefinedBehaviour VectorAccess)
  \/ exists vertexChoices' currentWalk' i',
       Old.loopHead vertexChoices currentWalk 0 i
       = Ok (Old.HeadContinue vertexChoices' currentWalk' i') /\
       Old.loopHead vertexChoices' currentWalk' 0 i'
       = Fail OutOfRangeException.
Proof.
  intros Hi HXi. unfold Old.loopHead at 1 2. unfold at_. rewrite HXi.
  cbn [mbind result_bind bool_decide decide_rel andb Z.ltb Z.compare Z.eqb].
  rewrite bool_decide_eq_true_2 by done. cbn [andb].
  rewrite (proj2 (Nat.eqb_neq i 0)) by done.
  set (i' := Nat.min (i - 1) backtrackingDepth).
  assert (i' < length vertexChoices) as Hlen.
  { apply lookup_lt_Some in HXi. subst i'. lia. }
  unfold eraseFrom. rewrite (proj2 (Nat.leb_le _ _)) by lia.
  cbn [mbind result_bind].
  unfold Old.eraseFromBefore.
  destruct ((1 <=? i') && (i' <=? length currentWalk)); [|by left].
  right. cbn [mbind result_bind]. eexists _, _, _. split; [reflexivity|].
  unfold Old.loopHead, at_.
  rewrite lookup_ge_None_2; [done|]. rewrite length_take. lia.
Qed.

Lemma old_backtracking_fails_witness :
  Old.loopHead [[0; 1]; [2]; []] [3; 0] 0 2
  = Fail (UndefinedBehaviour VectorAccess)
  \/ exists vertexChoices' currentWalk' i',
       Old.loopHead [[0; 1]; [2]; []] [3; 0] 0 2
       = Ok (Old.HeadContinue vertexChoices' currentWalk' i') /\
       Old.loopHead vertexChoices' currentWalk' 0 i'
       = Fail OutOfRangeException.
Proof.
  apply (old_backtracking_fails [[0; 1]; [2]; []] [3; 0] 2);
    [lia | reflexivity].
Defined.
